(** * TwilioOpenAI: the duplex bridge of [app/bridge.py]

    A shallow embedding of [TwilioRealtimeBridge]: the session fields, the
    two relay loops [_receive_from_twilio] and [_send_to_twilio], the
    handlers [_handle_audio_delta], [_send_mark] and
    [_handle_speech_started_event], and [shutdown], together with the part
    of Python's [base64] module the outbound relay goes through.  [start]
    and [_initialize_session] only open the connection and send the
    session set-up; the bridge they leave behind is [connected]. *)

From Stdlib Require Import ZArith List String Ascii Bool Lia.
From Stdlib Require Import Init.Byte.
Import ListNotations.

#[local] Open Scope string_scope.
#[local] Open Scope list_scope.
#[local] Open Scope Z_scope.

(** ** Exceptions

    The exception classes that reach the bridge.  [CancelledError] derives
    from [BaseException], every other class here from [Exception]. *)

Inductive exn : Type :=
| CancelledError
| ConnectionClosed
| RuntimeError
| WebSocketDisconnect
| KeyError (key : string)
| AttributeError
| AssertionError
| ValueError
| TypeError
| OverflowError
| binascii_Error.

Definition is_Exception (e : exn) : bool :=
  match e with
  | CancelledError => false
  | _ => true
  end.

Definition is_CancelledError (e : exn) : bool :=
  match e with CancelledError => true | _ => false end.

Definition is_ConnectionClosed (e : exn) : bool :=
  match e with ConnectionClosed => true | _ => false end.

Definition is_RuntimeError (e : exn) : bool :=
  match e with RuntimeError => true | _ => false end.

Definition is_WebSocketDisconnect (e : exn) : bool :=
  match e with WebSocketDisconnect => true | _ => false end.

Inductive result (A : Type) : Type :=
| Return (a : A)
| Raised (e : exn).

Arguments Return {A} a.
Arguments Raised {A} e.

(** ** Base64, as [base64.b64decode] and [base64.b64encode] compute it

    [_handle_audio_delta] runs
    [base64.b64encode(base64.b64decode(response["delta"])).decode("utf-8")].
    [b64decode] is called without [validate], so it is CPython's
    [binascii.a2b_base64] in its lenient mode ([strict_mode] false): the
    decoder below follows that loop state by state ([quad_pos], [leftchar],
    [pads]).  [b64encode] is the standard encoding with padding and without
    line breaks. *)

Module Base64.

Definition bytes : Type := list byte.

Definition Z_of_byte (b : byte) : Z := Z.of_N (Byte.to_N b).

(** Storing into an [unsigned char] keeps the low eight bits. *)
Definition byte_of_Z (z : Z) : byte :=
  byte_of_ascii (ascii_of_N (Z.to_N (Z.land z 255))).

Definition Z_of_ascii (c : ascii) : Z := Z.of_N (N_of_ascii c).

Definition BASE64_PAD : ascii := "="%char.

Definition alphabet : list ascii :=
  list_ascii_of_string
    "ABCDEFGHIJKLMNOPQRSTUVWXYZabcdefghijklmnopqrstuvwxyz0123456789+/".

(** [table_b2a_base64[n]] for a six-bit [n]. *)
Definition table_b2a_base64 (n : Z) : ascii :=
  nth (Z.to_nat n) alphabet BASE64_PAD.

Fixpoint index_of (c : ascii) (l : list ascii) (i : Z) : Z :=
  match l with
  | [] => 255
  | x :: r => if Ascii.eqb c x then i else index_of c r (i + 1)
  end.

(** [table_a2b_base64[c]]: the six-bit value of an alphabet character and
    255 (the table's -1 read as an [unsigned char]) for any other. *)
Definition table_a2b_base64 (c : ascii) : Z := index_of c alphabet 0.

(** The loop of [binascii.a2b_base64] over the remaining input.  [None] is
    [binascii.Error]: input exhausted in the middle of a quad. *)
Fixpoint a2b_loop (data : list ascii) (quad_pos leftchar pads : Z)
  : option bytes :=
  match data with
  | [] => if quad_pos =? 0 then Some [] else None
  | c :: rest =>
      if Ascii.eqb c BASE64_PAD then
        if (2 <=? quad_pos) && (4 <=? quad_pos + (pads + 1)) then
          Some []
        else
          a2b_loop rest quad_pos leftchar
                   (if 2 <=? quad_pos then pads + 1 else pads)
      else
        let this_ch := table_a2b_base64 c in
        if 64 <=? this_ch then a2b_loop rest quad_pos leftchar pads
        else
          match quad_pos with
          | 0 => a2b_loop rest 1 this_ch 0
          | 1 =>
              option_map
                (cons (byte_of_Z
                         (Z.lor (Z.shiftl leftchar 2) (Z.shiftr this_ch 4))))
                (a2b_loop rest 2 (Z.land this_ch 15) 0)
          | 2 =>
              option_map
                (cons (byte_of_Z
                         (Z.lor (Z.shiftl leftchar 4) (Z.shiftr this_ch 2))))
                (a2b_loop rest 3 (Z.land this_ch 3) 0)
          | _ =>
              option_map
                (cons (byte_of_Z (Z.lor (Z.shiftl leftchar 6) this_ch)))
                (a2b_loop rest 0 0 0)
          end
  end.

Definition a2b_base64 (data : list ascii) : option bytes :=
  a2b_loop data 0 0 0.

Definition is_ascii (c : ascii) : bool := Z_of_ascii c <? 128.

(** [base64.b64decode(s)] for a [str] argument: [s.encode("ascii")], which
    raises [ValueError] on a character outside ASCII, then [a2b_base64]. *)
Definition b64decode (s : string) : result bytes :=
  let data := list_ascii_of_string s in
  if forallb is_ascii data then
    match a2b_base64 data with
    | Some decoded => Return decoded
    | None => Raised binascii_Error
    end
  else Raised ValueError.

(** The four characters of a full group of three bytes, and the padded
    groups that close an input of length 1 or 2 modulo 3. *)
Definition b2a_triple (a b c : Z) : list ascii :=
  [ table_b2a_base64 (Z.shiftr a 2);
    table_b2a_base64 (Z.lor (Z.shiftl (Z.land a 3) 4) (Z.shiftr b 4));
    table_b2a_base64 (Z.lor (Z.shiftl (Z.land b 15) 2) (Z.shiftr c 6));
    table_b2a_base64 (Z.land c 63) ].

Fixpoint b2a_base64 (bin : bytes) : list ascii :=
  match bin with
  | [] => []
  | [a] =>
      [ table_b2a_base64 (Z.shiftr (Z_of_byte a) 2);
        table_b2a_base64 (Z.shiftl (Z.land (Z_of_byte a) 3) 4);
        BASE64_PAD; BASE64_PAD ]
  | [a; b] =>
      [ table_b2a_base64 (Z.shiftr (Z_of_byte a) 2);
        table_b2a_base64
          (Z.lor (Z.shiftl (Z.land (Z_of_byte a) 3) 4)
                 (Z.shiftr (Z_of_byte b) 4));
        table_b2a_base64 (Z.shiftl (Z.land (Z_of_byte b) 15) 2);
        BASE64_PAD ]
  | a :: b :: c :: rest =>
      b2a_triple (Z_of_byte a) (Z_of_byte b) (Z_of_byte c) ++ b2a_base64 rest
  end.

(** [base64.b64encode(b).decode("utf-8")]: the encoding is ASCII, so the
    final [decode] changes nothing. *)
Definition b64encode (bin : bytes) : string :=
  string_of_list_ascii (b2a_base64 bin).

(** *** Enumeration of the byte values

    The bit identities behind the round trip are checked on every byte, or
    pair of bytes, by evaluation. *)

Definition all_bytes : list byte :=
  map (fun n => byte_of_Z (Z.of_nat n)) (seq 0 256).

(** A six-bit value whose alphabet character is ASCII, is not the pad and
    is mapped back to the value by the decoding table. *)
Definition sextet (n : Z) : bool :=
  negb (Ascii.eqb (table_b2a_base64 n) BASE64_PAD)
  && (table_a2b_base64 (table_b2a_base64 n) =? n)
  && (n <? 64)
  && is_ascii (table_b2a_base64 n).

Definition hi6 (a : byte) : Z := Z.shiftr (Z_of_byte a) 2.
Definition mid_ab (a b : byte) : Z :=
  Z.lor (Z.shiftl (Z.land (Z_of_byte a) 3) 4) (Z.shiftr (Z_of_byte b) 4).
Definition mid_bc (b c : byte) : Z :=
  Z.lor (Z.shiftl (Z.land (Z_of_byte b) 15) 2) (Z.shiftr (Z_of_byte c) 6).
Definition lo6 (c : byte) : Z := Z.land (Z_of_byte c) 63.
Definition tail1 (a : byte) : Z := Z.shiftl (Z.land (Z_of_byte a) 3) 4.
Definition tail2 (b : byte) : Z := Z.shiftl (Z.land (Z_of_byte b) 15) 2.

Definition check_first (a b : byte) : bool :=
  sextet (hi6 a) && sextet (mid_ab a b)
  && Byte.eqb (byte_of_Z (Z.lor (Z.shiftl (hi6 a) 2)
                                   (Z.shiftr (mid_ab a b) 4))) a
  && (Z.land (mid_ab a b) 15 =? Z.shiftr (Z_of_byte b) 4).

Definition check_second (b c : byte) : bool :=
  sextet (mid_bc b c) && sextet (lo6 c)
  && Byte.eqb (byte_of_Z (Z.lor (Z.shiftl (Z.shiftr (Z_of_byte b) 4) 4)
                                   (Z.shiftr (mid_bc b c) 2))) b
  && (Z.land (mid_bc b c) 3 =? Z.shiftr (Z_of_byte c) 6)
  && Byte.eqb (byte_of_Z (Z.lor (Z.shiftl (Z.shiftr (Z_of_byte c) 6) 6)
                                   (lo6 c))) c.

Definition check_tail (a : byte) : bool :=
  sextet (tail1 a) && sextet (tail2 a)
  && Byte.eqb (byte_of_Z (Z.lor (Z.shiftl (hi6 a) 2)
                                   (Z.shiftr (tail1 a) 4))) a
  && Byte.eqb (byte_of_Z (Z.lor (Z.shiftl (Z.shiftr (Z_of_byte a) 4) 4)
                                   (Z.shiftr (tail2 a) 2))) a.

End Base64.

(** ** Data model

    Frames are taken after [json.loads], as the fields the bridge reads:
    a frame is a JSON object.  A key that may be missing from an object
    is an [option]; reading a missing key with [data[...]] raises
    [KeyError], reading it with [.get] gives [None].  Identifiers are
    strings or [None] ([null] in the frame), as the annotations of
    [__init__] say ([str | None]). *)

(** The value under ["media"] or ["start"]: an object with the keys the
    bridge reads, or another JSON value ([null], a number, a string, a
    list), of which reading a key with [v[...]] raises [TypeError]. *)
Inductive json (A : Type) : Type :=
| object (a : A)
| not_object.

Arguments object {A} a.
Arguments not_object {A}.

(** The value under ["timestamp"], by what [int()] makes of it.  [int]
    gives an integer for a JSON integer or boolean, for a finite float
    and for a string that spells an integer; it raises [ValueError] for
    any other string and for a NaN, [OverflowError] for an infinity and
    [TypeError] for [null], a list or an object. *)
Inductive int_arg : Type :=
| numeric (t : Z)
| malformed
| infinite
| non_numeric.

Record MediaObj : Type := {
  timestamp : option int_arg;
  payload : option string
}.

(** ["streamSid"] may be missing ([None]), or hold a string or [null]. *)
Record StartObj : Type := {
  streamSid : option (option string)
}.

(** A frame read from the caller socket. *)
Record TwilioMessage : Type := {
  event : option string;
  media : option (json MediaObj);
  start : option (json StartObj)
}.

(** An event read from the speech-service socket: [response.get("type")],
    [response["delta"]] ([None] when the key is absent) and
    [response.get("item_id")]. *)
Record OpenAIEvent : Type := {
  event_type : option string;
  delta : option string;
  item_id : option string
}.

(** Frames written to the caller socket with [websocket.send_json]. *)
Inductive twilio_out : Type :=
| media_frame (streamSid : option string) (audio_payload : string)
| mark_frame (streamSid : option string) (name : string)
| clear_frame (streamSid : option string).

(** Messages written to the speech-service socket with [openai_ws.send]. *)
Inductive openai_out : Type :=
| input_audio_buffer_append (audio : string)
| conversation_item_truncate
    (item_id : option string) (content_index : Z) (audio_end_ms : Z).

Inductive log_level : Type := DEBUG | INFO | EXCEPTION.

(** What a run leaves behind, in order: socket writes and log records. *)
Inductive effect : Type :=
| twilio_write (f : twilio_out)
| openai_write (m : openai_out)
| logged (level : log_level) (msg : string).

(** [websockets]' connection states ([openai_ws.state]). *)
Inductive ws_state : Type := CONNECTING | OPEN | CLOSING | CLOSED.

(** How a relay task ends, and an [asyncio.Task] as [shutdown] sees it: a
    task still running (with the way it ends when left alone), a task
    whose cancellation has been requested, or a task that is done. *)
Inductive task_end : Type :=
| finished
| failed (e : exn)
| cancelled.

Inductive Task : Type :=
| running (fate : task_end)
| cancelling
| done (r : task_end).

Record Settings : Type := {
  log_event_types : list string;
  show_timing_math : bool
}.

(** [TwilioRealtimeBridge].  [openai_ws] tells whether [self.openai_ws]
    holds the connection ([is not None]); [openai_state] is the state of
    that connection, and [websocket_closed] whether a close message went
    out on the caller socket. *)
Record Bridge : Type := {
  settings : Settings;
  websocket_closed : bool;
  openai_state : ws_state;
  openai_ws : bool;
  stream_sid : option string;
  latest_media_timestamp : Z;
  last_assistant_item : option string;
  mark_queue : list string;
  response_start_timestamp_twilio : option Z;
  _tasks : list Task
}.

Definition set_websocket_closed (v : bool) (self : Bridge) : Bridge :=
  {| settings := settings self; websocket_closed := v;
     openai_state := openai_state self; openai_ws := openai_ws self;
     stream_sid := stream_sid self;
     latest_media_timestamp := latest_media_timestamp self;
     last_assistant_item := last_assistant_item self;
     mark_queue := mark_queue self;
     response_start_timestamp_twilio := response_start_timestamp_twilio self;
     _tasks := _tasks self |}.

Definition set_openai_state (v : ws_state) (self : Bridge) : Bridge :=
  {| settings := settings self; websocket_closed := websocket_closed self;
     openai_state := v; openai_ws := openai_ws self;
     stream_sid := stream_sid self;
     latest_media_timestamp := latest_media_timestamp self;
     last_assistant_item := last_assistant_item self;
     mark_queue := mark_queue self;
     response_start_timestamp_twilio := response_start_timestamp_twilio self;
     _tasks := _tasks self |}.

Definition set_openai_ws (v : bool) (self : Bridge) : Bridge :=
  {| settings := settings self; websocket_closed := websocket_closed self;
     openai_state := openai_state self; openai_ws := v;
     stream_sid := stream_sid self;
     latest_media_timestamp := latest_media_timestamp self;
     last_assistant_item := last_assistant_item self;
     mark_queue := mark_queue self;
     response_start_timestamp_twilio := response_start_timestamp_twilio self;
     _tasks := _tasks self |}.

Definition set_stream_sid (v : option string) (self : Bridge) : Bridge :=
  {| settings := settings self; websocket_closed := websocket_closed self;
     openai_state := openai_state self; openai_ws := openai_ws self;
     stream_sid := v;
     latest_media_timestamp := latest_media_timestamp self;
     last_assistant_item := last_assistant_item self;
     mark_queue := mark_queue self;
     response_start_timestamp_twilio := response_start_timestamp_twilio self;
     _tasks := _tasks self |}.

Definition set_latest_media_timestamp (v : Z) (self : Bridge) : Bridge :=
  {| settings := settings self; websocket_closed := websocket_closed self;
     openai_state := openai_state self; openai_ws := openai_ws self;
     stream_sid := stream_sid self;
     latest_media_timestamp := v;
     last_assistant_item := last_assistant_item self;
     mark_queue := mark_queue self;
     response_start_timestamp_twilio := response_start_timestamp_twilio self;
     _tasks := _tasks self |}.

Definition set_last_assistant_item (v : option string) (self : Bridge)
  : Bridge :=
  {| settings := settings self; websocket_closed := websocket_closed self;
     openai_state := openai_state self; openai_ws := openai_ws self;
     stream_sid := stream_sid self;
     latest_media_timestamp := latest_media_timestamp self;
     last_assistant_item := v;
     mark_queue := mark_queue self;
     response_start_timestamp_twilio := response_start_timestamp_twilio self;
     _tasks := _tasks self |}.

Definition set_mark_queue (v : list string) (self : Bridge) : Bridge :=
  {| settings := settings self; websocket_closed := websocket_closed self;
     openai_state := openai_state self; openai_ws := openai_ws self;
     stream_sid := stream_sid self;
     latest_media_timestamp := latest_media_timestamp self;
     last_assistant_item := last_assistant_item self;
     mark_queue := v;
     response_start_timestamp_twilio := response_start_timestamp_twilio self;
     _tasks := _tasks self |}.

Definition set_response_start_timestamp_twilio (v : option Z) (self : Bridge)
  : Bridge :=
  {| settings := settings self; websocket_closed := websocket_closed self;
     openai_state := openai_state self; openai_ws := openai_ws self;
     stream_sid := stream_sid self;
     latest_media_timestamp := latest_media_timestamp self;
     last_assistant_item := last_assistant_item self;
     mark_queue := mark_queue self;
     response_start_timestamp_twilio := v;
     _tasks := _tasks self |}.

Definition set_tasks (v : list Task) (self : Bridge) : Bridge :=
  {| settings := settings self; websocket_closed := websocket_closed self;
     openai_state := openai_state self; openai_ws := openai_ws self;
     stream_sid := stream_sid self;
     latest_media_timestamp := latest_media_timestamp self;
     last_assistant_item := last_assistant_item self;
     mark_queue := mark_queue self;
     response_start_timestamp_twilio := response_start_timestamp_twilio self;
     _tasks := v |}.

(** [TwilioRealtimeBridge.__init__], and the same object once [start] has
    connected the speech service. *)
Definition __init__ (cfg : Settings) : Bridge :=
  {| settings := cfg; websocket_closed := false;
     openai_state := CONNECTING; openai_ws := false;
     stream_sid := None;
     latest_media_timestamp := 0;
     last_assistant_item := None;
     mark_queue := [];
     response_start_timestamp_twilio := None;
     _tasks := [] |}.

Definition connected (cfg : Settings) : Bridge :=
  set_openai_ws true (set_openai_state OPEN (__init__ cfg)).

(** Python's truth value of a [str | None]: [None] and the empty string
    are false. *)
Definition truthy (v : option string) : bool :=
  match v with
  | Some s => negb (String.eqb s "")
  | None => false
  end.

(** [==] on [str | None] values. *)
Definition py_eq (a b : option string) : bool :=
  match a, b with
  | Some x, Some y => String.eqb x y
  | None, None => true
  | _, _ => false
  end.

Definition is_str (v : option string) (lit : string) : bool :=
  py_eq v (Some lit).

(** ** Coroutines

    An [async def] body is a tree of operations on the bridge object: reads
    and writes of [self], log records, and awaited operations.  An awaited
    operation is where the coroutine can be suspended and the other relay
    can run; its continuation receives what the operation returned or
    raised. *)

Inductive io : Type :=
| next_message
| websocket_send_json (f : twilio_out)
| openai_ws_send (m : openai_out)
| openai_ws_close
| websocket_close
| await_task (i : nat).

Inductive Prog (A : Type) : Type :=
| Ret (a : A)
| Raise (e : exn)
| Get (k : Bridge -> Prog A)
| Put (self : Bridge) (k : Prog A)
| Logger (level : log_level) (msg : string) (k : Prog A)
| Await (op : io) (k : result unit -> Prog A).

Arguments Ret {A} a.
Arguments Raise {A} e.
Arguments Get {A} k.
Arguments Put {A} self k.
Arguments Logger {A} level msg k.
Arguments Await {A} op k.

Fixpoint bind {A B : Type} (p : Prog A) (f : A -> Prog B) : Prog B :=
  match p with
  | Ret a => f a
  | Raise e => Raise e
  | Get k => Get (fun self => bind (k self) f)
  | Put self k => Put self (bind k f)
  | Logger level msg k => Logger level msg (bind k f)
  | Await op k => Await op (fun r => bind (k r) f)
  end.

(** [try: p except: h]; [h e] is [None] when no clause matches [e]. *)
Fixpoint try_except {A : Type} (p : Prog A) (h : exn -> option (Prog A))
  : Prog A :=
  match p with
  | Ret a => Ret a
  | Raise e => match h e with Some q => q | None => Raise e end
  | Get k => Get (fun self => try_except (k self) h)
  | Put self k => Put self (try_except k h)
  | Logger level msg k => Logger level msg (try_except k h)
  | Await op k => Await op (fun r => try_except (k r) h)
  end.

Declare Scope prog_scope.
Delimit Scope prog_scope with prog.
Bind Scope prog_scope with Prog.

Notation "x <- p ;; q" := (bind p (fun x => q))
  (at level 61, p at next level, right associativity) : prog_scope.
Notation "p ;; q" := (bind p (fun _ => q))
  (at level 61, right associativity) : prog_scope.

#[local] Open Scope prog_scope.

Definition get : Prog Bridge := Get (fun self => Ret self).

Definition modify (f : Bridge -> Bridge) : Prog unit :=
  Get (fun self => Put (f self) (Ret tt)).

Definition logger (level : log_level) (msg : string) : Prog unit :=
  Logger level msg (Ret tt).

Definition await (op : io) : Prog unit :=
  Await op (fun r => match r with Return _ => Ret tt | Raised e => Raise e end).

Definition skip : Prog unit := Ret tt.

(** [with contextlib.suppress(cls): p]. *)
Definition suppress (cls : exn -> bool) (p : Prog unit) : Prog unit :=
  try_except p (fun e => if cls e then Some skip else None).

(** [async for x in ...: body], over the frames that will arrive; [ending]
    is how the iterator ends ([Return] for exhaustion). *)
Fixpoint async_for {X : Type} (xs : list X) (ending : result unit)
    (body : X -> Prog unit) : Prog unit :=
  match xs with
  | [] =>
      await next_message ;;
      match ending with Return _ => skip | Raised e => Raise e end
  | x :: rest =>
      await next_message ;; body x ;; async_for rest ending body
  end.

Fixpoint for_each {X : Type} (xs : list X) (body : X -> Prog unit)
  : Prog unit :=
  match xs with
  | [] => skip
  | x :: rest => body x ;; for_each rest body
  end.

(** [d[key]] on a field that may be missing. *)
Definition getitem {X : Type} (field : option X) (key : string) : Prog X :=
  match field with
  | Some v => Ret v
  | None => Raise (KeyError key)
  end.

(** [v[key]] on the value under a key of the frame: the fields of an
    object. *)
Definition fields {A : Type} (v : json A) : Prog A :=
  match v with
  | object a => Ret a
  | not_object => Raise TypeError
  end.

(** [int(v)] *)
Definition int (v : int_arg) : Prog Z :=
  match v with
  | numeric t => Ret t
  | malformed => Raise ValueError
  | infinite => Raise OverflowError
  | non_numeric => Raise TypeError
  end.

(** *** Awaited operations on the sockets and the tasks

    A write is recorded and returns.  Closing the speech-service
    connection leaves it [CLOSED]; closing the caller socket a second time
    raises [RuntimeError].  Awaiting a task gives its end: a task whose
    cancellation was requested ends cancelled. *)

Definition task_cancel (t : Task) : Task :=
  match t with
  | running _ => cancelling
  | cancelling => cancelling
  | done r => done r
  end.

Definition task_end_of (t : Task) : task_end :=
  match t with
  | running fate => fate
  | cancelling => cancelled
  | done r => r
  end.

Definition task_outcome (r : task_end) : result unit :=
  match r with
  | finished => Return tt
  | failed e => Raised e
  | cancelled => Raised CancelledError
  end.

Fixpoint update_nth {X : Type} (i : nat) (x : X) (l : list X) : list X :=
  match l, i with
  | [], _ => []
  | _ :: r, O => x :: r
  | y :: r, S j => y :: update_nth j x r
  end.

Definition perform (op : io) (self : Bridge)
  : result unit * Bridge * list effect :=
  match op with
  | next_message => (Return tt, self, [])
  | websocket_send_json f => (Return tt, self, [twilio_write f])
  | openai_ws_send m => (Return tt, self, [openai_write m])
  | openai_ws_close => (Return tt, set_openai_state CLOSED self, [])
  | websocket_close =>
      if websocket_closed self then (Raised RuntimeError, self, [])
      else (Return tt, set_websocket_closed true self, [])
  | await_task i =>
      match nth_error (_tasks self) i with
      | Some t =>
          (task_outcome (task_end_of t),
           set_tasks (update_nth i (done (task_end_of t)) (_tasks self)) self,
           [])
      | None => (Return tt, self, [])
      end
  end.

(** Running a coroutine to its end, with nothing else scheduled at its
    suspension points. *)
Fixpoint exec {A : Type} (p : Prog A) (self : Bridge)
  : result A * Bridge * list effect :=
  match p with
  | Ret a => (Return a, self, [])
  | Raise e => (Raised e, self, [])
  | Get k => exec (k self) self
  | Put self' k => exec k self'
  | Logger level msg k =>
      let '(r, self', out) := exec k self in
      (r, self', logged level msg :: out)
  | Await op k =>
      let '(r, self1, out1) := perform op self in
      let '(r', self2, out2) := exec (k r) self1 in
      (r', self2, out1 ++ out2)
  end.

Definition outcome {A : Type} (x : result A * Bridge * list effect)
  : result A := fst (fst x).
Definition final {A : Type} (x : result A * Bridge * list effect)
  : Bridge := snd (fst x).
Definition effects {A : Type} (x : result A * Bridge * list effect)
  : list effect := snd x.

(** ** The bridge *)

Definition is_empty {X : Type} (l : list X) : bool :=
  match l with [] => true | _ => false end.

(** [_send_mark] *)
Definition _send_mark : Prog unit :=
  self <- get ;;
  if negb (truthy (stream_sid self)) then skip
  else
    await (websocket_send_json (mark_frame (stream_sid self) "responsePart")) ;;
    modify (fun self => set_mark_queue (mark_queue self ++ ["responsePart"]) self).

(** The [try] block of [_handle_audio_delta]:
    [base64.b64encode(base64.b64decode(response["delta"])).decode("utf-8")]. *)
Definition reencode (response : OpenAIEvent) : result string :=
  match delta response with
  | None => Raised (KeyError "delta")
  | Some d =>
      match Base64.b64decode d with
      | Return decoded => Return (Base64.b64encode decoded)
      | Raised e => Raised e
      end
  end.

(** [_handle_audio_delta] *)
Definition _handle_audio_delta (response : OpenAIEvent) : Prog unit :=
  self <- get ;;
  if negb (truthy (stream_sid self)) then skip
  else
    match reencode response with
    | Raised e =>
        if is_Exception e then
          logger EXCEPTION "Failed to decode OpenAI audio delta"
        else Raise e
    | Return audio_payload =>
        await (websocket_send_json
                 (media_frame (stream_sid self) audio_payload)) ;;
        self <- get ;;
        (if truthy (item_id response)
            && negb (py_eq (item_id response) (last_assistant_item self))
         then
           modify (fun self =>
                     set_response_start_timestamp_twilio
                       (Some (latest_media_timestamp self)) self) ;;
           modify (set_last_assistant_item (item_id response)) ;;
           (if show_timing_math (settings self) then
              logger DEBUG "Setting start timestamp for new response: %sms"
            else skip)
         else skip) ;;
        _send_mark
    end.

(** [_handle_speech_started_event] *)
Definition _handle_speech_started_event : Prog unit :=
  self <- get ;;
  if is_empty (mark_queue self) then skip
  else
    match response_start_timestamp_twilio self with
    | None => skip
    | Some response_start =>
        let elapsed_time := latest_media_timestamp self - response_start in
        (if show_timing_math (settings self) then
           logger DEBUG
                  "Calculating elapsed time for truncation: %s - %s = %sms"
         else skip) ;;
        (if truthy (last_assistant_item self) && openai_ws self then
           (if show_timing_math (settings self) then
              logger DEBUG "Truncating item %s at %sms"
            else skip) ;;
           await (openai_ws_send
                    (conversation_item_truncate
                       (last_assistant_item self) 0 elapsed_time))
         else skip) ;;
        self <- get ;;
        await (websocket_send_json (clear_frame (stream_sid self))) ;;
        modify (set_mark_queue []) ;;
        modify (set_last_assistant_item None) ;;
        modify (set_response_start_timestamp_twilio None)
  end.

Definition in_tuple (v : option string) (t : list string) : bool :=
  existsb (fun x => is_str v x) t.

(** The body of the loop of [_send_to_twilio], for one event. *)
Definition send_to_twilio_body (response : OpenAIEvent) : Prog unit :=
  self <- get ;;
  (if in_tuple (event_type response) (log_event_types (settings self)) then
     logger DEBUG "Received event %s: %s"
   else skip) ;;
  (if is_str (event_type response) "response.output_audio.delta"
      && match delta response with Some _ => true | None => false end
   then _handle_audio_delta response
   else skip) ;;
  self <- get ;;
  if is_str (event_type response) "input_audio_buffer.speech_started"
     && truthy (last_assistant_item self)
  then
    logger INFO "Speech started detected; interrupting response %s" ;;
    _handle_speech_started_event
  else skip.

Definition assert (b : bool) : Prog unit :=
  if b then skip else Raise AssertionError.

(** [_send_to_twilio], on the events the speech service will deliver. *)
Definition _send_to_twilio (messages : list OpenAIEvent)
    (ending : result unit) : Prog unit :=
  self <- get ;;
  assert (openai_ws self) ;;
  try_except
    (async_for messages ending send_to_twilio_body)
    (fun e =>
       if is_ConnectionClosed e then
         Some (logger INFO "OpenAI realtime connection closed")
       else if is_Exception e then
         Some (logger EXCEPTION "Error sending OpenAI events to Twilio" ;;
               Raise e)
       else None).

(** [self.openai_ws.state.name == "OPEN"] *)
Definition openai_is_open : Prog bool :=
  self <- get ;;
  if openai_ws self then
    Ret (match openai_state self with OPEN => true | _ => false end)
  else Raise AttributeError.

(** The body of the loop of [_receive_from_twilio], for one frame. *)
Definition receive_from_twilio_body (data : TwilioMessage) : Prog unit :=
  is_media <- (if is_str (event data) "media" then openai_is_open
               else Ret false) ;;
  if is_media then
    m <- getitem (media data) "media" ;;
    m <- fields m ;;
    v <- getitem (timestamp m) "timestamp" ;;
    t <- int v ;;
    modify (set_latest_media_timestamp t) ;;
    m <- getitem (media data) "media" ;;
    m <- fields m ;;
    audio <- getitem (payload m) "payload" ;;
    await (openai_ws_send (input_audio_buffer_append audio))
  else if is_str (event data) "start" then
    s <- getitem (start data) "start" ;;
    s <- fields s ;;
    sid <- getitem (streamSid s) "streamSid" ;;
    modify (set_stream_sid sid) ;;
    logger INFO "Incoming stream started %s" ;;
    modify (set_response_start_timestamp_twilio None) ;;
    modify (set_latest_media_timestamp 0) ;;
    modify (set_last_assistant_item None)
  else if is_str (event data) "mark" then
    self <- get ;;
    if negb (is_empty (mark_queue self)) then
      modify (fun self => set_mark_queue (tl (mark_queue self)) self)
    else skip
  else skip.

(** [_receive_from_twilio], on the frames the caller will send. *)
Definition _receive_from_twilio (messages : list TwilioMessage)
    (ending : result unit) : Prog unit :=
  self <- get ;;
  assert (openai_ws self) ;;
  try_except
    (async_for messages ending receive_from_twilio_body)
    (fun e =>
       if is_WebSocketDisconnect e then
         Some (logger INFO "Twilio WebSocket disconnected by client" ;;
               self <- get ;;
               if openai_ws self
                  && match openai_state self with OPEN => true | _ => false end
               then await openai_ws_close
               else skip)
       else if is_Exception e then
         Some (logger EXCEPTION "Error reading Twilio media stream" ;;
               Raise e)
       else None).

(** [shutdown] *)
Definition shutdown : Prog unit :=
  modify (fun self => set_tasks (map task_cancel (_tasks self)) self) ;;
  self <- get ;;
  for_each (seq 0 (List.length (_tasks self)))
           (fun i => suppress is_CancelledError (await (await_task i))) ;;
  modify (set_tasks []) ;;
  self <- get ;;
  (if openai_ws self then
     suppress is_ConnectionClosed (await openai_ws_close) ;;
     modify (set_openai_ws false)
   else skip) ;;
  suppress is_RuntimeError (await websocket_close).

(** ** The two relays as cooperating tasks

    [run] starts [_receive_from_twilio] and [_send_to_twilio] as two tasks
    on one event loop.  A task runs until it is suspended at an awaited
    operation; then either task may be resumed.  [yields] tells which
    awaited operations suspend.  The wait for the next frame always does;
    an awaited write to a socket may or may not, so what is proved of the
    two tasks is proved for every [yields], and [every_await], where every
    awaited operation suspends, is the case with the most
    interleavings. *)

Inductive paused (A : Type) : Type :=
| Completed (r : result A)
| Suspended (k : Prog A).

Arguments Completed {A} r.
Arguments Suspended {A} k.

Definition every_await (op : io) : bool := true.

Fixpoint resume (yields : io -> bool) {A : Type} (p : Prog A)
    (self : Bridge) : paused A * Bridge * list effect :=
  match p with
  | Ret a => (Completed (Return a), self, [])
  | Raise e => (Completed (Raised e), self, [])
  | Get k => resume yields (k self) self
  | Put self' k => resume yields k self'
  | Logger level msg k =>
      let '(r, self', out) := resume yields k self in
      (r, self', logged level msg :: out)
  | Await op k =>
      let '(r, self1, out1) := perform op self in
      if yields op then (Suspended (k r), self1, out1)
      else
        let '(p', self2, out2) := resume yields (k r) self1 in
        (p', self2, out1 ++ out2)
  end.

Record Relays : Type := {
  bridge : Bridge;
  receive_task : paused unit;
  send_task : paused unit
}.

Inductive turn : Type := receive_turn | send_turn.

Definition step (yields : io -> bool) (t : turn) (c : Relays)
  : Relays * list effect :=
  match t with
  | receive_turn =>
      match receive_task c with
      | Suspended k =>
          let '(p, self, out) := resume yields k (bridge c) in
          ({| bridge := self; receive_task := p; send_task := send_task c |},
           out)
      | Completed _ => (c, [])
      end
  | send_turn =>
      match send_task c with
      | Suspended k =>
          let '(p, self, out) := resume yields k (bridge c) in
          ({| bridge := self; receive_task := receive_task c; send_task := p |},
           out)
      | Completed _ => (c, [])
      end
  end.

Fixpoint schedule (yields : io -> bool) (ts : list turn) (c : Relays)
  : Relays * list effect :=
  match ts with
  | [] => (c, [])
  | t :: rest =>
      let '(c1, out1) := step yields t c in
      let '(c2, out2) := schedule yields rest c1 in
      (c2, out1 ++ out2)
  end.

(** The tasks [run] creates, on the frames each socket will deliver. *)
Definition relays (self : Bridge)
    (frames : list TwilioMessage) (frames_end : result unit)
    (events : list OpenAIEvent) (events_end : result unit) : Relays :=
  {| bridge := self;
     receive_task := Suspended (_receive_from_twilio frames frames_end);
     send_task := Suspended (_send_to_twilio events events_end) |}.

(** The frames a trace wrote to the caller socket. *)
Fixpoint twilio_writes (out : list effect) : list twilio_out :=
  match out with
  | [] => []
  | twilio_write f :: rest => f :: twilio_writes rest
  | _ :: rest => twilio_writes rest
  end.

Fixpoint openai_writes (out : list effect) : list openai_out :=
  match out with
  | [] => []
  | openai_write m :: rest => m :: openai_writes rest
  | _ :: rest => openai_writes rest
  end.

Definition frame_streamSid (f : twilio_out) : option string :=
  match f with
  | media_frame sid _ => sid
  | mark_frame sid _ => sid
  | clear_frame sid => sid
  end.

(** Well-formed frames of the two protocols. *)
Definition media_message (t : Z) (audio : string) : TwilioMessage :=
  {| event := Some "media";
     media := Some (object {| timestamp := Some (numeric t);
                              payload := Some audio |});
     start := None |}.

Definition start_message (sid : string) : TwilioMessage :=
  {| event := Some "start";
     media := None;
     start := Some (object {| streamSid := Some (Some sid) |}) |}.

Definition mark_message : TwilioMessage :=
  {| event := Some "mark"; media := None; start := None |}.

Definition audio_delta (d : string) (item : option string) : OpenAIEvent :=
  {| event_type := Some "response.output_audio.delta";
     delta := Some d;
     item_id := item |}.

Definition speech_started : OpenAIEvent :=
  {| event_type := Some "input_audio_buffer.speech_started";
     delta := None;
     item_id := None |}.

(** The values [latest_media_timestamp] takes while the inbound relay
    handles the given frames one after the other. *)
Fixpoint latest_values (frames : list TwilioMessage) (self : Bridge)
  : list Z :=
  match frames with
  | [] => []
  | data :: rest =>
      let self' := final (exec (receive_from_twilio_body data) self) in
      latest_media_timestamp self' :: latest_values rest self'
  end.

Fixpoint nondecreasing (l : list Z) : Prop :=
  match l with
  | [] => True
  | x :: rest =>
      match rest with
      | [] => True
      | y :: _ => x <= y /\ nondecreasing rest
      end
  end.

Definition media_frames (l : list (Z * string)) : list TwilioMessage :=
  map (fun x => media_message (fst x) (snd x)) l.

(** A bridge in the middle of a call: connected, stream started, the last
    media timestamp as given. *)
Definition bridge_at (sid : string) (latest : Z) : Bridge :=
  set_latest_media_timestamp latest
    (set_stream_sid (Some sid)
       (connected {| log_event_types := []; show_timing_math := false |})).

(** The events the outbound relay acts on. *)
Definition is_audio_delta (response : OpenAIEvent) : Prop :=
  event_type response = Some "response.output_audio.delta"
  /\ delta response <> None.

Definition is_speech_started (response : OpenAIEvent) : Prop :=
  event_type response = Some "input_audio_buffer.speech_started".

(** ** Safety of the cooperating tasks

    A weakest-precondition reading of a coroutine.  [s0] is the bridge as
    it was when the task was last resumed and [s] the bridge now.  At a
    suspension point the task must leave the invariant [Inv] established
    and have changed the bridge within [R]; when it is resumed the bridge
    may have been changed by the other task, again within [R] and with
    [Inv] holding.  Every effect must satisfy [ok]. *)

Section Wp.

Variable yields : io -> bool.
Variable Inv : Bridge -> Prop.
Variable R : Bridge -> Bridge -> Prop.
Variable ok : effect -> Prop.

Fixpoint wp {A : Type} (p : Prog A)
    (Q : result A -> Bridge -> Bridge -> Prop) (s0 s : Bridge) : Prop :=
  match p with
  | Ret a => Q (Return a) s0 s
  | Raise e => Q (Raised e) s0 s
  | Get k => wp (k s) Q s0 s
  | Put s' k => wp k Q s0 s'
  | Logger _ _ k => wp k Q s0 s
  | Await op k =>
      Forall ok (snd (perform op s))
      /\ (let r := fst (fst (perform op s)) in
          let s1 := snd (fst (perform op s)) in
          if yields op then
            Inv s1 /\ R s0 s1
            /\ forall s2, Inv s2 -> R s1 s2 -> wp (k r) Q s2 s2
          else wp (k r) Q s0 s1)
  end.

(** What a task owes when it stops. *)
Definition at_rest (r : result unit) (s0 s : Bridge) : Prop :=
  Inv s /\ R s0 s.

Definition task_ok (t : paused unit) (b : Bridge) : Prop :=
  match t with
  | Completed _ => True
  | Suspended k => forall s2, Inv s2 -> R b s2 -> wp k at_rest s2 s2
  end.

Definition relays_ok (c : Relays) : Prop :=
  Inv (bridge c)
  /\ task_ok (receive_task c) (bridge c)
  /\ task_ok (send_task c) (bridge c).

End Wp.

(** The invariant of the session fields: an utterance is only ever current
    while the stream identifier is known (set and not empty). *)
Definition utterance_has_stream (s : Bridge) : Prop :=
  truthy (last_assistant_item s) = true -> truthy (stream_sid s) = true.

(** A known stream identifier stays known. *)
Definition stream_stays_known (s s' : Bridge) : Prop :=
  truthy (stream_sid s) = true -> truthy (stream_sid s') = true.

Definition any_change (s s' : Bridge) : Prop := True.

Definition known_streamSid (f : twilio_out) : Prop :=
  truthy (frame_streamSid f) = true.

(** Every frame written to the caller socket carries a known identifier. *)
Definition frame_ok (e : effect) : Prop :=
  match e with
  | twilio_write f => known_streamSid f
  | _ => True
  end.

(** Nothing is written to the caller socket. *)
Definition no_twilio_write (e : effect) : Prop :=
  match e with
  | twilio_write _ => False
  | _ => True
  end.

(** No stream has started yet: no identifier, no utterance. *)
Definition no_stream (s : Bridge) : Prop :=
  stream_sid s = None /\ truthy (last_assistant_item s) = false.


(** A start frame that carries a stream identifier carries a non-empty
    string, neither [null] nor [""]. *)
Definition start_names_stream (data : TwilioMessage) : Prop :=
  forall s sid,
    start data = Some (object s) -> streamSid s = Some sid ->
    truthy sid = true.

(** A start frame whose stream identifier is [null]. *)
Definition null_start : TwilioMessage :=
  {| event := Some "start";
     media := None;
     start := Some (object {| streamSid := Some None |}) |}.

(** The stream identifiers the start frames of a call carry. *)
Fixpoint announced (frames : list TwilioMessage) : list (option string) :=
  match frames with
  | [] => []
  | data :: rest =>
      match start data with
      | Some (object {| streamSid := Some sid |}) => sid :: announced rest
      | _ => announced rest
      end
  end.

(** A start frame whose identifier is one of [ids]. *)
Definition announces (ids : list (option string)) (data : TwilioMessage)
  : Prop :=
  forall s sid,
    start data = Some (object s) -> streamSid s = Some sid -> In sid ids.

(** The stream of the bridge and of every frame written to the caller is
    one of [ids], once there is one. *)
Definition stream_among (ids : list (option string)) (s : Bridge) : Prop :=
  (stream_sid s = None \/ In (stream_sid s) ids)
  /\ (truthy (last_assistant_item s) = true -> In (stream_sid s) ids).

Definition stays_among (ids : list (option string)) (s s' : Bridge) : Prop :=
  In (stream_sid s) ids -> In (stream_sid s') ids.

Definition frame_among (ids : list (option string)) (e : effect) : Prop :=
  match e with
  | twilio_write f => In (frame_streamSid f) ids
  | _ => True
  end.

(** A task that failed with something else than a cancellation: the one
    kind of task [shutdown] does not get past. *)
Definition failed_task (t : Task) : bool :=
  match t with
  | done (failed e) => negb (is_CancelledError e)
  | _ => false
  end.

Definition settle (t : Task) : Task := done (task_end_of t).

(** The bridge while an utterance is being played: one mark pending. *)
Definition speaking (item : string) (start_ts : Z) (self : Bridge) : Bridge :=
  set_mark_queue ["responsePart"]
    (set_response_start_timestamp_twilio (Some start_ts)
       (set_last_assistant_item (Some item) self)).

(** The bridge once [shutdown] has run to its end. *)
Definition shut_down (self : Bridge) : Bridge :=
  let s1 := set_tasks [] self in
  let s2 := if openai_ws self
            then set_openai_ws false (set_openai_state CLOSED s1) else s1 in
  if websocket_closed self then s2 else set_websocket_closed true s2.

(** A start frame without its [start] object. *)
Definition malformed_start : TwilioMessage :=
  {| event := Some "start"; media := None; start := None |}.

(** The task of a relay that has run to the given end. *)
Definition task_of (r : result unit) : Task :=
  match r with
  | Return _ => done finished
  | Raised e => if is_CancelledError e then done cancelled else done (failed e)
  end.

(** ** Text of headers: [str.split] and [str.strip]

    Starlette decodes header values as Latin-1, so a header is a string of
    characters below 256, which is what [string] holds.  [is_space] is
    Python's [str.isspace] on those characters; [strip] is [str.strip()]
    and [before_comma] is [s.split(",", 1)[0]]. *)

Definition is_space (c : ascii) : bool :=
  let n := Z.of_N (N_of_ascii c) in
  ((9 <=? n) && (n <=? 13)) || ((28 <=? n) && (n <=? 32))
  || (n =? 133) || (n =? 160).

Fixpoint lstrip (s : string) : string :=
  match s with
  | EmptyString => EmptyString
  | String c rest => if is_space c then lstrip rest else s
  end.

Fixpoint rstrip (s : string) : string :=
  match s with
  | EmptyString => EmptyString
  | String c rest =>
      match rstrip rest with
      | EmptyString => if is_space c then EmptyString else String c EmptyString
      | kept => String c kept
      end
  end.

Definition strip (s : string) : string := rstrip (lstrip s).

Fixpoint before_comma (s : string) : string :=
  match s with
  | EmptyString => EmptyString
  | String c rest =>
      if Ascii.eqb c ","%char then EmptyString
      else String c (before_comma rest)
  end.

Fixpoint contains (c : ascii) (s : string) : bool :=
  match s with
  | EmptyString => false
  | String x rest => Ascii.eqb x c || contains c rest
  end.

Definition first_char (s : string) : option ascii :=
  match s with
  | EmptyString => None
  | String c _ => Some c
  end.

Fixpoint last_char (s : string) : option ascii :=
  match s with
  | EmptyString => None
  | String c rest =>
      match last_char rest with
      | None => Some c
      | found => found
      end
  end.

(** A string of white space only. *)
Fixpoint blank (s : string) : bool :=
  match s with
  | EmptyString => true
  | String c rest => is_space c && blank rest
  end.

(** A string that neither starts nor ends with white space. *)
Definition trimmed (s : string) : Prop :=
  (forall c, first_char s = Some c -> is_space c = false)
  /\ (forall c, last_char s = Some c -> is_space c = false).

(** ** The whole call: [start], [run] and [media_stream]

    The parts of the bridge and of [app/api.py] around the two relays.
    What the outside world decides is given beforehand: the header the
    caller sent, whether the connection to the speech service can be
    made, the frames each socket will deliver, and the order in which the
    event loop resumes the two relay tasks. *)

(** The fields of the [Settings] dataclass that [start] and
    [_initialize_session] read; [openai_temperature] is held as the text
    the f-string of the connection URL prints for it. *)
Record SpeechSettings : Type := {
  openai_api_key : string;
  openai_model : string;
  openai_voice : string;
  openai_system_prompt : string;
  openai_temperature : string
}.

(** The three messages of the session set-up, with the fields of their
    JSON objects. *)
Inductive session_out : Type :=
| session_update
    (session_type model : string) (output_modalities : list string)
    (input_format turn_detection output_format voice instructions : string)
| conversation_item_create (item_type role content_type text : string)
| response_create.

(** What a call does to the outside: the two operations of [start] on the
    sockets, the messages of the session set-up, and the effects of the
    bridge's coroutines. *)
Inductive call_effect : Type :=
| websocket_accept (subprotocol : option string)
| websockets_connect (uri authorization : string)
| session_write (m : session_out)
| bridge_effect (e : effect).

(** What the outside world holds for a call: the
    [sec-websocket-protocol] header of the caller's request, how
    [websockets.connect] ends, how the send of each message of the session
    set-up ends, the frames of the caller and the events of the speech
    service with the way each stream ends, the order in which the event
    loop resumes the relay tasks while [run] waits for them, and the end a
    relay task still running would come to if it were left alone. *)
Record Environment : Type := {
  subprotocol_header : option string;
  connecting : result unit;
  sending : session_out -> result unit;
  twilio_frames : list TwilioMessage;
  twilio_end : result unit;
  openai_events : list OpenAIEvent;
  openai_end : result unit;
  loop : list turn;
  fate : task_end
}.

(** How the wait of [asyncio.gather] on the two relay tasks ends: both
    tasks are done, one of them has raised, or the wait itself is
    cancelled from outside. *)
Inductive gathered : Type :=
| all_done
| first_raised (e : exn)
| wait_cancelled.

Module Lifecycle.

Definition Call (A : Type) : Type :=
  Bridge -> result A * Bridge * list call_effect.

Definition call_ret {A : Type} (a : A) : Call A :=
  fun self => (Return a, self, []).

Definition call_raise {A : Type} (e : exn) : Call A :=
  fun self => (Raised e, self, []).

Definition call_bind {A B : Type} (p : Call A) (f : A -> Call B) : Call B :=
  fun self =>
    match p self with
    | (Return a, self1, out1) =>
        let '(r, self2, out2) := f a self1 in (r, self2, out1 ++ out2)
    | (Raised e, self1, out1) => (Raised e, self1, out1)
    end.

Declare Scope call_scope.
Delimit Scope call_scope with call.

Notation "x <- p ;; q" := (call_bind p (fun x => q))
  (at level 61, p at next level, right associativity) : call_scope.
Notation "p ;; q" := (call_bind p (fun _ => q))
  (at level 61, right associativity) : call_scope.

#[local] Open Scope call_scope.

Definition call_get : Call Bridge := fun self => (Return self, self, []).

Definition call_modify (f : Bridge -> Bridge) : Call unit :=
  fun self => (Return tt, f self, []).

Definition emit (e : call_effect) : Call unit :=
  fun self => (Return tt, self, [e]).

Definition call_logger (level : log_level) (msg : string) : Call unit :=
  emit (bridge_effect (logged level msg)).

(** A coroutine of the bridge, awaited to its end. *)
Definition lift {A : Type} (p : Prog A) : Call A :=
  fun self =>
    let '(r, self', out) := exec p self in (r, self', map bridge_effect out).

(** [try: p except ...: h], and [try: p finally: f]. *)
Definition call_try {A : Type} (p : Call A) (h : exn -> option (Call A))
  : Call A :=
  fun self =>
    match p self with
    | (Return a, self1, out1) => (Return a, self1, out1)
    | (Raised e, self1, out1) =>
        match h e with
        | Some q =>
            let '(r, self2, out2) := q self1 in (r, self2, out1 ++ out2)
        | None => (Raised e, self1, out1)
        end
    end.

Definition call_finally {A : Type} (p : Call A) (f : Call unit) : Call A :=
  fun self =>
    let '(r, self1, out1) := p self in
    match f self1 with
    | (Return _, self2, out2) => (r, self2, out1 ++ out2)
    | (Raised e, self2, out2) => (Raised e, self2, out1 ++ out2)
    end.

(** The subprotocol [start] passes to [websocket.accept]. *)
Definition subprotocol_of (header : option string) : option string :=
  match header with
  | Some h => if truthy header then Some (strip (before_comma h)) else None
  | None => None
  end.

(** [await self.openai_ws.send(json.dumps(m))] in the session set-up: the
    message is written, or the send raises. *)
Definition openai_ws_send_setup (env : Environment) (m : session_out)
  : Call unit :=
  fun self =>
    match sending env m with
    | Return _ => (Return tt, self, [session_write m])
    | Raised e => (Raised e, self, [])
    end.

(** [_send_initial_conversation_item] *)
Definition _send_initial_conversation_item (env : Environment) : Call unit :=
  self <- call_get ;;
  if negb (openai_ws self) then call_ret tt
  else
    openai_ws_send_setup env
      (conversation_item_create "message" "user" "input_text"
         ("Deliver the short introduction described in your system "
          ++ "instructions, then wait for the caller's response.")) ;;
    openai_ws_send_setup env response_create.

(** [_initialize_session] *)
Definition _initialize_session (speech : SpeechSettings) (env : Environment)
  : Call unit :=
  self <- call_get ;;
  (if openai_ws self then call_ret tt else call_raise AssertionError) ;;
  call_logger DEBUG "Sending session update: %s" ;;
  openai_ws_send_setup env
    (session_update "realtime" (openai_model speech) ["audio"]
       "audio/pcmu" "server_vad" "audio/pcmu"
       (openai_voice speech) (openai_system_prompt speech)) ;;
  _send_initial_conversation_item env.

(** [start] *)
Definition start (speech : SpeechSettings) (env : Environment) : Call unit :=
  emit (websocket_accept (subprotocol_of (subprotocol_header env))) ;;
  call_try
    (emit (websockets_connect
             ("wss://api.openai.com/v1/realtime?model=" ++ openai_model speech
              ++ "&temperature=" ++ openai_temperature speech)
             ("Bearer " ++ openai_api_key speech)) ;;
     match connecting env with
     | Return _ =>
         call_modify (fun self => set_openai_ws true (set_openai_state OPEN self))
     | Raised e => call_raise e
     end ;;
     call_logger INFO "Connected to OpenAI Realtime API")
    (fun e =>
       if is_Exception e then
         Some (call_logger EXCEPTION "Failed to connect to OpenAI Realtime API" ;;
               call_raise e)
       else None) ;;
  _initialize_session speech env.

(** What [asyncio.gather] has to report about the two tasks, if anything
    yet. *)
Definition gather_result (c : Relays) : option gathered :=
  match receive_task c, send_task c with
  | Completed (Raised e), _ => Some (first_raised e)
  | _, Completed (Raised e) => Some (first_raised e)
  | Completed (Return _), Completed (Return _) => Some all_done
  | _, _ => None
  end.

(** [await asyncio.gather( *self._tasks )]: the event loop resumes the
    tasks in the order [ts].  The first task to raise decides what
    [gather] raises; the other task is not cancelled and takes the turns
    that are left before the waiting coroutine runs again.  A wait that is
    still pending when [ts] is used up is cancelled from outside. *)
Fixpoint gather (yields : io -> bool) (ts : list turn) (c : Relays)
  : gathered * Relays * list effect :=
  match gather_result c with
  | Some (first_raised e) =>
      let '(c', out) := schedule yields ts c in (first_raised e, c', out)
  | Some g => (g, c, [])
  | None =>
      match ts with
      | [] => (wait_cancelled, c, [])
      | t :: rest =>
          let '(c1, out1) := step yields t c in
          let '(g, c2, out2) := gather yields rest c1 in
          (g, c2, out1 ++ out2)
      end
  end.

(** The relay tasks as [shutdown] finds them in [self._tasks].  A task
    that is still suspended goes on running when [gather] raised for the
    other one, and has been cancelled with [gather] when the wait was
    cancelled. *)
Definition task_status (g : gathered) (running_fate : task_end)
    (t : paused unit) : Task :=
  match t with
  | Completed r => task_of r
  | Suspended _ =>
      match g with
      | wait_cancelled => cancelling
      | _ => running running_fate
      end
  end.

Definition gathered_outcome (g : gathered) : result unit :=
  match g with
  | all_done => Return tt
  | first_raised e => Raised e
  | wait_cancelled => Raised CancelledError
  end.

(** [run] *)
Definition run (yields : io -> bool) (env : Environment) : Call unit :=
  fun self =>
    if negb (openai_ws self) then (Raised RuntimeError, self, [])
    else
      let '(g, c, out) :=
        gather yields (loop env)
               (relays self (twilio_frames env) (twilio_end env)
                       (openai_events env) (openai_end env)) in
      (gathered_outcome g,
       set_tasks [task_status g (fate env) (receive_task c);
                  task_status g (fate env) (send_task c)] (bridge c),
       map bridge_effect out).

(** [media_stream] of [app/api.py], on a bridge fresh from [__init__]. *)
Definition media_stream (yields : io -> bool) (speech : SpeechSettings)
    (cfg : Settings) (env : Environment)
  : result unit * Bridge * list call_effect :=
  call_finally
    (call_try
       (start speech env ;; run yields env)
       (fun e =>
          if is_WebSocketDisconnect e then
            Some (call_logger INFO "Twilio WebSocket disconnected")
          else if is_CancelledError e then
            Some (call_logger INFO "Media stream cancelled during shutdown")
          else None))
    (lift shutdown)
    (__init__ cfg).

End Lifecycle.

(** The messages of the session set-up among the effects of a call. *)
Fixpoint session_writes (out : list call_effect) : list session_out :=
  match out with
  | [] => []
  | session_write m :: rest => m :: session_writes rest
  | _ :: rest => session_writes rest
  end.

(** A character [a2b_base64] passes over: outside the alphabet and not the
    pad. *)
Definition skipped (c : ascii) : bool :=
  negb (Ascii.eqb c Base64.BASE64_PAD) && (64 <=? Base64.table_a2b_base64 c).

(** A frame its handler can read: a media frame has a media object with a
    timestamp [int()] accepts and a payload, a start frame a start object
    with a stream identifier (a string or [null]). *)
Definition well_formed (data : TwilioMessage) : Prop :=
  (event data = Some "media" ->
   exists t audio,
     media data
     = Some (object {| timestamp := Some (numeric t);
                       payload := Some audio |}))
  /\ (event data = Some "start" ->
      exists sid, start data = Some (object {| streamSid := Some sid |})).

(** A frame the inbound relay has no branch for, on a bridge in the given
    state: neither a start nor a mark frame, and a media frame only when
    the connection to the speech service is not open. *)
Definition passed_over (self : Bridge) (data : TwilioMessage) : Prop :=
  event data <> Some "start"
  /\ event data <> Some "mark"
  /\ (event data = Some "media" -> openai_state self <> OPEN).

(** What a relay makes of the end of its stream of frames. *)
Definition stream_end (ending : result unit) : result unit :=
  match ending with
  | Return _ => Return tt
  | Raised e => Raised e
  end.

Definition is_append (m : openai_out) : Prop :=
  match m with
  | input_audio_buffer_append _ => True
  | _ => False
  end.

(** What the inbound relay may do: write audio to the speech service and
    log; and what it may change of the bridge: nothing of the caller
    socket, the connection object, the tasks or the settings, and the
    queue of pending marks only by taking marks off its front. *)
Definition inbound_effect (e : effect) : Prop :=
  match e with
  | twilio_write _ => False
  | openai_write m => is_append m
  | logged _ _ => True
  end.

Definition inbound_change (self self' : Bridge) : Prop :=
  settings self' = settings self
  /\ websocket_closed self' = websocket_closed self
  /\ openai_ws self' = openai_ws self
  /\ _tasks self' = _tasks self
  /\ (exists n, mark_queue self' = skipn n (mark_queue self))
  /\ (last_assistant_item self' = last_assistant_item self
      \/ last_assistant_item self' = None).

Definition is_truncate (m : openai_out) : Prop :=
  match m with
  | conversation_item_truncate _ _ _ => True
  | _ => False
  end.

(** What the outbound relay may write to the speech service (truncations
    only), and what it leaves alone of the bridge: the stream identifier,
    the clock of the caller's media, both sockets, the tasks and the
    settings. *)
Definition outbound_effect (e : effect) : Prop :=
  match e with
  | openai_write m => is_truncate m
  | _ => True
  end.

Definition outbound_change (self self' : Bridge) : Prop :=
  settings self' = settings self
  /\ websocket_closed self' = websocket_closed self
  /\ openai_ws self' = openai_ws self
  /\ openai_state self' = openai_state self
  /\ _tasks self' = _tasks self
  /\ stream_sid self' = stream_sid self
  /\ latest_media_timestamp self' = latest_media_timestamp self.

(** The event makes the outbound relay act: an audio delta, or a
    speech-started event while an utterance is current. *)
Definition acted_on (self : Bridge) (response : OpenAIEvent) : Prop :=
  is_audio_delta response
  \/ (is_speech_started response /\ truthy (last_assistant_item self) = true).

(** What holds of every run of a piece of the outbound relay from [self]:
    it returns, it writes only truncations to the speech service, and it
    leaves the inbound relay's part of the bridge alone. *)
Definition outbound_ok (self : Bridge)
    (r : result unit * Bridge * list effect) : Prop :=
  outcome r = Return tt
  /\ Forall outbound_effect (effects r)
  /\ outbound_change self (final r).

Definition call_outcome {A : Type} (x : result A * Bridge * list call_effect)
  : result A := fst (fst x).
Definition call_final {A : Type} (x : result A * Bridge * list call_effect)
  : Bridge := snd (fst x).
Definition call_effects {A : Type} (x : result A * Bridge * list call_effect)
  : list call_effect := snd x.

(** Both sockets are in use: the caller socket has not been closed and the
    connection to the speech service is there. *)
Definition sockets_in_use (s : Bridge) : Prop :=
  websocket_closed s = false /\ openai_ws s = true.

(** The ways the caller's stream of frames ends when the caller hangs up,
    and the ways the stream of events ends when the speech service closes
    the connection. *)
Definition hangs_up (ending : result unit) : Prop :=
  ending = Return tt \/ ending = Raised WebSocketDisconnect.

Definition closes (ending : result unit) : Prop :=
  ending = Return tt \/ ending = Raised ConnectionClosed.

(** ** Tasks that return

    The obligation of a task that must not fail: at every suspension
    point the invariant holds, and the task ends by returning. *)

Section Returns.

Variable yields : io -> bool.
Variable Inv : Bridge -> Prop.

Definition returns (r : result unit) (s0 s : Bridge) : Prop :=
  Inv s /\ r = Return tt.

Definition task_returns (t : paused unit) : Prop :=
  match t with
  | Completed r => r = Return tt
  | Suspended k =>
      forall s, Inv s ->
        wp yields Inv any_change (fun _ => True) k returns s s
  end.

Definition relays_return (c : Relays) : Prop :=
  Inv (bridge c)
  /\ task_returns (receive_task c)
  /\ task_returns (send_task c).

End Returns.

(** The three messages of the session set-up. *)
Definition setup_messages (speech : SpeechSettings) : list session_out :=
  [ session_update "realtime" (openai_model speech) ["audio"]
      "audio/pcmu" "server_vad" "audio/pcmu"
      (openai_voice speech) (openai_system_prompt speech);
    conversation_item_create "message" "user" "input_text"
      ("Deliver the short introduction described in your system "
       ++ "instructions, then wait for the caller's response.");
    response_create ].

(** The exception of the first of the sends of [ms] that raises, if one
    does, and the messages written before it. *)
Fixpoint send_failure (env : Environment) (ms : list session_out)
  : option exn :=
  match ms with
  | [] => None
  | m :: rest =>
      match sending env m with
      | Return _ => send_failure env rest
      | Raised e => Some e
      end
  end.

Fixpoint sent (env : Environment) (ms : list session_out)
  : list session_out :=
  match ms with
  | [] => []
  | m :: rest =>
      match sending env m with
      | Return _ => m :: sent env rest
      | Raised _ => []
      end
  end.

(** What [start] writes when the connection to the speech service is
    made: the accepted socket, the connection, and the messages of the
    session set-up, as far as their sends succeed. *)
Definition session_setup (speech : SpeechSettings) (env : Environment)
  : list call_effect :=
  [ websocket_accept (Lifecycle.subprotocol_of (subprotocol_header env));
    websockets_connect
      ("wss://api.openai.com/v1/realtime?model=" ++ openai_model speech
       ++ "&temperature=" ++ openai_temperature speech)
      ("Bearer " ++ openai_api_key speech);
    bridge_effect (logged INFO "Connected to OpenAI Realtime API");
    bridge_effect (logged DEBUG "Sending session update: %s") ]
  ++ map session_write (sent env (setup_messages speech)).

(** The relay tasks of a call, as [gather] leaves them. *)
Definition gathered_relays (yields : io -> bool) (cfg : Settings)
    (env : Environment) : gathered * Relays * list effect :=
  Lifecycle.gather yields (loop env)
    (relays (connected cfg) (twilio_frames env) (twilio_end env)
            (openai_events env) (openai_end env)).

(** The bridge when [run] has ended, [_tasks] holding the two tasks. *)
Definition after_run (yields : io -> bool) (cfg : Settings)
    (env : Environment) : Bridge :=
  let '(g, c, _) := gathered_relays yields cfg env in
  set_tasks [Lifecycle.task_status g (fate env) (receive_task c);
             Lifecycle.task_status g (fate env) (send_task c)] (bridge c).

(** What the [except] clauses of [media_stream] make of the end of its
    [try] block, and of the end of [run]. *)
Definition caught (r : result unit) : result unit * list call_effect :=
  match r with
  | Return _ => (Return tt, [])
  | Raised e =>
      if is_WebSocketDisconnect e then
        (Return tt, [bridge_effect (logged INFO "Twilio WebSocket disconnected")])
      else if is_CancelledError e then
        (Return tt,
         [bridge_effect (logged INFO "Media stream cancelled during shutdown")])
      else (Raised e, [])
  end.

Definition handled (g : gathered) : result unit * list call_effect :=
  caught (Lifecycle.gathered_outcome g).

(** A call for the examples: the caller's stream starts, carries audio, and
    ends when the caller hangs up; the speech service answers with one
    delta and closes the connection.  The event loop gives the relays
    turns enough to come to their ends. *)
Definition example_speech : SpeechSettings :=
  {| openai_api_key := "sk-test"; openai_model := "gpt-realtime";
     openai_voice := "alloy"; openai_system_prompt := "Be brief.";
     openai_temperature := "0.8" |}.

Definition example_settings : Settings :=
  {| log_event_types := []; show_timing_math := false |}.

Definition example_call : Environment :=
  {| subprotocol_header := Some "audio.twilio.com";
     connecting := Return tt;
     sending := fun _ => Return tt;
     twilio_frames := [start_message "MZ1"; media_message 20 "AAAA"];
     twilio_end := Return tt;
     openai_events := [audio_delta "QUJD" (Some "item_A")];
     openai_end := Raised ConnectionClosed;
     loop := [receive_turn; receive_turn; send_turn; send_turn;
              receive_turn; receive_turn; send_turn; send_turn;
              receive_turn; send_turn];
     fate := finished |}.

(** The same call when the speech service drops the connection before the
    second message of the session set-up is sent. *)
Definition example_dropped_call : Environment :=
  {| subprotocol_header := Some "audio.twilio.com";
     connecting := Return tt;
     sending := fun m =>
       match m with
       | session_update _ _ _ _ _ _ _ _ => Return tt
       | _ => Raised ConnectionClosed
       end;
     twilio_frames := [start_message "MZ1"; media_message 20 "AAAA"];
     twilio_end := Return tt;
     openai_events := [audio_delta "QUJD" (Some "item_A")];
     openai_end := Raised ConnectionClosed;
     loop := [receive_turn; send_turn];
     fate := finished |}.

(** The same call with a start frame that lacks its [start] object. *)
Definition example_broken_call : Environment :=
  {| subprotocol_header := Some "audio.twilio.com";
     connecting := Return tt;
     sending := fun _ => Return tt;
     twilio_frames := [malformed_start; media_message 20 "AAAA"];
     twilio_end := Raised WebSocketDisconnect;
     openai_events := [audio_delta "QUJD" (Some "item_A")];
     openai_end := Raised ConnectionClosed;
     loop := [send_turn; receive_turn; receive_turn; send_turn];
     fate := finished |}.

(** An utterance and its start time are current together: either none is,
    or [last_assistant_item] is a non-empty identifier and
    [response_start_timestamp_twilio] is set. *)
Definition utterance_has_start (s : Bridge) : Prop :=
  (last_assistant_item s = None /\ response_start_timestamp_twilio s = None)
  \/ (truthy (last_assistant_item s) = true
      /\ response_start_timestamp_twilio s <> None).

(** ** The order of the frames written to the caller

    Which frames a task writes to the caller socket, and in which order,
    can be read off the task whatever bridge it finds each time it reads
    it: [follows] runs an automaton [next] over the frames the task
    writes, under every bridge the task may be handed. *)

Section Follows.

Variable G : Type.
Variable next : G -> twilio_out -> option G.

Fixpoint after (g : G) (l : list twilio_out) : option G :=
  match l with
  | [] => Some g
  | f :: rest =>
      match next g f with
      | Some g' => after g' rest
      | None => None
      end
  end.

Fixpoint follows {A : Type} (p : Prog A) (Q : result A -> G -> Prop) (g : G)
  : Prop :=
  match p with
  | Ret a => Q (Return a) g
  | Raise e => Q (Raised e) g
  | Get k => forall self, follows (k self) Q g
  | Put _ k => follows k Q g
  | Logger _ _ k => follows k Q g
  | Await op k =>
      forall self,
        match after g (twilio_writes (snd (perform op self))) with
        | Some g' => follows (k (fst (fst (perform op self)))) Q g'
        | None => False
        end
  end.

Definition task_follows (t : paused unit) (g : G) : Prop :=
  match t with
  | Completed _ => True
  | Suspended k => follows k (fun _ _ => True) g
  end.

End Follows.

Arguments after {G} next g l.
Arguments follows {G} next {A} p Q g.
Arguments task_follows {G} next t g.

(** The inbound relay is to write no frame to the caller at all. *)
Definition no_frame (g : unit) (f : twilio_out) : option unit := None.

(** A mark frame goes out only right after a media frame: the state is
    whether the last frame written to the caller was a media frame. *)
Definition mark_after_media (last_media : bool) (f : twilio_out)
  : option bool :=
  match f with
  | media_frame _ _ => Some true
  | mark_frame _ _ => if last_media then Some false else None
  | clear_frame _ => Some false
  end.

(** Every mark frame of [l] comes right after a media frame. *)
Fixpoint marks_follow_media (last_media : bool) (l : list twilio_out)
  : Prop :=
  match l with
  | [] => True
  | media_frame _ _ :: rest => marks_follow_media true rest
  | mark_frame _ _ :: rest =>
      last_media = true /\ marks_follow_media false rest
  | clear_frame _ :: rest => marks_follow_media false rest
  end.

Definition relays_follow (c : Relays) (last_media : bool) : Prop :=
  task_follows no_frame (receive_task c) tt
  /\ task_follows mark_after_media (send_task c) last_media.

(** ** The settings read from the environment

    The part of [get_settings] of [app/config.py] that reads
    [OPENAI_LOG_EVENT_TYPES], for a value made of characters below 256. *)

Module Config.

(** [s.split(",")] *)
Fixpoint split (s : string) : list string :=
  match s with
  | EmptyString => [EmptyString]
  | String c rest =>
      if Ascii.eqb c ","%char then EmptyString :: split rest
      else
        match split rest with
        | item :: items => String c item :: items
        | [] => [String c EmptyString]
        end
  end.

(** The default of the [Settings] dataclass. *)
Definition default_log_event_types : list string :=
  [ "error"; "response.content.done"; "rate_limits.updated"; "response.done";
    "input_audio_buffer.committed"; "input_audio_buffer.speech_stopped";
    "input_audio_buffer.speech_started"; "session.created";
    "session.updated" ].

(** [log_event_types], from [os.getenv("OPENAI_LOG_EVENT_TYPES")]. *)
Definition log_event_types (log_events_env : option string) : list string :=
  match log_events_env with
  | Some s =>
      if truthy log_events_env then
        map strip
            (filter (fun item => truthy (Some (strip item))) (split s))
      else default_log_event_types
  | None => default_log_event_types
  end.

End Config.

(** [",".join(items)] *)
Fixpoint join_commas (items : list string) : string :=
  match items with
  | [] => EmptyString
  | [item] => item
  | item :: rest => item ++ String ","%char (join_commas rest)
  end.

(** An entry as one would write it in the list: not empty, no comma, no
    white space at either end. *)
Definition event_name (item : string) : Prop :=
  item <> EmptyString /\ contains ","%char item = false /\ trimmed item.

(** ** The settings and what is relayed *)

(** The bridge with other settings. *)
Definition with_settings (cfg : Settings) (self : Bridge) : Bridge :=
  {| settings := cfg; websocket_closed := websocket_closed self;
     openai_state := openai_state self; openai_ws := openai_ws self;
     stream_sid := stream_sid self;
     latest_media_timestamp := latest_media_timestamp self;
     last_assistant_item := last_assistant_item self;
     mark_queue := mark_queue self;
     response_start_timestamp_twilio := response_start_timestamp_twilio self;
     _tasks := _tasks self |}.

(** The effects that reach a socket. *)
Definition is_write (e : effect) : bool :=
  match e with
  | logged _ _ => false
  | _ => true
  end.

(** Two runs, the second under the settings [cfg], that differ in nothing
    but their log records. *)
Definition same_relayed {A : Type} (cfg : Settings)
    (r r' : result A * Bridge * list effect) : Prop :=
  outcome r' = outcome r
  /\ final r' = with_settings cfg (final r)
  /\ filter is_write (effects r') = filter is_write (effects r).

(** * Properties *)

(** ** Base64 round trip *)

Module Base64Facts.
Import Base64.

Lemma in_all_bytes (b : byte) : In b all_bytes.
Proof.
  assert (H : existsb (Byte.eqb b) all_bytes = true)
    by (destruct b; vm_compute; reflexivity).
  apply existsb_exists in H. destruct H as [x [Hin Heq]].
  apply Byte.byte_dec_bl in Heq. now subst.
Qed.

Lemma forall_byte (P : byte -> bool) :
  forallb P all_bytes = true -> forall b, P b = true.
Proof.
  intros H b. rewrite forallb_forall in H. apply H, in_all_bytes.
Qed.

Lemma forall_byte2 (P : byte -> byte -> bool) :
  forallb (fun a => forallb (P a) all_bytes) all_bytes = true ->
  forall a b, P a b = true.
Proof.
  intros H a b. apply forall_byte with (P := P a).
  apply forall_byte with (P := fun a => forallb (P a) all_bytes). exact H.
Qed.

Lemma check_first_all a b : check_first a b = true.
Proof. revert a b. apply forall_byte2. vm_cast_no_check (eq_refl true). Qed.

Lemma check_second_all b c : check_second b c = true.
Proof. revert b c. apply forall_byte2. vm_cast_no_check (eq_refl true). Qed.

Lemma check_tail_all a : check_tail a = true.
Proof. revert a. apply forall_byte. vm_cast_no_check (eq_refl true). Qed.

Ltac split_checks :=
  repeat match goal with
         | H : (_ && _) = true |- _ => apply andb_prop in H; destruct H
         | H : Byte.eqb _ _ = true |- _ => apply Byte.byte_dec_bl in H
         | H : (_ =? _) = true |- _ => apply Z.eqb_eq in H
         end.

(** One turn of the decoder's loop on the character of a sextet. *)
Lemma a2b_loop_sextet n rest quad_pos leftchar pads :
  sextet n = true ->
  a2b_loop (table_b2a_base64 n :: rest) quad_pos leftchar pads =
  match quad_pos with
  | 0 => a2b_loop rest 1 n 0
  | 1 =>
      option_map
        (cons (byte_of_Z (Z.lor (Z.shiftl leftchar 2) (Z.shiftr n 4))))
        (a2b_loop rest 2 (Z.land n 15) 0)
  | 2 =>
      option_map
        (cons (byte_of_Z (Z.lor (Z.shiftl leftchar 4) (Z.shiftr n 2))))
        (a2b_loop rest 3 (Z.land n 3) 0)
  | _ =>
      option_map
        (cons (byte_of_Z (Z.lor (Z.shiftl leftchar 6) n)))
        (a2b_loop rest 0 0 0)
  end.
Proof.
  unfold sextet. intros H.
  apply andb_prop in H; destruct H as [H Hascii].
  apply andb_prop in H; destruct H as [H Hlt].
  apply andb_prop in H; destruct H as [Hpad Htab].
  apply negb_true_iff in Hpad. apply Z.eqb_eq in Htab. apply Z.ltb_lt in Hlt.
  cbn [a2b_loop]. rewrite Hpad. cbv zeta. rewrite Htab.
  destruct (64 <=? n) eqn:E; [apply Z.leb_le in E; lia|]. reflexivity.
Qed.

Lemma a2b_loop_triple a b c rest :
  a2b_loop (b2a_triple (Z_of_byte a) (Z_of_byte b) (Z_of_byte c) ++ rest)
           0 0 0
  = option_map (fun l => a :: b :: c :: l) (a2b_loop rest 0 0 0).
Proof.
  pose proof (check_first_all a b) as H1.
  pose proof (check_second_all b c) as H2.
  unfold check_first in H1. unfold check_second in H2. split_checks.
  unfold b2a_triple. cbn [app].
  fold (hi6 a) (mid_ab a b) (mid_bc b c) (lo6 c).
  rewrite !a2b_loop_sextet by assumption.
  repeat match goal with H : Z.land _ _ = _ |- _ => rewrite H end.
  repeat match goal with H : byte_of_Z _ = _ |- _ => rewrite H end.
  destruct (a2b_loop rest 0 0 0); reflexivity.
Qed.

Lemma a2b_loop_b2a_base64 (n : nat) :
  forall bin, (List.length bin <= n)%nat ->
  a2b_loop (b2a_base64 bin) 0 0 0 = Some bin.
Proof.
  induction n as [|n IH]; intros bin Hlen.
  - destruct bin; [reflexivity | simpl in Hlen; lia].
  - destruct bin as [|a [|b [|c rest]]].
    + reflexivity.
    + pose proof (check_first_all a a) as H1.
      pose proof (check_tail_all a) as H2.
      unfold check_first in H1. unfold check_tail in H2. split_checks.
      cbn [b2a_base64]. fold (hi6 a) (tail1 a).
      rewrite !a2b_loop_sextet by assumption.
      cbn [a2b_loop].
      repeat match goal with H : byte_of_Z _ = _ |- _ => rewrite H end.
      reflexivity.
    + pose proof (check_first_all a b) as H1.
      pose proof (check_tail_all b) as H2.
      unfold check_first in H1. unfold check_tail in H2. split_checks.
      cbn [b2a_base64]. fold (hi6 a) (mid_ab a b) (tail2 b).
      rewrite !a2b_loop_sextet by assumption.
      cbn [a2b_loop].
      repeat match goal with H : Z.land _ _ = _ |- _ => rewrite H end.
      repeat match goal with H : byte_of_Z _ = _ |- _ => rewrite H end.
      reflexivity.
    + cbn [b2a_base64]. rewrite a2b_loop_triple.
      rewrite IH; [reflexivity | simpl in Hlen |- *; lia].
Qed.

(** Decoding an encoding gives the bytes back. *)
Lemma a2b_base64_b2a_base64 bin : a2b_base64 (b2a_base64 bin) = Some bin.
Proof. apply (a2b_loop_b2a_base64 (List.length bin)). lia. Qed.

Lemma sextet_is_ascii n : sextet n = true -> is_ascii (table_b2a_base64 n) = true.
Proof. unfold sextet. intros H. apply andb_prop in H. apply H. Qed.

(** The encoding is made of ASCII characters. *)
Lemma b2a_base64_ascii (n : nat) :
  forall bin, (List.length bin <= n)%nat ->
  forallb is_ascii (b2a_base64 bin) = true.
Proof.
  induction n as [|n IH]; intros bin Hlen.
  - destruct bin; [reflexivity | simpl in Hlen; lia].
  - destruct bin as [|a [|b [|c rest]]].
    + reflexivity.
    + pose proof (check_first_all a a) as H1.
      pose proof (check_tail_all a) as H2.
      unfold check_first in H1. unfold check_tail in H2. split_checks.
      cbn [b2a_base64 forallb]. fold (hi6 a) (tail1 a).
      rewrite !sextet_is_ascii by assumption. reflexivity.
    + pose proof (check_first_all a b) as H1.
      pose proof (check_tail_all b) as H2.
      unfold check_first in H1. unfold check_tail in H2. split_checks.
      cbn [b2a_base64 forallb]. fold (hi6 a) (mid_ab a b) (tail2 b).
      rewrite !sextet_is_ascii by assumption. reflexivity.
    + pose proof (check_first_all a b) as H1.
      pose proof (check_second_all b c) as H2.
      unfold check_first in H1. unfold check_second in H2. split_checks.
      cbn [b2a_base64]. unfold b2a_triple. cbn [app forallb].
      fold (hi6 a) (mid_ab a b) (mid_bc b c) (lo6 c).
      rewrite !sextet_is_ascii by assumption.
      rewrite IH; [reflexivity | simpl in Hlen |- *; lia].
Qed.

(** [b64decode(b64encode(b)) == b] *)
Lemma b64decode_b64encode bin : b64decode (b64encode bin) = Return bin.
Proof.
  unfold b64decode, b64encode.
  rewrite list_ascii_of_string_of_list_ascii.
  rewrite (b2a_base64_ascii (List.length bin)) by lia.
  rewrite a2b_base64_b2a_base64. reflexivity.
Qed.

End Base64Facts.

Example b64encode_ABC :
  Base64.b64encode [Byte.x41; Byte.x42; Byte.x43] = "QUJD".
Proof. reflexivity. Qed.

Example b64decode_QQ : Base64.b64decode "QQ==" = Return [Byte.x41].
Proof. reflexivity. Qed.

Example b64decode_incomplete_quad :
  Base64.b64decode "QUJ" = Raised binascii_Error.
Proof. reflexivity. Qed.

(** The lenient decoder drops characters outside the alphabet and the bits
    left over in the last quad. *)
Example b64decode_skips_blank :
  Base64.b64decode "QU JD" = Return [Byte.x41; Byte.x42; Byte.x43].
Proof. reflexivity. Qed.

Example b64decode_drops_spare_bits :
  Base64.b64decode "QR==" = Return [Byte.x41].
Proof. reflexivity. Qed.

(** ** Running coroutines *)

Lemma exec_bind {A B : Type} (p : Prog A) (f : A -> Prog B) : forall self,
  exec (bind p f) self =
  match exec p self with
  | (Return a, self1, out1) =>
      let '(r, self2, out2) := exec (f a) self1 in (r, self2, out1 ++ out2)
  | (Raised e, self1, out1) => (Raised e, self1, out1)
  end.
Proof.
  induction p as [a|e|k IH|s' k IH|l m k IH|op k IH]; intros self; cbn.
  - destruct (exec (f a) self) as [[r s2] out2]. reflexivity.
  - reflexivity.
  - apply IH.
  - apply IH.
  - rewrite IH. destruct (exec k self) as [[[a|e] s1] out1]; [|reflexivity].
    destruct (exec (f a) s1) as [[r s2] out2]. reflexivity.
  - destruct (perform op self) as [[r s1] out1].
    rewrite IH. destruct (exec (k r) s1) as [[[a|e] s2] out2].
    + destruct (exec (f a) s2) as [[r3 s3] out3].
      rewrite app_assoc. reflexivity.
    + reflexivity.
Qed.

Lemma exec_try_except {A : Type} (p : Prog A) (h : exn -> option (Prog A)) :
  forall self,
  exec (try_except p h) self =
  match exec p self with
  | (Return a, self1, out1) => (Return a, self1, out1)
  | (Raised e, self1, out1) =>
      match h e with
      | Some q =>
          let '(r, self2, out2) := exec q self1 in (r, self2, out1 ++ out2)
      | None => (Raised e, self1, out1)
      end
  end.
Proof.
  induction p as [a|e|k IH|s' k IH|l m k IH|op k IH]; intros self; cbn.
  - reflexivity.
  - destruct (h e) as [q|]; [|reflexivity].
    destruct (exec q self) as [[r s2] out2]. reflexivity.
  - apply IH.
  - apply IH.
  - rewrite IH. destruct (exec k self) as [[[a|e] s1] out1]; [reflexivity|].
    destruct (h e) as [q|]; [|reflexivity].
    destruct (exec q s1) as [[r s2] out2]. reflexivity.
  - destruct (perform op self) as [[r s1] out1].
    rewrite IH. destruct (exec (k r) s1) as [[[a|e] s2] out2]; [reflexivity|].
    destruct (h e) as [q|]; [|reflexivity].
    destruct (exec q s2) as [[r3 s3] out3].
    rewrite app_assoc. reflexivity.
Qed.

Lemma is_str_eq v lit : is_str v lit = true <-> v = Some lit.
Proof.
  unfold is_str, py_eq. destruct v as [x|]; split; intros H; try discriminate.
  - apply String.eqb_eq in H. now subst.
  - inversion H. apply String.eqb_refl.
Qed.

(** Evaluate a run, rewriting with the facts known about the bridge and
    splitting on the tests that remain. *)
Ltac rew_hyps :=
  repeat match goal with
         | H : ?x = _ |- context [?x] => rewrite H
         end.

Ltac run := repeat (progress (cbn; rew_hyps)).

Ltac case_if :=
  match goal with
  | |- context [if ?c then _ else _] => destruct c eqn:?
  end.

Ltac run_cases := run; repeat (case_if; run).

(** ** Barge-in *)

(** C1: when the speech-started event is handled while an utterance is
    current, the queue of pending marks is not empty and the start of the
    utterance is recorded, the truncate message handed to the speech
    service names the current utterance, content index 0, and an
    [audio_end_ms] equal to the latest media timestamp minus the recorded
    start, both as they are when the event is handled.  It is the only
    message written to the speech service, and it is written whenever the
    connection is held. *)
Theorem barge_in_truncate_audio_end_ms
    (self : Bridge) (response : OpenAIEvent) (start_ts : Z) :
  is_speech_started response ->
  truthy (last_assistant_item self) = true ->
  mark_queue self <> [] ->
  response_start_timestamp_twilio self = Some start_ts ->
  let out := effects (exec (send_to_twilio_body response) self) in
  (openai_ws self = true ->
   openai_writes out =
   [conversation_item_truncate (last_assistant_item self) 0
      (latest_media_timestamp self - start_ts)])
  /\ (forall m, In m (openai_writes out) ->
        m = conversation_item_truncate (last_assistant_item self) 0
              (latest_media_timestamp self - start_ts)).
Proof.
  intros Htrig Hitem Hq Hstart. unfold is_speech_started in Htrig.
  destruct (mark_queue self) as [|q0 qs] eqn:Eq; [congruence|].
  unfold send_to_twilio_body, _handle_speech_started_event.
  run_cases;
    (split;
     [ intros; try reflexivity; try discriminate
     | intros m Hin; cbn in Hin; intuition ]).
Qed.

(** The utterance started at 500, the caller's media advanced to 1800:
    the truncate message carries 1300. *)
Lemma barge_in_truncate_audio_end_ms_witness :
  let self := speaking "item_A" 500 (bridge_at "MZ1" 1800) in
  openai_writes (effects (exec (send_to_twilio_body speech_started) self))
  = [conversation_item_truncate (Some "item_A") 0 1300].
Proof.
  intros self.
  apply (proj1 (barge_in_truncate_audio_end_ms self speech_started 500
                  eq_refl eq_refl
                  (fun H : ["responsePart"] = [] => nil_cons (eq_sym H))
                  eq_refl)).
  reflexivity.
Defined.

(** The truncate message leaves before the handler is suspended for the
    first time: nothing the inbound relay does can come between reading
    the two timestamps and writing their difference. *)
Lemma truncate_written_before_suspension
    (self : Bridge) (response : OpenAIEvent) (start_ts : Z) :
  is_speech_started response ->
  truthy (last_assistant_item self) = true ->
  mark_queue self <> [] ->
  response_start_timestamp_twilio self = Some start_ts ->
  openai_ws self = true ->
  openai_writes
    (snd (resume every_await (send_to_twilio_body response) self))
  = [conversation_item_truncate (last_assistant_item self) 0
       (latest_media_timestamp self - start_ts)].
Proof.
  intros Htrig Hitem Hq Hstart Hws. unfold is_speech_started in Htrig.
  destruct (mark_queue self) as [|q0 qs] eqn:Eq; [congruence|].
  unfold send_to_twilio_body, _handle_speech_started_event.
  run_cases; reflexivity.
Qed.

(** C4: the barge-in controller does nothing (no write to either socket,
    bridge unchanged) unless an utterance is current, the queue of pending
    marks is not empty and the start of the utterance is recorded.  When
    all three hold it writes the truncate message and the clear frame and
    leaves the queue empty and both the current utterance and its start
    unset, so that a mark frame handled next finds the queue empty and
    changes nothing, without raising. *)
Theorem barge_in_controller_resets (self : Bridge) (response : OpenAIEvent) :
  is_speech_started response ->
  let r := exec (send_to_twilio_body response) self in
  (truthy (last_assistant_item self) = false
   \/ mark_queue self = []
   \/ response_start_timestamp_twilio self = None ->
   outcome r = Return tt /\ final r = self
   /\ twilio_writes (effects r) = [] /\ openai_writes (effects r) = [])
  /\
  (truthy (last_assistant_item self) = true ->
   mark_queue self <> [] ->
   response_start_timestamp_twilio self <> None ->
   outcome r = Return tt
   /\ twilio_writes (effects r) = [clear_frame (stream_sid self)]
   /\ (openai_ws self = true ->
       exists ms,
         openai_writes (effects r) =
         [conversation_item_truncate (last_assistant_item self) 0 ms])
   /\ mark_queue (final r) = []
   /\ last_assistant_item (final r) = None
   /\ response_start_timestamp_twilio (final r) = None
   /\ forall data,
        event data = Some "mark" ->
        exec (receive_from_twilio_body data) (final r)
        = (Return tt, final r, [])).
Proof.
  intros Htrig. unfold is_speech_started in Htrig. split.
  - intros Hno.
    unfold send_to_twilio_body, _handle_speech_started_event.
    destruct (truthy (last_assistant_item self)) eqn:Hitem.
    + destruct Hno as [Hno | [Hno | Hno]]; [discriminate | |].
      * run_cases; repeat split; reflexivity.
      * destruct (mark_queue self) eqn:Eq; run_cases; repeat split; reflexivity.
    + run_cases; repeat split; reflexivity.
  - intros Hitem Hq Hstart.
    destruct (mark_queue self) as [|q0 qs] eqn:Eq; [congruence|].
    destruct (response_start_timestamp_twilio self) as [ts|] eqn:Ets;
      [|congruence].
    unfold send_to_twilio_body, _handle_speech_started_event.
    run_cases;
      (repeat split; try reflexivity;
       [ intros; try discriminate; eexists; reflexivity
       | intros data Hev; unfold receive_from_twilio_body; run; reflexivity ]).
Qed.

Lemma barge_in_controller_resets_witness :
  let self := speaking "item_A" 500 (bridge_at "MZ1" 1800) in
  let r := exec (send_to_twilio_body speech_started) self in
  twilio_writes (effects r) = [clear_frame (Some "MZ1")]
  /\ mark_queue (final r) = []
  /\ last_assistant_item (final r) = None
  /\ response_start_timestamp_twilio (final r) = None
  /\ exec (receive_from_twilio_body mark_message) (final r)
     = (Return tt, final r, []).
Proof.
  intros self r.
  destruct (proj2 (barge_in_controller_resets self speech_started eq_refl)
              eq_refl
              (fun H : ["responsePart"] = [] => nil_cons (eq_sym H))
              (fun H : Some 500 = None => eq_ind (Some 500)
                 (fun o => match o with Some _ => True | None => False end)
                 I None H))
    as (_ & Hclear & _ & Hq & Hitem & Hstart & Hmark).
  split; [exact Hclear|]. split; [exact Hq|]. split; [exact Hitem|].
  split; [exact Hstart|]. apply Hmark. reflexivity.
Defined.

(** ** The outbound relay: audio deltas *)




(** C8, as stated, fails: a payload the lenient decoder accepts is not
    always sent on unchanged.  The two spare bits of [QR==] are dropped
    and the frame carries [QQ==]. *)
Lemma lenient_payload_is_rewritten :
  let self := bridge_at "MZ1" 0 in
  let response := audio_delta "QR==" None in
  is_audio_delta response
  /\ truthy (stream_sid self) = true
  /\ Base64.b64decode "QR==" = Return [Byte.x41]
  /\ twilio_writes (effects (exec (send_to_twilio_body response) self))
     = [media_frame (Some "MZ1") "QQ=="; mark_frame (Some "MZ1") "responsePart"]
  /\ "QQ==" <> "QR==".
Proof. cbv. repeat split; discriminate. Qed.

(** What [_handle_audio_delta] writes for a payload that decodes. *)
Lemma audio_delta_writes
    (self : Bridge) (response : OpenAIEvent) (audio_payload : string) :
  is_audio_delta response ->
  truthy (stream_sid self) = true ->
  reencode response = Return audio_payload ->
  twilio_writes (effects (exec (send_to_twilio_body response) self))
  = [media_frame (stream_sid self) audio_payload;
     mark_frame (stream_sid self) "responsePart"].
Proof.
  intros [Hty Hd] Hsid Hre.
  destruct (delta response) as [d|] eqn:Ed; [clear Hd | congruence].
  unfold send_to_twilio_body, _handle_audio_delta, _send_mark,
    _handle_speech_started_event.
  run_cases; reflexivity.
Qed.

(** C8 (amended): for every audio delta handled while the stream
    identifier is known, the media frame written to the caller carries the
    Base64 encoding of the bytes the payload decodes to.  When the payload
    is itself the Base64 encoding of some bytes, that is the payload
    unchanged. *)
Theorem canonical_payload_passes_through
    (self : Bridge) (response : OpenAIEvent) (d : string) :
  event_type response = Some "response.output_audio.delta" ->
  delta response = Some d ->
  truthy (stream_sid self) = true ->
  let frames :=
    twilio_writes (effects (exec (send_to_twilio_body response) self)) in
  (forall bin, Base64.b64decode d = Return bin ->
     frames = [media_frame (stream_sid self) (Base64.b64encode bin);
               mark_frame (stream_sid self) "responsePart"])
  /\ (forall bin, d = Base64.b64encode bin ->
        frames = [media_frame (stream_sid self) d;
                  mark_frame (stream_sid self) "responsePart"]).
Proof.
  intros Hty Hd Hsid.
  assert (Hgen : forall bin, Base64.b64decode d = Return bin ->
     twilio_writes (effects (exec (send_to_twilio_body response) self))
     = [media_frame (stream_sid self) (Base64.b64encode bin);
        mark_frame (stream_sid self) "responsePart"]).
  { intros bin Hdec. apply audio_delta_writes; auto.
    - split; [assumption | congruence].
    - unfold reencode. rewrite Hd, Hdec. reflexivity. }
  split; [exact Hgen|].
  intros bin ->. apply Hgen, Base64Facts.b64decode_b64encode.
Qed.

Lemma canonical_payload_passes_through_witness :
  twilio_writes
    (effects (exec (send_to_twilio_body (audio_delta "QUJD" None))
                   (bridge_at "MZ1" 0)))
  = [media_frame (Some "MZ1") "QUJD"; mark_frame (Some "MZ1") "responsePart"].
Proof.
  apply (proj2 (canonical_payload_passes_through
                  (bridge_at "MZ1" 0) (audio_delta "QUJD" None) "QUJD"
                  eq_refl eq_refl eq_refl)
           [Byte.x41; Byte.x42; Byte.x43]).
  reflexivity.
Defined.

Lemma reencode_raises_Exception (response : OpenAIEvent) (e : exn) :
  reencode response = Raised e -> is_Exception e = true.
Proof.
  unfold reencode, Base64.b64decode.
  destruct (delta response) as [d|]; [|intros H; inversion H; reflexivity].
  destruct (forallb _ _); [|intros H; inversion H; reflexivity].
  destruct (Base64.a2b_base64 _); intros H; inversion H; reflexivity.
Qed.


(** C9, as stated, fails where the log record is concerned: a delta with
    an undecodable payload that arrives while the stream identifier is
    unknown is dropped before its payload is looked at, and nothing is
    logged. *)
Lemma undecodable_delta_without_stream_id :
  let self := connected {| log_event_types := []; show_timing_math := false |} in
  let response := audio_delta "A" (Some "item_A") in
  is_audio_delta response
  /\ reencode response = Raised binascii_Error
  /\ exec (send_to_twilio_body response) self = (Return tt, self, [])
  /\ ~ In (logged EXCEPTION "Failed to decode OpenAI audio delta")
          (effects (exec (send_to_twilio_body response) self)).
Proof.
  cbv. repeat split; try discriminate. intros H. exact H.
Qed.

(** C9 (amended): when the payload of an audio delta fails to decode, the
    outbound relay drops the frame: handling the event returns without
    raising, writes nothing to either socket (no media frame, no mark),
    leaves the bridge as it was (queue of pending marks, current utterance
    and its start included), and the relay goes on with the events that
    follow.  The failure is logged when the stream identifier is known,
    which is when the payload is decoded at all. *)
Theorem decode_failure_drops_frame
    (self : Bridge) (response : OpenAIEvent) (e : exn)
    (rest : list OpenAIEvent) (ending : result unit) :
  is_audio_delta response ->
  reencode response = Raised e ->
  let r := exec (send_to_twilio_body response) self in
  outcome r = Return tt
  /\ final r = self
  /\ twilio_writes (effects r) = []
  /\ openai_writes (effects r) = []
  /\ (truthy (stream_sid self) = true ->
      In (logged EXCEPTION "Failed to decode OpenAI audio delta") (effects r))
  /\ (openai_ws self = true ->
      exec (_send_to_twilio (response :: rest) ending) self
      = let '(r', self', out) := exec (_send_to_twilio rest ending) self in
        (r', self', effects r ++ out)).
Proof.
  intros [Hty Hd] Hre.
  pose proof (reencode_raises_Exception _ _ Hre) as Hexc.
  destruct (delta response) as [d|] eqn:Ed; [clear Hd | congruence].
  assert (Hbody : exists logs,
             exec (send_to_twilio_body response) self = (Return tt, self, logs)
             /\ twilio_writes logs = [] /\ openai_writes logs = []
             /\ (truthy (stream_sid self) = true ->
                 In (logged EXCEPTION "Failed to decode OpenAI audio delta")
                    logs)).
  { unfold send_to_twilio_body, _handle_audio_delta.
    run_cases; eexists; (split; [reflexivity|]); cbn;
      (split; [reflexivity|]); (split; [reflexivity|]);
      intros Hsid; auto; rewrite Hsid in *; discriminate. }
  destruct Hbody as (logs & Hex & Htw & Hop & Hin).
  cbv zeta. rewrite Hex. cbn [outcome final effects fst snd].
  repeat (split; [first [reflexivity | assumption]|]).
  intros Hws. unfold _send_to_twilio.
  cbn [bind get exec]. rewrite Hws. cbn [assert skip bind].
  rewrite !exec_try_except. cbn [async_for].
  rewrite !exec_bind. cbn [await exec perform]. rewrite exec_bind, Hex.
  cbn.
  destruct (exec (async_for rest ending send_to_twilio_body) self)
    as [[[[]|e'] s1] out1]; cbn.
  - reflexivity.
  - destruct (is_ConnectionClosed e'); cbn.
    + rewrite ?app_assoc. reflexivity.
    + destruct (is_Exception e'); cbn.
      * rewrite ?app_assoc. reflexivity.
      * reflexivity.
Qed.

(** The payload [QUJ] stops in the middle of a quad. *)
Lemma decode_failure_drops_frame_witness :
  let self := speaking "item_A" 500 (bridge_at "MZ1" 1800) in
  let r := exec (send_to_twilio_body (audio_delta "QUJ" (Some "item_B"))) self in
  outcome r = Return tt
  /\ final r = self
  /\ twilio_writes (effects r) = []
  /\ In (logged EXCEPTION "Failed to decode OpenAI audio delta") (effects r).
Proof.
  intros self r.
  destruct (decode_failure_drops_frame self
              (audio_delta "QUJ" (Some "item_B")) binascii_Error
              [] (Return tt)
              (conj eq_refl
                 (fun H : Some "QUJ" = None => eq_ind (Some "QUJ")
                    (fun o => match o with Some _ => True | None => False end)
                    I None H))
              eq_refl)
    as (H1 & H2 & H3 & _ & H5 & _).
  split; [exact H1|]. split; [exact H2|]. split; [exact H3|].
  apply H5. reflexivity.
Defined.

(** ** The inbound relay *)

(** C6: whatever the bridge held before, handling a start frame stores
    the frame's stream identifier (a string, or [None] when the frame
    holds [null]) and resets the latest media timestamp to 0 and the
    current utterance and its start to none. *)
Theorem start_event_resets
    (self : Bridge) (data : TwilioMessage) (sid : option string) :
  event data = Some "start" ->
  start data = Some (object {| streamSid := Some sid |}) ->
  let r := exec (receive_from_twilio_body data) self in
  outcome r = Return tt
  /\ stream_sid (final r) = sid
  /\ latest_media_timestamp (final r) = 0
  /\ last_assistant_item (final r) = None
  /\ response_start_timestamp_twilio (final r) = None.
Proof.
  intros Hev Hst. unfold receive_from_twilio_body. run. repeat split.
Qed.

Lemma start_event_resets_witness :
  let r :=
    exec (receive_from_twilio_body (start_message "MZ2"))
         (speaking "item_A" 500 (bridge_at "MZ1" 1800)) in
  stream_sid (final r) = Some "MZ2"
  /\ latest_media_timestamp (final r) = 0
  /\ last_assistant_item (final r) = None
  /\ response_start_timestamp_twilio (final r) = None.
Proof.
  intros r.
  apply (proj2 (start_event_resets
                  (speaking "item_A" 500 (bridge_at "MZ1" 1800))
                  (start_message "MZ2") (Some "MZ2") eq_refl eq_refl)).
Defined.


(** A media frame handled while the speech-service connection is open. *)
Lemma exec_media (self : Bridge) (t : Z) (audio : string) :
  openai_ws self = true -> openai_state self = OPEN ->
  exec (receive_from_twilio_body (media_message t audio)) self
  = (Return tt, set_latest_media_timestamp t self,
     [openai_write (input_audio_buffer_append audio)]).
Proof.
  intros Hws Hst. unfold receive_from_twilio_body, openai_is_open.
  run. reflexivity.
Qed.

(** A media frame that arrives while the connection is not open is dropped
    and the latest media timestamp stays. *)
Lemma media_dropped_unless_open (self : Bridge) (t : Z) (audio : string) :
  openai_ws self = true -> openai_state self <> OPEN ->
  exec (receive_from_twilio_body (media_message t audio)) self
  = (Return tt, self, []).
Proof.
  intros Hws Hst. unfold receive_from_twilio_body, openai_is_open. run.
  destruct (openai_state self); try congruence; reflexivity.
Qed.

Lemma latest_values_media (l : list (Z * string)) : forall self,
  openai_ws self = true -> openai_state self = OPEN ->
  latest_values (media_frames l) self = map fst l.
Proof.
  induction l as [|[t a] l IH]; intros self Hws Hst; [reflexivity|].
  cbn [media_frames map latest_values fst snd].
  rewrite exec_media by assumption. cbn [final fst snd].
  f_equal. apply IH; assumption.
Qed.

(** C7, as stated, fails: the bridge stores each timestamp as it comes, so
    after a frame stamped 500 and a frame stamped 300 the latest media
    timestamp has gone from 500 down to 300. *)
Lemma media_timestamps_may_decrease :
  let self := bridge_at "MZ1" 0 in
  let frames := media_frames [(500, "AA=="); (300, "AA==")] in
  latest_values frames self = [500; 300]
  /\ ~ nondecreasing (latest_values frames self).
Proof.
  cbv. split; [reflexivity|]. intros [H _]. apply H. reflexivity.
Qed.

(** C7 (amended): for every sequence of media frames handled while the
    speech-service connection is open, with no start frame in between,
    the latest media timestamp after each frame is that frame's
    timestamp; the values it takes are non-decreasing whenever the
    timestamps of the frames are. *)
Theorem latest_follows_media_timestamps
    (self : Bridge) (l : list (Z * string)) :
  openai_ws self = true ->
  openai_state self = OPEN ->
  latest_values (media_frames l) self = map fst l
  /\ (nondecreasing (latest_media_timestamp self :: map fst l) ->
      nondecreasing (latest_media_timestamp self
                       :: latest_values (media_frames l) self)).
Proof.
  intros Hws Hst. rewrite latest_values_media by assumption. split; auto.
Qed.

Lemma latest_follows_media_timestamps_witness :
  latest_values (media_frames [(20, "AA=="); (40, "AA=="); (40, "AA==")])
                (bridge_at "MZ1" 0)
  = [20; 40; 40].
Proof.
  apply (proj1 (latest_follows_media_timestamps (bridge_at "MZ1" 0)
                  [(20, "AA=="); (40, "AA=="); (40, "AA==")]
                  eq_refl eq_refl)).
Defined.

(** ** Shutdown *)

Lemma set_tasks_same (self : Bridge) : set_tasks (_tasks self) self = self.
Proof. destruct self; reflexivity. Qed.

Lemma nth_error_middle {X : Type} (pre : list X) (x : X) (post : list X) :
  nth_error (pre ++ x :: post) (List.length pre) = Some x.
Proof. induction pre; cbn; auto. Qed.

Lemma update_nth_middle {X : Type} (pre : list X) (x y : X) (post : list X) :
  update_nth (List.length pre) y (pre ++ x :: post) = pre ++ y :: post.
Proof. induction pre; cbn; [reflexivity | now f_equal]. Qed.

(** Awaiting, under [suppress(CancelledError)], a task that was cancelled
    and had not failed before. *)
Lemma exec_await_cancelled
    (pre : list Task) (t : Task) (post : list Task) (self : Bridge) :
  _tasks self = pre ++ task_cancel t :: post ->
  failed_task t = false ->
  exec (suppress is_CancelledError (await (await_task (List.length pre)))) self
  = (Return tt, set_tasks (pre ++ settle (task_cancel t) :: post) self, []).
Proof.
  intros Ht Hq. cbn. rewrite Ht, nth_error_middle, update_nth_middle.
  destruct t as [fate| |[|e|]]; cbn in *; try reflexivity.
  destruct e; cbn in *; try discriminate; reflexivity.
Qed.

Lemma exec_await_all (post : list Task) :
  forall (pre : list Task) (self : Bridge),
  _tasks self = pre ++ map task_cancel post ->
  existsb failed_task post = false ->
  exec (for_each (seq (List.length pre) (List.length post))
          (fun i => suppress is_CancelledError (await (await_task i)))) self
  = (Return tt,
     set_tasks (pre ++ map settle (map task_cancel post)) self, []).
Proof.
  induction post as [|t post IH]; intros pre self Ht Hq.
  - cbn. cbn in Ht. rewrite <- Ht, set_tasks_same. reflexivity.
  - cbn [List.length seq for_each map]. cbn in Hq.
    apply orb_false_elim in Hq. destruct Hq as [Hq1 Hq2].
    rewrite exec_bind.
    rewrite (exec_await_cancelled pre t (map task_cancel post)) by assumption.
    specialize (IH (pre ++ [settle (task_cancel t)])
                   (set_tasks (pre ++ settle (task_cancel t)
                                   :: map task_cancel post) self)).
    rewrite length_app in IH. cbn [List.length] in IH.
    rewrite Nat.add_1_r in IH. rewrite IH.
    + cbn. rewrite <- app_assoc. reflexivity.
    + cbn. rewrite <- app_assoc. reflexivity.
    + assumption.
Qed.

(** When no relay task has failed, [shutdown] runs to its end. *)
Lemma exec_shutdown (self : Bridge) :
  existsb failed_task (_tasks self) = false ->
  exec shutdown self = (Return tt, shut_down self, []).
Proof.
  intros Hq. unfold shutdown, shut_down.
  cbn [modify bind get exec]. rewrite exec_bind.
  cbn [_tasks set_tasks]. rewrite length_map.
  rewrite (exec_await_all (_tasks self) []); [|reflexivity|assumption].
  cbn.
  destruct (openai_ws self) eqn:Hws, (websocket_closed self) eqn:Hc; cbn;
    rewrite ?Hc; reflexivity.
Qed.

Ltac shut_down_cases self :=
  unfold shut_down;
  destruct (openai_ws self) eqn:?, (websocket_closed self) eqn:?;
  cbn; rew_hyps; try reflexivity; try discriminate.

(** The part of C3 the code keeps: from a bridge none of whose relay tasks
    has failed (tasks running, finished, cancelled, sockets open or
    closed), [shutdown] returns without raising and leaves the caller
    socket closed, the speech-service connection closed and released, and
    no task; a second [shutdown] returns as well and changes nothing. *)
Lemma shutdown_without_failed_task (self : Bridge) :
  existsb failed_task (_tasks self) = false ->
  let r := exec shutdown self in
  outcome r = Return tt
  /\ websocket_closed (final r) = true
  /\ openai_ws (final r) = false
  /\ (openai_ws self = true -> openai_state (final r) = CLOSED)
  /\ _tasks (final r) = []
  /\ exec shutdown (final r) = (Return tt, final r, []).
Proof.
  intros Hq r. subst r. rewrite exec_shutdown by assumption.
  cbn [outcome final fst snd].
  split; [reflexivity|].
  split; [shut_down_cases self|].
  split; [shut_down_cases self|].
  split; [intros Hws; shut_down_cases self|].
  split; [shut_down_cases self|].
  rewrite exec_shutdown.
  - f_equal. f_equal. shut_down_cases self.
  - shut_down_cases self.
Qed.

(** C3 does not hold of the code: [shutdown] suppresses [CancelledError]
    only when it awaits the relay tasks, so the exception of a relay that
    has failed is raised again by [await task].  Here the inbound relay
    has failed with [KeyError] on a start frame without its [start]
    object; [shutdown] raises that [KeyError], closes neither socket, and
    does the same when it is called a second time. *)
Theorem shutdown_reraises_relay_failure (cfg : Settings) :
  let receive :=
    exec (_receive_from_twilio [malformed_start] (Return tt))
         (connected cfg) in
  let self :=
    set_tasks [task_of (outcome receive); running finished] (final receive) in
  let r := exec shutdown self in
  outcome receive = Raised (KeyError "start")
  /\ outcome r = Raised (KeyError "start")
  /\ websocket_closed (final r) = false
  /\ openai_ws (final r) = true
  /\ openai_state (final r) = OPEN
  /\ outcome (exec shutdown (final r)) = Raised (KeyError "start").
Proof. cbv. repeat split. Qed.
(** ** Safety of the cooperating tasks *)

Section Safety.

Variable yields : io -> bool.
Variable Inv : Bridge -> Prop.
Variable R : Bridge -> Bridge -> Prop.
Variable ok : effect -> Prop.

Hypothesis R_refl : forall s, R s s.
Hypothesis R_trans : forall a b c, R a b -> R b c -> R a c.
Hypothesis ok_logged : forall level msg, ok (logged level msg).
Hypothesis yields_next : yields next_message = true.

Lemma wp_mono {A : Type} (p : Prog A) :
  forall (Q Q' : result A -> Bridge -> Bridge -> Prop) s0 s,
  (forall r a b, Q r a b -> Q' r a b) ->
  wp yields Inv R ok p Q s0 s -> wp yields Inv R ok p Q' s0 s.
Proof.
  induction p as [a|e|k IH|s' k IH|l m k IH|op k IH];
    intros Q Q' s0 s HQ; cbn; try solve [eauto].
  intros [Hok H]. split; [exact Hok|].
  destruct (yields op).
  - destruct H as (HI & HR & H). repeat split; auto.
    intros s2 H2 HR2. eapply IH; eauto.
  - eapply IH; eauto.
Qed.

Lemma wp_bind {A B : Type} (p : Prog A) (f : A -> Prog B) : forall Q s0 s,
  wp yields Inv R ok p
     (fun r a b => match r with
                   | Return x => wp yields Inv R ok (f x) Q a b
                   | Raised e => Q (Raised e) a b
                   end) s0 s ->
  wp yields Inv R ok (bind p f) Q s0 s.
Proof.
  induction p as [a|e|k IH|s' k IH|l m k IH|op k IH];
    intros Q s0 s; cbn; try solve [eauto].
  intros [Hok H]. split; [exact Hok|].
  destruct (yields op).
  - destruct H as (HI & HR & H). repeat split; auto.
  - apply IH, H.
Qed.

Lemma wp_try_except {A : Type} (p : Prog A) (h : exn -> option (Prog A)) :
  forall Q s0 s,
  wp yields Inv R ok p
     (fun r a b => match r with
                   | Return x => Q (Return x) a b
                   | Raised e =>
                       match h e with
                       | Some q => wp yields Inv R ok q Q a b
                       | None => Q (Raised e) a b
                       end
                   end) s0 s ->
  wp yields Inv R ok (try_except p h) Q s0 s.
Proof.
  induction p as [a|e|k IH|s' k IH|l m k IH|op k IH];
    intros Q s0 s; cbn; try solve [eauto].
  - destruct (h e); auto.
  - intros [Hok H]. split; [exact Hok|].
    destruct (yields op).
    + destruct H as (HI & HR & H). repeat split; auto.
    + apply IH, H.
Qed.

(** Resuming a task that meets its obligations: the effects are fine, the
    invariant holds where the task stops, and what is left of the task
    meets its obligations in turn. *)
Lemma resume_sound (p : Prog unit) : forall s0 s,
  wp yields Inv R ok p (at_rest Inv R) s0 s ->
  Forall ok (snd (resume yields p s))
  /\ Inv (snd (fst (resume yields p s)))
  /\ R s0 (snd (fst (resume yields p s)))
  /\ task_ok yields Inv R ok (fst (fst (resume yields p s)))
             (snd (fst (resume yields p s))).
Proof.
  induction p as [a|e|k IH|s' k IH|l m k IH|op k IH]; intros s0 s; cbn.
  - intros [HI HR]. repeat split; auto.
  - intros [HI HR]. repeat split; auto.
  - apply IH.
  - apply IH.
  - intros H. specialize (IH _ _ H).
    destruct (resume yields k s) as [[p' s1] out]. cbn in *.
    destruct IH as (H1 & H2 & H3 & H4). repeat split; auto.
  - intros [Hok H].
    destruct (perform op s) as [[r s1] out1] eqn:Ep. cbn in *.
    destruct (yields op).
    + cbn. destruct H as (HI & HR & H). repeat split; auto.
    + specialize (IH _ _ _ H).
      destruct (resume yields (k r) s1) as [[p' s2] out2]. cbn in *.
      destruct IH as (H1 & H2 & H3 & H4). repeat split; auto.
      apply Forall_app. split; auto.
Qed.

Lemma task_ok_R (t : paused unit) (a b : Bridge) :
  R a b -> task_ok yields Inv R ok t a -> task_ok yields Inv R ok t b.
Proof.
  destruct t; cbn; auto. intros HR H s2 H2 HR2. apply H; eauto.
Qed.

Lemma step_sound (t : turn) (c : Relays) :
  relays_ok yields Inv R ok c ->
  Forall ok (snd (step yields t c))
  /\ relays_ok yields Inv R ok (fst (step yields t c))
  /\ R (bridge c) (bridge (fst (step yields t c))).
Proof.
  intros (HI & Hr & Hs). destruct t; cbn.
  - destruct (receive_task c) as [r|k] eqn:Et.
    + cbn. split; [constructor | split; [|apply R_refl]].
      unfold relays_ok. rewrite Et. auto.
    + cbn in Hr. specialize (Hr _ HI (R_refl _)).
      apply resume_sound in Hr.
      destruct (resume yields k (bridge c)) as [[p' s1] out]. cbn in *.
      destruct Hr as (H1 & H2 & H3 & H4).
      repeat split; auto. cbn. eapply task_ok_R; eauto.
  - destruct (send_task c) as [r|k] eqn:Et.
    + cbn. split; [constructor | split; [|apply R_refl]].
      unfold relays_ok. rewrite Et. auto.
    + cbn in Hs. specialize (Hs _ HI (R_refl _)).
      apply resume_sound in Hs.
      destruct (resume yields k (bridge c)) as [[p' s1] out]. cbn in *.
      destruct Hs as (H1 & H2 & H3 & H4).
      repeat split; auto. cbn. eapply task_ok_R; eauto.
Qed.

Lemma schedule_sound (ts : list turn) : forall c,
  relays_ok yields Inv R ok c ->
  Forall ok (snd (schedule yields ts c))
  /\ relays_ok yields Inv R ok (fst (schedule yields ts c))
  /\ R (bridge c) (bridge (fst (schedule yields ts c))).
Proof.
  induction ts as [|t ts IH]; intros c Hc; cbn.
  - split; [constructor | split; [exact Hc | apply R_refl]].
  - destruct (step_sound t c Hc) as (H1 & H2 & H3).
    destruct (step yields t c) as [c1 out1]. cbn in *.
    destruct (IH c1 H2) as (H4 & H5 & H6).
    destruct (schedule yields ts c1) as [c2 out2]. cbn in *.
    split; [apply Forall_app; auto | split; [exact H5 | eauto]].
Qed.

(** A loop over the incoming frames meets its obligations when its body
    does on every frame. *)
Lemma wp_async_for {X : Type} (body : X -> Prog unit) (good : X -> Prop)
    (ending : result unit) (xs : list X) :
  (forall x s, good x -> Inv s ->
     wp yields Inv R ok (body x) (at_rest Inv R) s s) ->
  Forall good xs ->
  forall s0 s, Inv s -> R s0 s ->
  wp yields Inv R ok (async_for xs ending body) (at_rest Inv R) s0 s.
Proof.
  intros Hbody. induction 1 as [|x xs Hx Hxs IH]; intros s0 s HI HR; cbn.
  - split; [constructor|]. rewrite yields_next. repeat split; auto.
    intros s2 H2 HR2. destruct ending; cbn; split; auto.
  - split; [constructor|]. rewrite yields_next. repeat split; auto.
    intros s2 H2 HR2. apply wp_bind.
    eapply wp_mono; [|apply Hbody; auto].
    intros [[]|e] a b [Ha Hb]; cbn.
    + apply IH; auto.
    + split; auto.
Qed.

(** The two relays of [run] meet their obligations when the bodies of
    their loops do. *)
Lemma relays_sound (good : TwilioMessage -> Prop)
    (self : Bridge) (frames : list TwilioMessage) (frames_end : result unit)
    (events : list OpenAIEvent) (events_end : result unit) :
  (forall data s, good data -> Inv s ->
     wp yields Inv R ok (receive_from_twilio_body data) (at_rest Inv R) s s) ->
  (forall response s, Inv s ->
     wp yields Inv R ok (send_to_twilio_body response) (at_rest Inv R) s s) ->
  (forall s, Inv s -> Inv (set_openai_state CLOSED s)
                      /\ R s (set_openai_state CLOSED s)) ->
  Forall good frames ->
  Inv self ->
  relays_ok yields Inv R ok
            (relays self frames frames_end events events_end).
Proof.
  intros Hrecv Hsend Hclose Hgood HI.
  split; [exact HI|]. split; cbn; intros s2 H2 _.
  - destruct (openai_ws s2) eqn:Hws; cbn; [|split; auto].
    apply wp_try_except.
    eapply wp_mono; [|apply (wp_async_for receive_from_twilio_body good);
                       auto].
    intros [[]|e] a b [Ha Hb]; cbn; [split; auto|].
    destruct (is_WebSocketDisconnect e); cbn.
    + destruct (openai_ws b && _); cbn.
      * split; [constructor|].
        destruct (yields openai_ws_close).
        -- destruct (Hclose b Ha) as [Hc1 Hc2].
           split; [exact Hc1|]. split; [eauto|].
           intros s3 H3 HR3. cbn. split; auto.
        -- destruct (Hclose b Ha) as [Hc1 Hc2]. cbn. split; eauto.
      * split; auto.
    + destruct (is_Exception e); cbn; split; auto.
  - destruct (openai_ws s2) eqn:Hws; cbn; [|split; auto].
    apply wp_try_except.
    eapply wp_mono;
      [|apply (wp_async_for send_to_twilio_body (fun _ => True)); auto].
    + intros [[]|e] a b [Ha Hb]; cbn; [split; auto|].
      destruct (is_ConnectionClosed e); cbn; [split; auto|].
      destruct (is_Exception e); cbn; split; auto.
    + clear. induction events; constructor; auto.
Qed.

(** Run to its end with nothing else scheduled, a task that meets its
    obligations ends with the invariant established, the bridge changed
    within [R], and fine effects only. *)
Lemma wp_exec (p : Prog unit) : forall s0 s,
  wp yields Inv R ok p (at_rest Inv R) s0 s ->
  Inv (final (exec p s))
  /\ R s0 (final (exec p s))
  /\ Forall ok (effects (exec p s)).
Proof.
  unfold final, effects.
  induction p as [a|e|k IH|s' k IH|l m k IH|op k IH]; intros s0 s; cbn.
  - intros [HI HR]. repeat split; auto.
  - intros [HI HR]. repeat split; auto.
  - apply IH.
  - apply IH.
  - intros H. specialize (IH _ _ H).
    destruct (exec k s) as [[r s1] out]. cbn in *.
    destruct IH as (H1 & H2 & H3). repeat split; auto.
  - intros [Hok H].
    destruct (perform op s) as [[r s1] out1] eqn:Ep. cbn in *.
    destruct (yields op).
    + destruct H as (HI & HR & H).
      specialize (IH _ _ _ (H s1 HI (R_refl s1))).
      destruct (exec (k r) s1) as [[r' s2] out2]. cbn in *.
      destruct IH as (H1 & H2 & H3).
      split; [exact H1|]. split; [eauto|]. apply Forall_app; auto.
    + specialize (IH _ _ _ H).
      destruct (exec (k r) s1) as [[r' s2] out2]. cbn in *.
      destruct IH as (H1 & H2 & H3).
      split; [exact H1|]. split; [exact H2|]. apply Forall_app; auto.
Qed.

End Safety.

Ltac case_option :=
  match goal with
  | |- context [match ?c with Some _ => _ | None => _ end] =>
      destruct c eqn:?
  end.

Ltac case_result :=
  match goal with
  | |- context [match ?c with Return _ => _ | Raised _ => _ end] =>
      destruct c eqn:?
  end.

Ltac run_all :=
  run; repeat (first [case_if | case_option | case_result]; run).

Ltac bool_hyps :=
  repeat match goal with
         | H : _ && _ = true |- _ => apply andb_prop in H; destruct H
         | H : negb _ = true |- _ => apply negb_true_iff in H
         | H : negb _ = false |- _ => apply negb_false_iff in H
         end.

Ltac safe_goal :=
  unfold at_rest, utterance_has_stream, stream_stays_known, any_change,
    no_stream, frame_ok, no_twilio_write, known_streamSid in *;
  cbn in *;
  repeat match goal with
         | |- _ /\ _ => split
         | |- Forall _ [] => constructor
         | |- Forall _ (_ :: _) => constructor
         | |- forall _, _ => intro
         end;
  cbn in *; bool_hyps;
  try solve [intuition (try congruence) | rew_hyps; reflexivity].

Ltac safe := repeat (progress (run_all; safe_goal)).

(** The obligations are hardest to meet when every awaited operation
    suspends: a task that meets them there meets them under every choice
    of suspension points. *)

Section Interleavings.

Variable Inv : Bridge -> Prop.
Variable R : Bridge -> Bridge -> Prop.
Variable ok : effect -> Prop.

Hypothesis R_refl : forall s, R s s.
Hypothesis R_trans : forall a b c, R a b -> R b c -> R a c.

Lemma wp_every_await {A : Type} (p : Prog A)
    (Q : result A -> Bridge -> Bridge -> Prop) :
  (forall r a b c, R a b -> Q r b c -> Q r a c) ->
  forall s0 s,
  wp every_await Inv R ok p Q s0 s ->
  forall (yields : io -> bool) s0', R s0' s0 ->
  wp yields Inv R ok p Q s0' s.
Proof.
  intros HQ.
  induction p as [a|e|k IH|s' k IH|l m k IH|op k IH]; intros s0 s; cbn.
  - intros H yields s0' HR. eapply HQ; eauto.
  - intros H yields s0' HR. eapply HQ; eauto.
  - intros H yields s0' HR. eapply IH; eauto.
  - intros H yields s0' HR. eapply IH; eauto.
  - intros H yields s0' HR. eapply IH; eauto.
  - intros [Hok (HI & HR1 & H)] yields s0' HR. split; [exact Hok|].
    destruct (yields op).
    + split; [exact HI|]. split; [eauto|].
      intros s2 H2 HR2. eapply IH; [apply H; eassumption | apply R_refl].
    + eapply IH; [apply H; [exact HI | apply R_refl] | eauto].
Qed.

Lemma at_rest_every_await (p : Prog unit) (s : Bridge) :
  wp every_await Inv R ok p (at_rest Inv R) s s ->
  forall yields : io -> bool, wp yields Inv R ok p (at_rest Inv R) s s.
Proof.
  intros H yields.
  apply (wp_every_await p (at_rest Inv R)) with (s0 := s);
    [|exact H | apply R_refl].
  intros r a b c Hab [Hc Hbc]. split; [exact Hc | eauto].
Qed.

End Interleavings.

Lemma stream_stays_known_refl (s : Bridge) : stream_stays_known s s.
Proof. unfold stream_stays_known; auto. Qed.

Lemma stream_stays_known_trans (a b c : Bridge) :
  stream_stays_known a b -> stream_stays_known b c ->
  stream_stays_known a c.
Proof. unfold stream_stays_known; auto. Qed.


Lemma utterance_has_stream_connected (cfg : Settings) :
  utterance_has_stream (connected cfg).
Proof. unfold utterance_has_stream. cbn. discriminate. Qed.


Lemma Forall_frame_ok (out : list effect) :
  Forall frame_ok out -> Forall known_streamSid (twilio_writes out).
Proof.
  induction 1 as [|e out He _ IH]; cbn; [constructor|].
  destruct e; cbn; auto.
Qed.


Lemma Forall_trivial {X : Type} (l : list X) : Forall (fun _ => True) l.
Proof. induction l; constructor; auto. Qed.

(** *** Before the first start frame

    The writes to the sockets are awaited, so a handler can be suspended
    in the middle and the other relay can run before it goes on.  As long
    as no start frame has been handled the stream identifier is unknown
    and no utterance is current, at every suspension point. *)




(** *** Start frames that name their stream

    With start frames that carry a non-empty identifier, a known stream
    identifier stays known, so the invariant survives a start frame that
    is handled while the handler of a delta or of a barge-in is suspended
    at one of its writes. *)

Lemma receive_body_safe (data : TwilioMessage) (s : Bridge) :
  start_names_stream data ->
  utterance_has_stream s ->
  wp every_await utterance_has_stream stream_stays_known frame_ok
     (receive_from_twilio_body data)
     (at_rest utterance_has_stream stream_stays_known) s s.
Proof.
  intros Hgood HG. unfold receive_from_twilio_body, openai_is_open.
  unfold start_names_stream in Hgood.
  destruct data as [ev [[[[[t| | |]|] [pl|]]|]|] [[[[sid|]]|]|]];
    cbn [event media start timestamp payload streamSid] in *.
  all: try pose proof (Hgood _ _ eq_refl eq_refl) as Hne.
  all: clear Hgood; safe.
Qed.

Lemma send_body_safe (response : OpenAIEvent) (s : Bridge) :
  utterance_has_stream s ->
  wp every_await utterance_has_stream stream_stays_known frame_ok
     (send_to_twilio_body response)
     (at_rest utterance_has_stream stream_stays_known) s s.
Proof.
  intros HG.
  unfold send_to_twilio_body, _handle_audio_delta, _send_mark,
    _handle_speech_started_event.
  safe.
Qed.

(** From any bridge on which the invariant holds, the two relays keep it
    at every suspension point of every interleaving. *)
Lemma relays_keep_stream
    (yields : io -> bool) (self : Bridge)
    (frames : list TwilioMessage) (frames_end : result unit)
    (events : list OpenAIEvent) (events_end : result unit) :
  yields next_message = true ->
  Forall start_names_stream frames ->
  utterance_has_stream self ->
  relays_ok yields utterance_has_stream stream_stays_known frame_ok
    (relays self frames frames_end events events_end).
Proof.
  intros Hnext Hgood HI.
  apply (relays_sound yields utterance_has_stream stream_stays_known
           frame_ok)
    with (good := start_names_stream);
    try solve [exact stream_stays_known_refl
              | exact stream_stays_known_trans
              | intros; exact I | reflexivity | assumption].
  - intros data s Hd Hs.
    apply at_rest_every_await;
      [exact stream_stays_known_refl | exact stream_stays_known_trans
      | apply receive_body_safe; assumption].
  - intros response s Hs.
    apply at_rest_every_await;
      [exact stream_stays_known_refl | exact stream_stays_known_trans
      | apply send_body_safe; assumption].
  - intros s Hs. split; [exact Hs | intros H; exact H].
Qed.

Lemma schedule_keeps_stream
    (yields : io -> bool) (ts : list turn) (c : Relays) :
  yields next_message = true ->
  relays_ok yields utterance_has_stream stream_stays_known frame_ok c ->
  Forall known_streamSid (twilio_writes (snd (schedule yields ts c)))
  /\ relays_ok yields utterance_has_stream stream_stays_known frame_ok
       (fst (schedule yields ts c))
  /\ stream_stays_known (bridge c) (bridge (fst (schedule yields ts c))).
Proof.
  intros Hnext H.
  apply (schedule_sound yields utterance_has_stream stream_stays_known
           frame_ok) with (ts := ts) in H;
    try solve [exact stream_stays_known_refl
              | exact stream_stays_known_trans
              | intros; exact I | reflexivity | assumption].
  destruct H as (H1 & H2 & H3).
  split; [apply Forall_frame_ok, H1 | split; assumption].
Qed.




(** C10: provided every start frame carries a non-empty stream
    identifier, the invariant that an utterance is current only while the
    stream identifier is set and not empty holds wherever the two relays
    can bring the bridge, from any bridge on which it holds and under any
    interleaving of the relays at their awaits; a known stream identifier
    stays known from then on; and every frame written to the caller
    socket, the clear frame of a barge-in included, carries a known stream
    identifier. *)
Theorem utterance_implies_stream_id
    (yields : io -> bool) (self : Bridge)
    (frames : list TwilioMessage) (frames_end : result unit)
    (events : list OpenAIEvent) (events_end : result unit)
    (ts ts' : list turn) :
  yields next_message = true ->
  Forall start_names_stream frames ->
  utterance_has_stream self ->
  let c := fst (schedule yields ts
                  (relays self frames frames_end events events_end)) in
  let c' := schedule yields ts' c in
  utterance_has_stream (bridge c)
  /\ stream_stays_known self (bridge c)
  /\ stream_stays_known (bridge c) (bridge (fst c'))
  /\ Forall known_streamSid (twilio_writes (snd c')).
Proof.
  intros Hnext Hgood HI. cbv zeta.
  pose proof (relays_keep_stream yields self frames frames_end events
                events_end Hnext Hgood HI) as H0.
  destruct (schedule_keeps_stream yields ts _ Hnext H0) as (_ & H1 & H2).
  destruct (schedule_keeps_stream yields ts' _ Hnext H1) as (H3 & _ & H4).
  split; [apply H1|]. split; [exact H2|]. split; [exact H4 | exact H3].
Qed.

(** A start frame, an utterance, and a barge-in that is interrupted at
    each of its writes. *)
Lemma utterance_implies_stream_id_witness :
  let cfg := {| log_event_types := []; show_timing_math := false |} in
  let c := fst (schedule every_await
                  [receive_turn; receive_turn; send_turn; send_turn;
                   send_turn]
                  (relays (connected cfg)
                     [start_message "MZ1"; media_message 20 "AAAA"]
                     (Return tt)
                     [audio_delta "QUJD" (Some "item_A"); speech_started]
                     (Return tt))) in
  let c' := schedule every_await
              [send_turn; receive_turn; send_turn; receive_turn; send_turn]
              c in
  last_assistant_item (bridge c) = Some "item_A"
  /\ stream_sid (bridge c) = Some "MZ1"
  /\ utterance_has_stream (bridge c)
  /\ stream_stays_known (bridge c) (bridge (fst c'))
  /\ twilio_writes (snd c') = [clear_frame (Some "MZ1")]
  /\ Forall known_streamSid (twilio_writes (snd c')).
Proof.
  intros cfg c c'.
  split; [reflexivity|]. split; [reflexivity|].
  destruct (utterance_implies_stream_id every_await (connected cfg)
              [start_message "MZ1"; media_message 20 "AAAA"] (Return tt)
              [audio_delta "QUJD" (Some "item_A"); speech_started]
              (Return tt)
              [receive_turn; receive_turn; send_turn; send_turn; send_turn]
              [send_turn; receive_turn; send_turn; receive_turn; send_turn]
              eq_refl)
    as (H1 & _ & H3 & H4).
  - repeat constructor; intros s sid Hs Hsid;
      try discriminate Hs.
    injection Hs as <-. injection Hsid as <-. reflexivity.
  - apply utterance_has_stream_connected.
  - split; [exact H1|]. split; [exact H3|]. split; [reflexivity | exact H4].
Defined.

(** The condition on the start frames is needed for the invariant as
    well.  A start frame stores the identifier it carries, whatever it
    is: one whose identifier is [null] puts a known stream identifier back
    to [None]; and handled while the handler of a delta is suspended at
    its media write, it leaves an utterance current with no stream. *)
Lemma utterance_without_stream_id :
  let cfg := {| log_event_types := []; show_timing_math := false |} in
  let cleared :=
    exec (receive_from_twilio_body null_start) (bridge_at "MZ1" 0) in
  let c := fst (schedule every_await
                  [receive_turn; receive_turn; send_turn; send_turn;
                   receive_turn; send_turn]
                  (relays (connected cfg)
                     [start_message "MZ1"; null_start] (Return tt)
                     [audio_delta "QUJD" (Some "item_A")] (Return tt))) in
  (outcome cleared = Return tt
   /\ stream_sid (bridge_at "MZ1" 0) = Some "MZ1"
   /\ stream_sid (final cleared) = None)
  /\ every_await next_message = true
  /\ utterance_has_stream (connected cfg)
  /\ last_assistant_item (bridge c) = Some "item_A"
  /\ stream_sid (bridge c) = None
  /\ ~ utterance_has_stream (bridge c).
Proof.
  cbv zeta.
  split; [repeat split|]. split; [reflexivity|].
  split; [apply utterance_has_stream_connected|].
  split; [reflexivity|]. split; [reflexivity|].
  intros H. discriminate (H eq_refl).
Qed.

(** * Further properties of the code *)

(** ** The payload codec *)

Lemma a2b_loop_skips (c : ascii) (l2 : list ascii) :
  skipped c = true ->
  forall l1 quad_pos leftchar pads,
  Base64.a2b_loop (l1 ++ c :: l2) quad_pos leftchar pads
  = Base64.a2b_loop (l1 ++ l2) quad_pos leftchar pads.
Proof.
  intros Hc. apply andb_prop in Hc. destruct Hc as [Hpad Hjunk].
  apply negb_true_iff in Hpad.
  induction l1 as [|x l1 IH]; intros quad_pos leftchar pads.
  - cbn [app Base64.a2b_loop]. rewrite Hpad, Hjunk. reflexivity.
  - cbn [app Base64.a2b_loop].
    destruct (Ascii.eqb x Base64.BASE64_PAD).
    + destruct ((2 <=? quad_pos) && (4 <=? quad_pos + (pads + 1))); auto.
    + destruct (64 <=? Base64.table_a2b_base64 x); auto.
      destruct quad_pos as [|[q|q|]|]; rewrite ?IH; reflexivity.
Qed.

Lemma list_ascii_of_string_app (s1 s2 : string) :
  list_ascii_of_string (s1 ++ s2)
  = list_ascii_of_string s1 ++ list_ascii_of_string s2.
Proof. induction s1; cbn; congruence. Qed.

Lemma b64decode_skips (s1 s2 : string) (c : ascii) :
  Base64.is_ascii c = true ->
  skipped c = true ->
  Base64.b64decode (s1 ++ String c s2) = Base64.b64decode (s1 ++ s2).
Proof.
  intros Hascii Hc. unfold Base64.b64decode, Base64.a2b_base64.
  rewrite !list_ascii_of_string_app. cbn [list_ascii_of_string].
  rewrite (a2b_loop_skips c _ Hc).
  rewrite !forallb_app. cbn [forallb]. rewrite Hascii. reflexivity.
Qed.

(** X1: a character of a delta that is ASCII but neither in the base64
    alphabet nor the pad (a line break, a blank, a dash) is passed over by
    [base64.b64decode], wherever it stands: [_handle_audio_delta] forwards
    the same payload, or fails in the same way, as for the delta without
    that character. *)
Theorem reencode_skips_other_characters
    (s1 s2 : string) (c : ascii) (item : option string) :
  Base64.is_ascii c = true ->
  skipped c = true ->
  reencode (audio_delta (s1 ++ String c s2) item)
  = reencode (audio_delta (s1 ++ s2) item).
Proof.
  intros Hascii Hc. unfold reencode. cbn [delta audio_delta].
  rewrite b64decode_skips by assumption. reflexivity.
Qed.

Lemma reencode_skips_other_characters_witness :
  reencode (audio_delta ("QU" ++ String "010"%char "JD") None)
  = Return "QUJD".
Proof.
  rewrite (reencode_skips_other_characters "QU" "JD" "010"%char None);
    reflexivity.
Defined.

(** X2: the payload [_handle_audio_delta] forwards holds the audio of the
    delta: it decodes to the same bytes as the payload received, and
    re-encoding it once more gives it back unchanged. *)
Theorem reencode_preserves_audio
    (response : OpenAIEvent) (d audio_payload : string) :
  delta response = Some d ->
  reencode response = Return audio_payload ->
  Base64.b64decode audio_payload = Base64.b64decode d
  /\ reencode (audio_delta audio_payload (item_id response))
     = Return audio_payload.
Proof.
  unfold reencode. intros -> H.
  destruct (Base64.b64decode d) as [bin|e] eqn:Hd; [|discriminate].
  injection H as <-. cbn [delta audio_delta].
  rewrite Base64Facts.b64decode_b64encode. split; reflexivity.
Qed.

Lemma reencode_preserves_audio_witness :
  Base64.b64decode "QQ==" = Base64.b64decode "QR=="
  /\ reencode (audio_delta "QQ==" None) = Return "QQ==".
Proof.
  exact (reencode_preserves_audio (audio_delta "QR==" None) "QR==" "QQ=="
           eq_refl eq_refl).
Defined.

Lemma length_string_of_list_ascii (l : list ascii) :
  String.length (string_of_list_ascii l) = List.length l.
Proof. induction l; cbn; congruence. Qed.

Lemma b2a_base64_length (n : nat) :
  forall bin, (List.length bin <= n)%nat ->
  Z.of_nat (List.length (Base64.b2a_base64 bin))
  = 4 * ((Z.of_nat (List.length bin) + 2) / 3).
Proof.
  induction n as [|n IH]; intros bin Hlen.
  - destruct bin; [reflexivity | simpl in Hlen; lia].
  - destruct bin as [|a [|b [|c rest]]]; try reflexivity.
    cbn [Base64.b2a_base64]. unfold Base64.b2a_triple.
    cbn [app List.length].
    assert (Hrest : (List.length rest <= n)%nat) by (simpl in Hlen; lia).
    specialize (IH rest Hrest).
    rewrite !Nat2Z.inj_succ. rewrite IH.
    replace (Z.succ (Z.succ (Z.succ (Z.of_nat (List.length rest)))) + 2)
      with (Z.of_nat (List.length rest) + 2 + 1 * 3) by lia.
    rewrite Z.div_add by lia. lia.
Qed.

Lemma b64encode_length (bin : Base64.bytes) :
  Z.of_nat (String.length (Base64.b64encode bin))
  = 4 * ((Z.of_nat (List.length bin) + 2) / 3).
Proof.
  unfold Base64.b64encode. rewrite length_string_of_list_ascii.
  apply (b2a_base64_length (List.length bin)). lia.
Qed.

(** X3: the payload [_handle_audio_delta] forwards is padded base64 of the
    audio: four characters for every three bytes the delta decodes to, the
    last group padded, so [4 * ceil(n / 3)] characters for [n] bytes,
    however the delta itself was written. *)
Theorem forwarded_payload_length
    (response : OpenAIEvent) (d audio_payload : string) :
  delta response = Some d ->
  reencode response = Return audio_payload ->
  exists decoded,
    Base64.b64decode d = Return decoded
    /\ Z.of_nat (String.length audio_payload)
       = 4 * ((Z.of_nat (List.length decoded) + 2) / 3).
Proof.
  unfold reencode. intros -> H.
  destruct (Base64.b64decode d) as [bin|e]; [|discriminate].
  injection H as <-. exists bin. split; [reflexivity|].
  apply b64encode_length.
Qed.

Lemma forwarded_payload_length_witness :
  exists decoded,
    Base64.b64decode "QU JD QQ==" = Return decoded
    /\ Z.of_nat (String.length "QUJDQQ==")
       = 4 * ((Z.of_nat (List.length decoded) + 2) / 3).
Proof.
  exact (forwarded_payload_length (audio_delta "QU JD QQ==" None)
           "QU JD QQ==" "QUJDQQ==" eq_refl eq_refl).
Defined.

(** ** The relays, run to their end *)

Lemma exec_async_for_nil {X : Type} (ending : result unit)
    (body : X -> Prog unit) (self : Bridge) :
  exec (async_for [] ending body) self = (stream_end ending, self, []).
Proof. destruct ending as [[]|e]; reflexivity. Qed.

Lemma exec_async_for_cons {X : Type} (x : X) (xs : list X)
    (ending : result unit) (body : X -> Prog unit) (self : Bridge) :
  exec (async_for (x :: xs) ending body) self =
  match exec (body x) self with
  | (Return _, self1, out1) =>
      let '(r, self2, out2) := exec (async_for xs ending body) self1 in
      (r, self2, out1 ++ out2)
  | (Raised e, self1, out1) => (Raised e, self1, out1)
  end.
Proof.
  cbn [async_for]. rewrite exec_bind. cbn [exec await perform].
  rewrite exec_bind.
  destruct (exec (body x) self) as [[[a|e] self1] out1];
    [destruct (exec (async_for xs ending body) self1) as [[r self2] out2]|];
    reflexivity.
Qed.

(** The handlers of the [try] block of [_receive_from_twilio]. *)
Lemma exec_receive_from_twilio
    (messages : list TwilioMessage) (ending : result unit) (self : Bridge) :
  openai_ws self = true ->
  exec (_receive_from_twilio messages ending) self =
  match exec (async_for messages ending receive_from_twilio_body) self with
  | (Return a, self1, out1) => (Return a, self1, out1)
  | (Raised e, self1, out1) =>
      if is_WebSocketDisconnect e then
        (Return tt,
         if openai_ws self1
            && match openai_state self1 with OPEN => true | _ => false end
         then set_openai_state CLOSED self1 else self1,
         out1 ++ [logged INFO "Twilio WebSocket disconnected by client"])
      else if is_Exception e then
        (Raised e, self1,
         out1 ++ [logged EXCEPTION "Error reading Twilio media stream"])
      else (Raised e, self1, out1)
  end.
Proof.
  intros Hws. unfold _receive_from_twilio. cbn [bind get exec].
  rewrite Hws. cbn [assert skip bind]. rewrite exec_try_except.
  destruct (exec (async_for messages ending receive_from_twilio_body) self)
    as [[[a|e] self1] out1]; [reflexivity|].
  destruct (is_WebSocketDisconnect e).
  - cbn. destruct (openai_ws self1); [destruct (openai_state self1)|];
      reflexivity.
  - destruct (is_Exception e); reflexivity.
Qed.

Lemma exec_send_to_twilio
    (messages : list OpenAIEvent) (ending : result unit) (self : Bridge) :
  openai_ws self = true ->
  exec (_send_to_twilio messages ending) self =
  match exec (async_for messages ending send_to_twilio_body) self with
  | (Return a, self1, out1) => (Return a, self1, out1)
  | (Raised e, self1, out1) =>
      if is_ConnectionClosed e then
        (Return tt, self1,
         out1 ++ [logged INFO "OpenAI realtime connection closed"])
      else if is_Exception e then
        (Raised e, self1,
         out1 ++ [logged EXCEPTION "Error sending OpenAI events to Twilio"])
      else (Raised e, self1, out1)
  end.
Proof.
  intros Hws. unfold _send_to_twilio. cbn [bind get exec].
  rewrite Hws. cbn [assert skip bind]. rewrite exec_try_except.
  destruct (exec (async_for messages ending send_to_twilio_body) self)
    as [[[a|e] self1] out1]; [reflexivity|].
  destruct (is_ConnectionClosed e); [reflexivity|].
  destruct (is_Exception e); reflexivity.
Qed.

Lemma openai_writes_app (a b : list effect) :
  openai_writes (a ++ b) = openai_writes a ++ openai_writes b.
Proof.
  induction a as [|[f|m|level msg] a IH]; cbn; rewrite ?IH; reflexivity.
Qed.

Lemma twilio_writes_app (a b : list effect) :
  twilio_writes (a ++ b) = twilio_writes a ++ twilio_writes b.
Proof.
  induction a as [|[f|m|level msg] a IH]; cbn; rewrite ?IH; reflexivity.
Qed.

Lemma last_cons {X : Type} (x d : X) (l : list X) :
  last (x :: l) d = last l x.
Proof.
  revert x d. induction l as [|y l IH]; intros x d; [reflexivity|].
  change (last (x :: y :: l) d) with (last (y :: l) d).
  rewrite IH. symmetry. apply IH.
Qed.

Lemma async_for_media (ending : result unit) (l : list (Z * string)) :
  forall self,
  openai_ws self = true -> openai_state self = OPEN ->
  exists self',
    exec (async_for (media_frames l) ending receive_from_twilio_body) self
    = (stream_end ending, self',
       map (fun x => openai_write (input_audio_buffer_append (snd x))) l)
    /\ openai_ws self' = true /\ openai_state self' = OPEN
    /\ latest_media_timestamp self'
       = last (map fst l) (latest_media_timestamp self).
Proof.
  induction l as [|[t audio] l IH]; intros self Hws Hopen.
  - exists self. cbn [media_frames map]. rewrite exec_async_for_nil. auto.
  - cbn [media_frames map]. rewrite exec_async_for_cons.
    cbn [fst snd]. rewrite exec_media by assumption.
    destruct (IH (set_latest_media_timestamp t self) Hws Hopen)
      as (self' & Hexec & Hws' & Hopen' & Hlatest).
    exists self'. unfold media_frames in Hexec. rewrite Hexec.
    repeat split; try assumption.
    rewrite Hlatest. cbn [latest_media_timestamp set_latest_media_timestamp].
    symmetry. apply last_cons.
Qed.

(** X4: while the connection to the speech service is open, the inbound
    relay forwards the payload of every media frame to it, unchanged and in
    the order of arrival, whatever ends the stream of frames; it writes
    nothing else to it, and [latest_media_timestamp] ends as the timestamp
    of the last frame. *)
Theorem media_forwarded_in_order
    (self : Bridge) (l : list (Z * string)) (ending : result unit) :
  openai_ws self = true ->
  openai_state self = OPEN ->
  let r := exec (_receive_from_twilio (media_frames l) ending) self in
  openai_writes (effects r)
  = map (fun x => input_audio_buffer_append (snd x)) l
  /\ latest_media_timestamp (final r)
     = last (map fst l) (latest_media_timestamp self).
Proof.
  intros Hws Hopen r. subst r.
  rewrite exec_receive_from_twilio by assumption.
  destruct (async_for_media ending l self Hws Hopen)
    as (self' & -> & Hws' & Hopen' & Hlatest).
  assert (Hmap : forall l : list (Z * string),
             openai_writes
               (map (fun x => openai_write (input_audio_buffer_append (snd x))) l)
             = map (fun x => input_audio_buffer_append (snd x)) l).
  { clear. induction l as [|x l IH]; cbn; congruence. }
  destruct ending as [[]|e]; cbn [stream_end].
  - cbn [effects final fst snd]. split; [apply Hmap | assumption].
  - destruct (is_WebSocketDisconnect e);
      [|destruct (is_Exception e)];
      cbn [effects final fst snd];
      rewrite ?openai_writes_app, ?Hmap, ?Hws', ?Hopen'; cbn;
      rewrite ?app_nil_r; split; auto.
Qed.

Lemma media_forwarded_in_order_witness :
  let r :=
    exec (_receive_from_twilio
            (media_frames [(20, "AAAA"); (40, "not base64"); (60, "")])
            (Raised WebSocketDisconnect))
         (bridge_at "MZ1" 0) in
  openai_writes (effects r)
  = [input_audio_buffer_append "AAAA";
     input_audio_buffer_append "not base64";
     input_audio_buffer_append ""]
  /\ latest_media_timestamp (final r) = 60.
Proof.
  exact (media_forwarded_in_order (bridge_at "MZ1" 0)
           [(20, "AAAA"); (40, "not base64"); (60, "")]
           (Raised WebSocketDisconnect) eq_refl eq_refl).
Defined.

Lemma passed_over_body (self : Bridge) (data : TwilioMessage) :
  openai_ws self = true ->
  passed_over self data ->
  exec (receive_from_twilio_body data) self = (Return tt, self, []).
Proof.
  intros Hws (Hstart & Hmark & Hmedia).
  unfold receive_from_twilio_body.
  destruct (is_str (event data) "start") eqn:E1;
    [apply is_str_eq in E1; contradiction|].
  destruct (is_str (event data) "mark") eqn:E2;
    [apply is_str_eq in E2; contradiction|].
  destruct (is_str (event data) "media") eqn:E3.
  - apply is_str_eq in E3. specialize (Hmedia E3).
    cbn. rewrite Hws. destruct (openai_state self); try contradiction;
      cbn; rewrite ?E1, ?E2; reflexivity.
  - cbn. reflexivity.
Qed.

(** X5: a frame the inbound relay has no branch for changes nothing and
    writes nothing: a frame with another event than media, start or mark
    (stop, connected, dtmf, or no event at all), and every media frame,
    well formed or not, once the connection to the speech service is no
    longer open. *)
Theorem frames_passed_over
    (self : Bridge) (frames : list TwilioMessage) :
  openai_ws self = true ->
  Forall (passed_over self) frames ->
  exec (_receive_from_twilio frames (Return tt)) self = (Return tt, self, []).
Proof.
  intros Hws Hall. rewrite exec_receive_from_twilio by assumption.
  assert (H : exec (async_for frames (Return tt) receive_from_twilio_body) self
              = (Return tt, self, [])).
  { induction Hall as [|data frames Hdata _ IH].
    - apply exec_async_for_nil.
    - rewrite exec_async_for_cons, passed_over_body by assumption.
      rewrite IH. reflexivity. }
  rewrite H. reflexivity.
Qed.

Lemma frames_passed_over_witness :
  let stop := {| event := Some "stop"; media := None; start := None |} in
  let self := set_openai_state CLOSED (speaking "item_A" 500 (bridge_at "MZ1" 1800)) in
  exec (_receive_from_twilio [stop; media_message 1820 "AAAA"; stop]
                             (Return tt)) self
  = (Return tt, self, []).
Proof.
  apply (frames_passed_over
           (set_openai_state CLOSED (speaking "item_A" 500 (bridge_at "MZ1" 1800)))).
  - reflexivity.
  - repeat constructor; cbn; try discriminate.
Defined.

(** X6: a frame that lacks a key its handler reads ends the inbound relay:
    the [KeyError] is logged and raised again, and no later frame is
    handled.  The session is left as it was, except that a media frame
    without payload has already moved [latest_media_timestamp] to its
    timestamp.  The relay ends in the same way, with the error of the
    failed read, on a start or media value that is not an object
    ([TypeError]) and on a timestamp that [int()] rejects. *)
Theorem missing_key_ends_inbound_relay
    (self : Bridge) (data : TwilioMessage) (rest : list TwilioMessage)
    (ending : result unit) :
  openai_ws self = true ->
  let r := exec (_receive_from_twilio (data :: rest) ending) self in
  let error := [logged EXCEPTION "Error reading Twilio media stream"] in
  (event data = Some "start" -> start data = None ->
   r = (Raised (KeyError "start"), self, error))
  /\ (event data = Some "start" ->
      start data = Some (object {| streamSid := None |}) ->
      r = (Raised (KeyError "streamSid"), self, error))
  /\ (event data = Some "media" -> openai_state self = OPEN ->
      media data = None ->
      r = (Raised (KeyError "media"), self, error))
  /\ (forall audio,
      event data = Some "media" -> openai_state self = OPEN ->
      media data = Some (object {| timestamp := None; payload := audio |}) ->
      r = (Raised (KeyError "timestamp"), self, error))
  /\ (forall t,
      event data = Some "media" -> openai_state self = OPEN ->
      media data
      = Some (object {| timestamp := Some (numeric t); payload := None |}) ->
      r = (Raised (KeyError "payload"),
           set_latest_media_timestamp t self, error))
  /\ (event data = Some "start" -> start data = Some not_object ->
      r = (Raised TypeError, self, error))
  /\ (event data = Some "media" -> openai_state self = OPEN ->
      media data = Some not_object ->
      r = (Raised TypeError, self, error))
  /\ (forall v audio,
      event data = Some "media" -> openai_state self = OPEN ->
      media data = Some (object {| timestamp := Some v; payload := audio |}) ->
      (v = malformed -> r = (Raised ValueError, self, error))
      /\ (v = infinite -> r = (Raised OverflowError, self, error))
      /\ (v = non_numeric -> r = (Raised TypeError, self, error))).
Proof.
  intros Hws r error. subst r error.
  rewrite exec_receive_from_twilio by assumption.
  rewrite exec_async_for_cons.
  destruct data as [ev med st]; cbn [event media start].
  repeat split; intros; subst; cbn; rewrite ?Hws; cbn;
    rew_hyps; reflexivity.
Qed.

Lemma missing_key_ends_inbound_relay_witness :
  exec (_receive_from_twilio
          [ {| event := Some "media";
               media := Some (object {| timestamp := Some (numeric 1820);
                                        payload := None |});
               start := None |};
            start_message "MZ2" ]
          (Return tt))
       (bridge_at "MZ1" 1800)
  = (Raised (KeyError "payload"), bridge_at "MZ1" 1820,
     [logged EXCEPTION "Error reading Twilio media stream"]).
Proof.
  apply (missing_key_ends_inbound_relay (bridge_at "MZ1" 1800));
    reflexivity.
Defined.

Lemma receive_body_well_formed (self : Bridge) (data : TwilioMessage) :
  openai_ws self = true ->
  well_formed data ->
  exists self' out,
    exec (receive_from_twilio_body data) self = (Return tt, self', out)
    /\ openai_ws self' = true
    /\ openai_state self' = openai_state self.
Proof.
  intros Hws [Hmedia Hstart].
  unfold receive_from_twilio_body.
  destruct (is_str (event data) "media") eqn:E1.
  - apply is_str_eq in E1. destruct (Hmedia E1) as (t & audio & Hm).
    cbn. rewrite Hws. destruct (openai_state self) eqn:Hstate; cbn;
      rewrite ?Hm; cbn;
      try (destruct (is_str (event data) "start") eqn:E2;
           [apply is_str_eq in E2; congruence|];
           destruct (is_str (event data) "mark") eqn:E3;
           [apply is_str_eq in E3; congruence|]);
      cbn; eauto 10.
  - cbn. destruct (is_str (event data) "start") eqn:E2.
    + apply is_str_eq in E2. destruct (Hstart E2) as (sid & Hs).
      rewrite Hs. cbn. eauto 10.
    + destruct (is_str (event data) "mark") eqn:E3; cbn.
      * destruct (mark_queue self); cbn; eauto 10.
      * eauto 10.
Qed.

Lemma async_for_well_formed (ending : result unit)
    (frames : list TwilioMessage) :
  Forall well_formed frames ->
  forall self, openai_ws self = true ->
  exists self' out,
    exec (async_for frames ending receive_from_twilio_body) self
    = (stream_end ending, self', out)
    /\ openai_ws self' = true
    /\ openai_state self' = openai_state self.
Proof.
  induction 1 as [|data frames Hdata _ IH]; intros self Hws.
  - exists self, []. rewrite exec_async_for_nil. auto.
  - destruct (receive_body_well_formed self data Hws Hdata)
      as (self1 & out1 & Hexec & Hws1 & Hstate1).
    destruct (IH self1 Hws1) as (self2 & out2 & Hexec2 & Hws2 & Hstate2).
    exists self2, (out1 ++ out2).
    rewrite exec_async_for_cons, Hexec, Hexec2.
    repeat split; congruence.
Qed.

(** X7: on frames its handlers can read (every media frame has a media
    object with a timestamp that [int()] accepts and a payload, every
    start frame a start object with a stream identifier) the inbound
    relay never fails, and how it ends follows the end of the iteration
    over the caller's frames.  When the iteration just ends, as that of
    Starlette's [iter_text] does when the caller hangs up, the relay
    returns and leaves the connection to the speech service in the state
    it was in.  Should the iteration raise [WebSocketDisconnect], the
    [except] clause logs it, leaves the connection to the speech service
    not open (it closes an open one) and returns. *)
Theorem inbound_relay_ends_with_stream
    (self : Bridge) (frames : list TwilioMessage) :
  openai_ws self = true ->
  Forall well_formed frames ->
  let hung_up :=
    exec (_receive_from_twilio frames (Raised WebSocketDisconnect)) self in
  let ended := exec (_receive_from_twilio frames (Return tt)) self in
  outcome hung_up = Return tt
  /\ openai_state (final hung_up) <> OPEN
  /\ (openai_state self = OPEN -> openai_state (final hung_up) = CLOSED)
  /\ In (logged INFO "Twilio WebSocket disconnected by client")
        (effects hung_up)
  /\ outcome ended = Return tt
  /\ openai_state (final ended) = openai_state self.
Proof.
  intros Hws Hall hung_up ended. subst hung_up ended.
  rewrite !exec_receive_from_twilio by assumption.
  destruct (async_for_well_formed (Raised WebSocketDisconnect) frames Hall
              self Hws) as (s1 & out1 & -> & Hws1 & Hstate1).
  destruct (async_for_well_formed (Return tt) frames Hall self Hws)
    as (s2 & out2 & -> & Hws2 & Hstate2).
  cbn [stream_end is_WebSocketDisconnect outcome final effects fst snd].
  rewrite Hws1, Hstate1.
  repeat split; try assumption.
  - destruct (openai_state self) eqn:E; cbn; rewrite ?Hstate1, ?E; discriminate.
  - intros ->. reflexivity.
  - apply in_or_app. right. left. reflexivity.
Qed.

Lemma inbound_relay_ends_with_stream_witness :
  let frames := [start_message "MZ1"; media_message 20 "AAAA"; mark_message] in
  let self := connected {| log_event_types := []; show_timing_math := false |} in
  outcome (exec (_receive_from_twilio frames (Raised WebSocketDisconnect)) self)
  = Return tt
  /\ openai_state
       (final (exec (_receive_from_twilio frames (Raised WebSocketDisconnect))
                    self)) = CLOSED
  /\ openai_state (final (exec (_receive_from_twilio frames (Return tt)) self))
     = OPEN.
Proof.
  pose proof
    (inbound_relay_ends_with_stream
       (connected {| log_event_types := []; show_timing_math := false |})
       [start_message "MZ1"; media_message 20 "AAAA"; mark_message]
       eq_refl) as H.
  cbv zeta in H.
  destruct H as (H1 & _ & H3 & _ & _ & H6).
  - repeat constructor; cbn; intros; try discriminate; eauto.
  - split; [exact H1|]. split; [exact (H3 eq_refl) | exact H6].
Defined.

Lemma inbound_change_refl (s : Bridge) : inbound_change s s.
Proof.
  unfold inbound_change. repeat split; auto. exists 0%nat. reflexivity.
Qed.

Lemma skipn_skipn {X : Type} (n m : nat) (l : list X) :
  skipn n (skipn m l) = skipn (m + n) l.
Proof.
  revert l. induction m as [|m IH]; intros l; [reflexivity|].
  destruct l; [destruct n; reflexivity|]. cbn. apply IH.
Qed.

Lemma inbound_change_trans (a b c : Bridge) :
  inbound_change a b -> inbound_change b c -> inbound_change a c.
Proof.
  unfold inbound_change.
  intros (H1 & H2 & H3 & H4 & [n Hn] & H6) (K1 & K2 & K3 & K4 & [m Hm] & K6).
  repeat split; try congruence.
  - exists (n + m)%nat. rewrite Hm, Hn. apply skipn_skipn.
  - destruct K6 as [K6|K6]; [rewrite K6; assumption | right; assumption].
Qed.

Lemma inbound_change_closed (s : Bridge) :
  inbound_change s (set_openai_state CLOSED s).
Proof.
  unfold inbound_change. cbn. repeat split; auto. exists 0%nat. reflexivity.
Qed.

Lemma receive_body_inbound (data : TwilioMessage) (self : Bridge) :
  Forall inbound_effect (effects (exec (receive_from_twilio_body data) self))
  /\ inbound_change self (final (exec (receive_from_twilio_body data) self)).
Proof.
  destruct data as [ev [[[[[t| | |]|] [pl|]]|]|] [[[[sid|]]|]|]];
    unfold receive_from_twilio_body; cbn [event media start];
    destruct (is_str ev "media");
    cbn;
    repeat match goal with
           | |- context [if ?c then _ else _] => destruct c eqn:?; cbn
           | |- context [match openai_state self with _ => _ end] =>
               destruct (openai_state self); cbn
           | |- context [match ?x with Some _ => _ | None => _ end] =>
               destruct x; cbn
           | |- context [match mark_queue self with _ => _ end] =>
               destruct (mark_queue self) eqn:?; cbn
           end;
    (split;
     [ repeat constructor
     | unfold inbound_change; cbn; repeat split; auto;
       first [ exists 0%nat; reflexivity
             | exists 1%nat; rew_hyps; reflexivity ] ]).
Qed.

Lemma async_for_inbound (ending : result unit) (frames : list TwilioMessage) :
  forall self,
  Forall inbound_effect
    (effects (exec (async_for frames ending receive_from_twilio_body) self))
  /\ inbound_change self
       (final (exec (async_for frames ending receive_from_twilio_body) self)).
Proof.
  induction frames as [|data frames IH]; intros self.
  - rewrite exec_async_for_nil. split; [constructor | apply inbound_change_refl].
  - rewrite exec_async_for_cons.
    destruct (receive_body_inbound data self) as [Hout Hchange].
    destruct (exec (receive_from_twilio_body data) self)
      as [[[a|e] self1] out1]; cbn [effects final fst snd] in *.
    + destruct (IH self1) as [Hout2 Hchange2].
      destruct (exec (async_for frames ending receive_from_twilio_body) self1)
        as [[r self2] out2]; cbn [effects final fst snd] in *.
      split; [apply Forall_app; split; assumption|].
      eapply inbound_change_trans; eassumption.
    + split; assumption.
Qed.

(** X8: what the inbound relay never does, whatever frames arrive and
    however their stream ends: it writes nothing to the caller socket, and
    to the speech service nothing but audio; it leaves the caller socket,
    the tasks and the settings alone; it puts no mark on the queue of
    pending marks, only takes marks off its front; and it never makes an
    utterance current. *)
Theorem inbound_relay_frame
    (self : Bridge) (frames : list TwilioMessage) (ending : result unit) :
  let r := exec (_receive_from_twilio frames ending) self in
  twilio_writes (effects r) = []
  /\ Forall is_append (openai_writes (effects r))
  /\ inbound_change self (final r).
Proof.
  intros r.
  assert (H : Forall inbound_effect (effects r) /\ inbound_change self (final r)).
  { subst r. destruct (openai_ws self) eqn:Hws.
    - rewrite exec_receive_from_twilio by assumption.
      destruct (async_for_inbound ending frames self) as [Hout Hchange].
      destruct (exec (async_for frames ending receive_from_twilio_body) self)
        as [[[a|e] self1] out1]; cbn [effects final fst snd] in *.
      + split; assumption.
      + destruct (is_WebSocketDisconnect e); [|destruct (is_Exception e)];
          cbn [effects final fst snd];
          (split; [try (apply Forall_app; split; [assumption | repeat constructor]); assumption|]);
          try assumption.
        destruct (openai_ws self1 && _); [|assumption].
        eapply inbound_change_trans; [eassumption | apply inbound_change_closed].
    - unfold _receive_from_twilio. cbn. rewrite Hws. cbn.
      split; [constructor | apply inbound_change_refl]. }
  destruct H as [Hout Hchange]. split; [|split; [|assumption]].
  - clear -Hout. induction Hout as [|e out Hx _ IH]; [reflexivity|].
    destruct e; cbn in *; [destruct Hx | assumption | assumption].
  - clear -Hout. induction Hout as [|e out Hx _ IH]; [constructor|].
    destruct e; cbn in *; [destruct Hx | constructor; assumption | assumption].
Qed.

Lemma outbound_change_refl (s : Bridge) : outbound_change s s.
Proof. unfold outbound_change. repeat split; reflexivity. Qed.

Lemma outbound_change_trans (a b c : Bridge) :
  outbound_change a b -> outbound_change b c -> outbound_change a c.
Proof. unfold outbound_change. intuition congruence. Qed.

Lemma exec_get_bind {A : Type} (f : Bridge -> Prog A) (self : Bridge) :
  exec (self <- get ;; f self) self = exec (f self) self.
Proof. reflexivity. Qed.

Lemma outbound_ok_skip (self : Bridge) : outbound_ok self (exec skip self).
Proof.
  split; [reflexivity|]. split; [constructor|].
  apply outbound_change_refl.
Qed.

Lemma outbound_ok_logger (level : log_level) (msg : string) (self : Bridge) :
  outbound_ok self (exec (logger level msg) self).
Proof.
  split; [reflexivity|]. split; [repeat constructor|].
  apply outbound_change_refl.
Qed.

Lemma outbound_ok_bind (p : Prog unit) (f : unit -> Prog unit) (self : Bridge) :
  outbound_ok self (exec p self) ->
  (forall self1, outbound_ok self1 (exec (f tt) self1)) ->
  outbound_ok self (exec (bind p f) self).
Proof.
  intros (Hr & Hout & Hchange) Hf. rewrite exec_bind.
  destruct (exec p self) as [[[[]|e] self1] out1];
    cbn [outcome final effects fst snd] in *; [|discriminate].
  destruct (Hf self1) as (Hr2 & Hout2 & Hchange2).
  destruct (exec (f tt) self1) as [[r2 self2] out2];
    cbn [outcome final effects fst snd] in *.
  unfold outbound_ok. cbn [outcome final effects fst snd].
  split; [assumption|].
  split; [apply Forall_app; split; assumption|].
  eapply outbound_change_trans; eassumption.
Qed.

Ltac outbound_cases :=
  run;
  repeat (first
            [ case_if
            | match goal with
              | |- context [match mark_queue ?s with _ => _ end] =>
                  destruct (mark_queue s) eqn:?
              | |- context [match response_start_timestamp_twilio ?s with _ => _ end] =>
                  destruct (response_start_timestamp_twilio s) eqn:?
              end ]; run);
  unfold outbound_ok, outbound_change; cbn;
  repeat split; auto; repeat constructor.

Lemma handle_audio_delta_outbound (response : OpenAIEvent) (self : Bridge) :
  outbound_ok self (exec (_handle_audio_delta response) self).
Proof.
  pose proof (reencode_raises_Exception response) as Hexn.
  unfold _handle_audio_delta, _send_mark.
  destruct (reencode response) as [audio_payload|e];
    [|rewrite (Hexn e eq_refl)]; clear Hexn; outbound_cases.
Qed.

Lemma handle_speech_started_outbound (self : Bridge) :
  outbound_ok self (exec _handle_speech_started_event self).
Proof. unfold _handle_speech_started_event. outbound_cases. Qed.

(** One event through the loop of [_send_to_twilio]. *)
Lemma send_body_outbound (response : OpenAIEvent) (self : Bridge) :
  outbound_ok self (exec (send_to_twilio_body response) self).
Proof.
  unfold send_to_twilio_body. rewrite exec_get_bind.
  apply outbound_ok_bind.
  { destruct (in_tuple _ _); [apply outbound_ok_logger | apply outbound_ok_skip]. }
  intros self1. apply outbound_ok_bind.
  { destruct (_ && _); [apply handle_audio_delta_outbound | apply outbound_ok_skip]. }
  intros self2. rewrite exec_get_bind.
  destruct (_ && _); [|apply outbound_ok_skip].
  apply outbound_ok_bind; [apply outbound_ok_logger|].
  intros self3. apply handle_speech_started_outbound.
Qed.

Lemma async_for_outbound (ending : result unit) (events : list OpenAIEvent) :
  forall self,
  let r := exec (async_for events ending send_to_twilio_body) self in
  outcome r = stream_end ending
  /\ Forall outbound_effect (effects r)
  /\ outbound_change self (final r).
Proof.
  induction events as [|response events IH]; intros self r; subst r.
  - rewrite exec_async_for_nil.
    split; [reflexivity|]. split; [constructor|].
    apply outbound_change_refl.
  - rewrite exec_async_for_cons.
    destruct (send_body_outbound response self) as (Hr & Hout & Hchange).
    destruct (exec (send_to_twilio_body response) self)
      as [[[[]|e] self1] out1]; cbn [outcome final effects fst snd] in *;
      [|discriminate].
    destruct (IH self1) as (Hr2 & Hout2 & Hchange2).
    destruct (exec (async_for events ending send_to_twilio_body) self1)
      as [[r2 self2] out2]; cbn [outcome final effects fst snd] in *.
    split; [assumption|].
    split; [apply Forall_app; split; assumption|].
    eapply outbound_change_trans; eassumption.
Qed.

Lemma send_relay_outbound
    (self : Bridge) (events : list OpenAIEvent) (ending : result unit) :
  let r := exec (_send_to_twilio events ending) self in
  Forall outbound_effect (effects r)
  /\ outbound_change self (final r).
Proof.
  intros r. subst r. destruct (openai_ws self) eqn:Hws.
  - rewrite exec_send_to_twilio by assumption.
    destruct (async_for_outbound ending events self)
      as (Hr & Hout & Hchange).
    destruct (exec (async_for events ending send_to_twilio_body) self)
      as [[[a|e] self1] out1]; cbn [outcome final effects fst snd] in *.
    + split; assumption.
    + destruct (is_ConnectionClosed e); [|destruct (is_Exception e)];
        cbn [final effects fst snd];
        split; try assumption;
        apply Forall_app; split; try assumption; repeat constructor.
  - unfold _send_to_twilio. cbn. rewrite Hws. cbn.
    split; [constructor | apply outbound_change_refl].
Qed.

(** X9: no event of the speech service makes the outbound relay fail: an
    audio delta that cannot be decoded is dropped (and logged, when the
    stream identifier is known), every other event is handled or passed
    over.  The relay ends as the stream of events ends: it returns when
    the stream ends or the connection is closed ([ConnectionClosed]), and
    raises what the stream raised otherwise. *)
Theorem outbound_relay_ends_with_stream
    (self : Bridge) (events : list OpenAIEvent) (ending : result unit) :
  openai_ws self = true ->
  outcome (exec (_send_to_twilio events ending) self)
  = match ending with
    | Return _ => Return tt
    | Raised e => if is_ConnectionClosed e then Return tt else Raised e
    end.
Proof.
  intros Hws. rewrite exec_send_to_twilio by assumption.
  destruct (async_for_outbound ending events self) as (Hr & _).
  destruct (exec (async_for events ending send_to_twilio_body) self)
    as [[r self1] out1]; cbn [outcome fst] in *. subst r.
  destruct ending as [[]|e]; cbn [stream_end]; [reflexivity|].
  destruct (is_ConnectionClosed e); [reflexivity|].
  destruct (is_Exception e); reflexivity.
Qed.

Lemma outbound_relay_ends_with_stream_witness :
  outcome
    (exec (_send_to_twilio
             [ audio_delta "not base64!" (Some "item_A");
               {| event_type := Some "response.output_audio.delta";
                  delta := None; item_id := None |};
               {| event_type := None; delta := None; item_id := None |};
               speech_started ]
             (Raised ConnectionClosed))
          (bridge_at "MZ1" 0))
  = Return tt.
Proof.
  exact (outbound_relay_ends_with_stream (bridge_at "MZ1" 0) _
           (Raised ConnectionClosed) eq_refl).
Defined.

(** X10: what the outbound relay never does, whatever events arrive: it
    writes no audio to the speech service (truncations only), and it
    leaves alone the stream identifier, [latest_media_timestamp], both
    sockets, the tasks and the settings. *)
Theorem outbound_relay_frame
    (self : Bridge) (events : list OpenAIEvent) (ending : result unit) :
  let r := exec (_send_to_twilio events ending) self in
  Forall is_truncate (openai_writes (effects r))
  /\ outbound_change self (final r).
Proof.
  intros r. destruct (send_relay_outbound self events ending)
    as (Hout & Hchange). fold r in Hout, Hchange.
  split; [|assumption]. clear -Hout.
  induction Hout as [|e out Hx _ IH]; [constructor|].
  destruct e; cbn in *; [assumption | constructor; assumption | assumption].
Qed.

(** ** The order of the frames written to the caller *)

Section Order.

Variable G : Type.
Variable next : G -> twilio_out -> option G.

Lemma after_app (l1 l2 : list twilio_out) : forall g,
  after next g (l1 ++ l2)
  = match after next g l1 with
    | Some g' => after next g' l2
    | None => None
    end.
Proof.
  induction l1 as [|f l1 IH]; intros g; cbn; [reflexivity|].
  destruct (next g f); [apply IH | reflexivity].
Qed.

Lemma follows_mono {A : Type} (p : Prog A) :
  forall (Q Q' : result A -> G -> Prop) g,
  (forall r g', Q r g' -> Q' r g') ->
  follows next p Q g -> follows next p Q' g.
Proof.
  induction p as [a|e|k IH|s' k IH|l m k IH|op k IH];
    intros Q Q' g HQ; cbn; try solve [eauto].
  intros H self. specialize (H self).
  destruct (after next g _); [eapply IH; eauto | exact H].
Qed.

Lemma follows_bind {A B : Type} (p : Prog A) (f : A -> Prog B) :
  forall Q g,
  follows next p
    (fun r g' => match r with
                 | Return x => follows next (f x) Q g'
                 | Raised e => Q (Raised e) g'
                 end) g ->
  follows next (bind p f) Q g.
Proof.
  induction p as [a|e|k IH|s' k IH|l m k IH|op k IH];
    intros Q g; cbn; try solve [eauto].
  intros H self. specialize (H self).
  destruct (after next g _); [apply IH, H | exact H].
Qed.

Lemma follows_try_except {A : Type} (p : Prog A)
    (h : exn -> option (Prog A)) :
  forall Q g,
  follows next p
    (fun r g' => match r with
                 | Return x => Q (Return x) g'
                 | Raised e =>
                     match h e with
                     | Some q => follows next q Q g'
                     | None => Q (Raised e) g'
                     end
                 end) g ->
  follows next (try_except p h) Q g.
Proof.
  induction p as [a|e|k IH|s' k IH|l m k IH|op k IH];
    intros Q g; cbn; try solve [eauto].
  - destruct (h e); auto.
  - intros H self. specialize (H self).
    destruct (after next g _); [apply IH, H | exact H].
Qed.

(** A loop whose body keeps to the automaton from every state does. *)
Lemma follows_async_for {X : Type} (body : X -> Prog unit)
    (ending : result unit) (xs : list X) :
  (forall x g, follows next (body x) (fun _ _ => True) g) ->
  forall g, follows next (async_for xs ending body) (fun _ _ => True) g.
Proof.
  intros Hbody. induction xs as [|x xs IH]; intros g; cbn; intros self.
  - destruct ending; exact I.
  - apply follows_bind. eapply follows_mono; [|apply Hbody].
    intros [[]|e] g' _; [apply IH | exact I].
Qed.

(** Resuming a task that keeps to the automaton: the frames it writes
    are accepted, and what is left of the task keeps to it from the state
    reached. *)
Lemma resume_follows (yields : io -> bool) (p : Prog unit) :
  forall g self,
  follows next p (fun _ _ => True) g ->
  exists g',
    after next g (twilio_writes (snd (resume yields p self))) = Some g'
    /\ task_follows next (fst (fst (resume yields p self))) g'.
Proof.
  induction p as [a|e|k IH|s' k IH|l m k IH|op k IH]; intros g self; cbn.
  - intros _. exists g. split; [reflexivity | exact I].
  - intros _. exists g. split; [reflexivity | exact I].
  - intros H. apply IH, H.
  - intros H. apply IH, H.
  - intros H. destruct (IH g self H) as (g' & H1 & H2).
    destruct (resume yields k self) as [[p' s1] out]. cbn in *.
    exists g'. split; assumption.
  - intros H. specialize (H self).
    destruct (perform op self) as [[r s1] out1]. cbn [fst snd] in *.
    destruct (after next g (twilio_writes out1)) as [g1|] eqn:E1;
      [|contradiction].
    destruct (yields op).
    + cbn. exists g1. split; assumption.
    + destruct (IH r g1 s1 H) as (g' & H1 & H2).
      destruct (resume yields (k r) s1) as [[p' s2] out2]. cbn in *.
      exists g'. rewrite twilio_writes_app, after_app, E1.
      split; assumption.
Qed.

End Order.

Lemma after_no_frame (l : list twilio_out) (g g' : unit) :
  after no_frame g l = Some g' -> l = [].
Proof. destruct l; [reflexivity | discriminate]. Qed.

Lemma after_marks (l : list twilio_out) : forall b b',
  after mark_after_media b l = Some b' -> marks_follow_media b l.
Proof.
  induction l as [|[sid p|sid name|sid] l IH]; intros b b'; cbn;
    [intros _; exact I | apply IH | | apply IH].
  destruct b; [|discriminate]. intros H. split; [reflexivity | eapply IH, H].
Qed.

Lemma step_follows (yields : io -> bool) (t : turn) (c : Relays) (b : bool) :
  relays_follow c b ->
  exists b',
    after mark_after_media b (twilio_writes (snd (step yields t c)))
    = Some b'
    /\ relays_follow (fst (step yields t c)) b'.
Proof.
  intros [Hr Hs]. destruct t; cbn.
  - destruct (receive_task c) as [r|k] eqn:Et.
    + cbn. exists b. split; [reflexivity|].
      unfold relays_follow. rewrite Et. split; [exact I | exact Hs].
    + destruct (resume_follows unit no_frame yields k tt (bridge c) Hr)
        as ([] & H1 & H2).
      apply after_no_frame in H1.
      destruct (resume yields k (bridge c)) as [[p' s1] out]. cbn in *.
      rewrite H1. exists b. split; [reflexivity|]. split; assumption.
  - destruct (send_task c) as [r|k] eqn:Et.
    + cbn. exists b. split; [reflexivity|].
      unfold relays_follow. rewrite Et. split; [exact Hr | exact I].
    + destruct (resume_follows bool mark_after_media yields k b (bridge c) Hs)
        as (b' & H1 & H2).
      destruct (resume yields k (bridge c)) as [[p' s1] out]. cbn in *.
      exists b'. split; [exact H1|]. split; assumption.
Qed.

Lemma schedule_follows (yields : io -> bool) (ts : list turn) :
  forall (c : Relays) (b : bool),
  relays_follow c b ->
  exists b',
    after mark_after_media b (twilio_writes (snd (schedule yields ts c)))
    = Some b'
    /\ relays_follow (fst (schedule yields ts c)) b'.
Proof.
  induction ts as [|t ts IH]; intros c b Hc; cbn.
  - exists b. split; [reflexivity | exact Hc].
  - destruct (step_follows yields t c b Hc) as (b1 & H1 & H2).
    destruct (step yields t c) as [c1 out1]. cbn [fst snd] in *.
    destruct (IH c1 b1 H2) as (b2 & H3 & H4).
    destruct (schedule yields ts c1) as [c2 out2]. cbn [fst snd] in *.
    exists b2. rewrite twilio_writes_app, after_app, H1.
    split; assumption.
Qed.

Ltac follows_goal :=
  cbn in *;
  repeat match goal with
         | |- forall _, _ => intro
         end;
  cbn in *;
  try solve [exact I].

Ltac follows_cases := repeat (progress (run_all; follows_goal)).

Lemma receive_body_no_frame (data : TwilioMessage) (g : unit) :
  follows no_frame (receive_from_twilio_body data) (fun _ _ => True) g.
Proof.
  unfold receive_from_twilio_body, openai_is_open.
  destruct data as [ev [[[[[t| | |]|] [pl|]]|]|] [[[[sid|]]|]|]];
    cbn [event media start timestamp payload streamSid].
  all: follows_cases.
Qed.

Lemma handle_audio_delta_marks (response : OpenAIEvent) (b : bool) :
  follows mark_after_media (_handle_audio_delta response)
    (fun _ _ => True) b.
Proof.
  unfold _handle_audio_delta, _send_mark.
  destruct (reencode response) as [audio_payload|e]; follows_cases.
Qed.

Lemma handle_speech_started_marks (b : bool) :
  follows mark_after_media _handle_speech_started_event (fun _ _ => True) b.
Proof. unfold _handle_speech_started_event. follows_cases. Qed.

Lemma send_body_marks (response : OpenAIEvent) (b : bool) :
  follows mark_after_media (send_to_twilio_body response)
    (fun _ _ => True) b.
Proof.
  unfold send_to_twilio_body. cbn [bind get]. intros self.
  apply follows_bind.
  apply follows_mono with (Q := fun _ _ => True);
    [|destruct (in_tuple _ _); exact I].
  intros [[]|e] b1 _; [|exact I].
  apply follows_bind.
  apply follows_mono with (Q := fun _ _ => True);
    [|destruct (_ && _); [apply handle_audio_delta_marks | exact I]].
  intros [[]|e] b2 _; [|exact I].
  cbn [bind get]. intros self2.
  destruct (_ && _); [|exact I].
  cbn. apply handle_speech_started_marks.
Qed.

Lemma relays_follow_intro
    (self : Bridge) (frames : list TwilioMessage) (frames_end : result unit)
    (events : list OpenAIEvent) (events_end : result unit) (b : bool) :
  relays_follow (relays self frames frames_end events events_end) b.
Proof.
  split; cbn; intros s.
  - destruct (openai_ws s); cbn; [|exact I].
    apply follows_try_except.
    eapply follows_mono;
      [|apply follows_async_for; intros; apply receive_body_no_frame].
    intros [[]|e] g _; [exact I|].
    destruct (is_WebSocketDisconnect e); cbn.
    + intros s1. destruct (openai_ws s1 && _); cbn; [intros s2|]; exact I.
    + destruct (is_Exception e); exact I.
  - destruct (openai_ws s); cbn; [|exact I].
    apply follows_try_except.
    eapply follows_mono;
      [|apply follows_async_for; intros; apply send_body_marks].
    intros [[]|e] g _; [exact I|].
    destruct (is_ConnectionClosed e); cbn; [exact I|].
    destruct (is_Exception e); exact I.
Qed.

(** X11: whatever frames the caller and the speech service deliver,
    whatever the bridge the relays start from, and however the two relays
    are interleaved, every mark frame written to the caller socket comes
    right after a media frame, with no other frame to the caller between
    the two: no mark goes out without audio. *)
Theorem marks_follow_media_frames
    (yields : io -> bool) (self : Bridge)
    (frames : list TwilioMessage) (frames_end : result unit)
    (events : list OpenAIEvent) (events_end : result unit) (ts : list turn) :
  marks_follow_media false
    (twilio_writes
       (snd (schedule yields ts
               (relays self frames frames_end events events_end)))).
Proof.
  destruct (schedule_follows yields ts
              (relays self frames frames_end events events_end) false
              (relays_follow_intro self frames frames_end events events_end
                 false))
    as (b' & H & _).
  exact (after_marks _ _ _ H).
Qed.

(** ** The stream the frames name *)

Ltac among_goal :=
  unfold at_rest, stream_among, stays_among, frame_among in *;
  cbn in *;
  repeat match goal with
         | |- _ /\ _ => split
         | |- Forall _ [] => constructor
         | |- Forall _ (_ :: _) => constructor
         | |- forall _, _ => intro
         end;
  cbn in *; bool_hyps;
  try solve [ exact I | assumption | discriminate | left; reflexivity
            | intuition (try congruence) ].

Ltac among := repeat (progress (run_all; among_goal)).

Lemma stays_among_refl (ids : list (option string)) (s : Bridge) :
  stays_among ids s s.
Proof. unfold stays_among; auto. Qed.

Lemma stays_among_trans (ids : list (option string)) (a b c : Bridge) :
  stays_among ids a b -> stays_among ids b c -> stays_among ids a c.
Proof. unfold stays_among; auto. Qed.

Lemma truthy_Some (v : option string) :
  truthy v = true -> v <> None.
Proof. destruct v; [discriminate | intros H; discriminate H]. Qed.

Lemma receive_body_among (ids : list (option string))
    (data : TwilioMessage) (s : Bridge) :
  announces ids data ->
  stream_among ids s ->
  wp every_await (stream_among ids) (stays_among ids) (frame_among ids)
     (receive_from_twilio_body data)
     (at_rest (stream_among ids) (stays_among ids)) s s.
Proof.
  intros Hgood HG. unfold receive_from_twilio_body, openai_is_open.
  unfold announces in Hgood.
  destruct data as [ev [[[[[t| | |]|] [pl|]]|]|] [[[[sid|]]|]|]];
    cbn [event media start timestamp payload streamSid] in *.
  all: try pose proof (Hgood _ _ eq_refl eq_refl) as Hin.
  all: clear Hgood; among.
Qed.

Lemma send_body_among (ids : list (option string))
    (response : OpenAIEvent) (s : Bridge) :
  stream_among ids s ->
  wp every_await (stream_among ids) (stays_among ids) (frame_among ids)
     (send_to_twilio_body response)
     (at_rest (stream_among ids) (stays_among ids)) s s.
Proof.
  intros HG.
  unfold send_to_twilio_body, _handle_audio_delta, _send_mark,
    _handle_speech_started_event.
  among.
  all: repeat match goal with
              | H : truthy (stream_sid _) = true |- _ =>
                  apply truthy_Some in H
              end;
    try solve [intuition (try congruence)].
Qed.

Lemma announces_more (ids : list (option string)) (sid : option string)
    (data : TwilioMessage) :
  announces ids data -> announces (sid :: ids) data.
Proof. intros H s v Hs Hv. right. exact (H s v Hs Hv). Qed.

Lemma announces_announced (frames : list TwilioMessage) :
  Forall (announces (announced frames)) frames.
Proof.
  induction frames as [|data frames IH]; [constructor|].
  cbn [announced].
  destruct (start data) as [[[[sid|]]|]|] eqn:Es.
  - constructor.
    + intros s v Hs Hv. rewrite Es in Hs. injection Hs as <-.
      cbn in Hv. injection Hv as <-. left. reflexivity.
    + eapply Forall_impl; [|exact IH]. intros d. apply announces_more.
  - constructor; [|exact IH].
    intros s v Hs Hv. rewrite Es in Hs. injection Hs as <-. discriminate Hv.
  - constructor; [|exact IH].
    intros s v Hs Hv. rewrite Es in Hs. discriminate Hs.
  - constructor; [|exact IH].
    intros s v Hs Hv. rewrite Es in Hs. discriminate Hs.
Qed.

Lemma Forall_frame_among (ids : list (option string)) (out : list effect) :
  Forall (frame_among ids) out ->
  Forall (fun f => In (frame_streamSid f) ids) (twilio_writes out).
Proof.
  induction 1 as [|e out He _ IH]; cbn; [constructor|].
  destruct e; cbn; auto.
Qed.

(** X26: whatever frames the caller and the speech service deliver and
    however the two relays are interleaved at their awaits, every frame
    written to the caller socket carries the stream identifier of one of
    the start frames of the call. *)
Theorem frames_carry_announced_stream_id
    (yields : io -> bool) (cfg : Settings)
    (frames : list TwilioMessage) (frames_end : result unit)
    (events : list OpenAIEvent) (events_end : result unit) (ts : list turn) :
  yields next_message = true ->
  Forall (fun f => In (frame_streamSid f) (announced frames))
    (twilio_writes
       (snd (schedule yields ts
               (relays (connected cfg) frames frames_end events events_end)))).
Proof.
  intros Hnext. apply Forall_frame_among.
  apply (schedule_sound yields (stream_among (announced frames))
           (stays_among (announced frames)) (frame_among (announced frames)));
    try solve [apply stays_among_refl | apply stays_among_trans
              | intros; exact I | assumption].
  apply (relays_sound yields (stream_among (announced frames))
           (stays_among (announced frames)) (frame_among (announced frames)))
    with (good := announces (announced frames));
    try solve [apply stays_among_refl | apply stays_among_trans
              | intros; exact I | assumption].
  - intros data s Hd Hs.
    apply at_rest_every_await;
      [apply stays_among_refl | apply stays_among_trans
      | apply receive_body_among; assumption].
  - intros response s Hs.
    apply at_rest_every_await;
      [apply stays_among_refl | apply stays_among_trans
      | apply send_body_among; assumption].
  - intros s Hs. split; [exact Hs | intros H; exact H].
  - apply announces_announced.
  - split; [left; reflexivity | intros H; discriminate H].
Qed.

(** The stream is started again while the handler of a delta is suspended
    at its media write: the media frame carries the first identifier and
    its mark frame the second. *)
Lemma frames_carry_announced_stream_id_witness :
  let cfg := {| log_event_types := []; show_timing_math := false |} in
  let frames := [start_message "MZ1"; start_message "MZ2"] in
  let writes :=
    twilio_writes
      (snd (schedule every_await
              [receive_turn; receive_turn; send_turn; send_turn;
               receive_turn; send_turn]
              (relays (connected cfg) frames (Return tt)
                      [audio_delta "QUJD" (Some "item_A")] (Return tt)))) in
  announced frames = [Some "MZ1"; Some "MZ2"]
  /\ writes = [media_frame (Some "MZ1") "QUJD";
               mark_frame (Some "MZ2") "responsePart"]
  /\ Forall (fun f => In (frame_streamSid f) [Some "MZ1"; Some "MZ2"]) writes.
Proof.
  split; [reflexivity|]. split; [reflexivity|].
  exact (frames_carry_announced_stream_id every_await
           {| log_event_types := []; show_timing_math := false |}
           [start_message "MZ1"; start_message "MZ2"] (Return tt)
           [audio_delta "QUJD" (Some "item_A")] (Return tt)
           [receive_turn; receive_turn; send_turn; send_turn;
            receive_turn; send_turn] eq_refl).
Defined.

(** X12: an event the outbound relay does not act on (neither an audio
    delta nor a speech-started event with an utterance current: a delta
    event without its [delta], [response.done], an event without type)
    changes nothing and reaches neither socket; it is logged at debug
    level exactly when its type is one of [log_event_types]. *)
Theorem event_passed_over (self : Bridge) (response : OpenAIEvent) :
  ~ acted_on self response ->
  exec (send_to_twilio_body response) self
  = (Return tt, self,
     if in_tuple (event_type response) (log_event_types (settings self))
     then [logged DEBUG "Received event %s: %s"] else []).
Proof.
  intros Hnot. unfold acted_on, is_audio_delta, is_speech_started in Hnot.
  unfold send_to_twilio_body. rewrite exec_get_bind, exec_bind.
  assert (Hlog :
    exec (if in_tuple (event_type response) (log_event_types (settings self))
          then logger DEBUG "Received event %s: %s" else skip) self
    = (Return tt, self,
       if in_tuple (event_type response) (log_event_types (settings self))
       then [logged DEBUG "Received event %s: %s"] else [])).
  { destruct (in_tuple _ _); reflexivity. }
  rewrite Hlog. clear Hlog. rewrite exec_bind.
  destruct (is_str (event_type response) "response.output_audio.delta"
            && match delta response with Some _ => true | None => false end)
    eqn:E1.
  { exfalso. apply Hnot. left. apply andb_prop in E1. destruct E1 as [E1 E2].
    apply is_str_eq in E1. split; [assumption|].
    destruct (delta response); [discriminate | discriminate]. }
  cbn [exec skip]. rewrite exec_get_bind.
  destruct (is_str (event_type response) "input_audio_buffer.speech_started"
            && truthy (last_assistant_item self)) eqn:E2.
  { exfalso. apply Hnot. right. apply andb_prop in E2. destruct E2 as [E2 E3].
    apply is_str_eq in E2. split; assumption. }
  cbn [exec skip]. rewrite !app_nil_r. reflexivity.
Qed.

Lemma event_passed_over_witness :
  let cfg := {| log_event_types := ["response.done"]; show_timing_math := false |} in
  let response :=
    {| event_type := Some "response.done"; delta := Some "QUJD";
       item_id := Some "item_A" |} in
  exec (send_to_twilio_body response) (connected cfg)
  = (Return tt, connected cfg, [logged DEBUG "Received event %s: %s"]).
Proof.
  apply (event_passed_over
           (connected {| log_event_types := ["response.done"];
                         show_timing_math := false |})
           {| event_type := Some "response.done"; delta := Some "QUJD";
              item_id := Some "item_A" |}).
  intros [[H _]|[H _]]; discriminate H.
Defined.

Lemma final_audio_delta
    (self : Bridge) (response : OpenAIEvent) (audio_payload : string) :
  is_audio_delta response ->
  truthy (stream_sid self) = true ->
  reencode response = Return audio_payload ->
  final (exec (send_to_twilio_body response) self)
  = set_mark_queue (mark_queue self ++ ["responsePart"])
      (if truthy (item_id response)
          && negb (py_eq (item_id response) (last_assistant_item self))
       then set_last_assistant_item (item_id response)
              (set_response_start_timestamp_twilio
                 (Some (latest_media_timestamp self)) self)
       else self).
Proof.
  intros [Htype Hdelta] Hsid Hre.
  unfold send_to_twilio_body, _handle_audio_delta, _send_mark.
  destruct (delta response) eqn:Hd; [|contradiction].
  run_cases; try reflexivity;
    match goal with
    | H : is_str (Some "response.output_audio.delta") _ = true |- _ =>
        discriminate H
    end.
Qed.






Lemma py_eq_refl (v : option string) : py_eq v v = true.
Proof. destruct v as [s|]; [apply String.eqb_refl | reflexivity]. Qed.

(** X27: the start time of an utterance is fixed by its first delta.  A
    forwarded delta that names the current item, or names no item, leaves
    [last_assistant_item] and [response_start_timestamp_twilio] as they
    are, wherever [latest_media_timestamp] has moved meanwhile. *)
Theorem same_item_keeps_start_time
    (self : Bridge) (response : OpenAIEvent) (audio_payload : string) :
  is_audio_delta response ->
  truthy (stream_sid self) = true ->
  reencode response = Return audio_payload ->
  truthy (item_id response) = false
  \/ item_id response = last_assistant_item self ->
  let self' := final (exec (send_to_twilio_body response) self) in
  last_assistant_item self' = last_assistant_item self
  /\ response_start_timestamp_twilio self'
     = response_start_timestamp_twilio self
  /\ latest_media_timestamp self' = latest_media_timestamp self.
Proof.
  intros Hdelta Hsid Hre Hitem self'. subst self'.
  rewrite (final_audio_delta self response audio_payload) by assumption.
  assert (Hcond : truthy (item_id response)
                  && negb (py_eq (item_id response) (last_assistant_item self))
                  = false).
  { destruct Hitem as [H|H].
    - rewrite H. reflexivity.
    - rewrite H, py_eq_refl. apply andb_false_r. }
  rewrite Hcond. repeat split.
Qed.

Lemma same_item_keeps_start_time_witness :
  let self := speaking "item_A" 500 (bridge_at "MZ1" 1800) in
  let self' :=
    final (exec (send_to_twilio_body (audio_delta "QUJD" (Some "item_A")))
                self) in
  last_assistant_item self' = Some "item_A"
  /\ response_start_timestamp_twilio self' = Some 500
  /\ latest_media_timestamp self' = 1800.
Proof.
  apply (same_item_keeps_start_time
           (speaking "item_A" 500 (bridge_at "MZ1" 1800))
           (audio_delta "QUJD" (Some "item_A")) "QUJD");
    try reflexivity.
  - split; [reflexivity | discriminate].
  - right. reflexivity.
Defined.

(** ** Shutdown and the tasks *)

Lemma exec_for_each_app {X : Type} (a b : list X) (body : X -> Prog unit)
    (self : Bridge) :
  exec (for_each (a ++ b) body) self =
  match exec (for_each a body) self with
  | (Return _, self1, out1) =>
      let '(r, self2, out2) := exec (for_each b body) self1 in
      (r, self2, out1 ++ out2)
  | (Raised e, self1, out1) => (Raised e, self1, out1)
  end.
Proof.
  revert self. induction a as [|x a IH]; intros self.
  - cbn. destruct (exec (for_each b body) self) as [[r s] o]. reflexivity.
  - cbn [app for_each]. rewrite !exec_bind.
    destruct (exec (body x) self) as [[[u|e] self1] out1]; [|reflexivity].
    rewrite IH.
    destruct (exec (for_each a body) self1) as [[[u'|e] self2] out2];
      [|reflexivity].
    destruct (exec (for_each b body) self2) as [[r self3] out3].
    rewrite app_assoc. reflexivity.
Qed.

(** Awaiting the tasks before the first one that has failed. *)
Lemma exec_await_prefix (mid : list Task) :
  forall (pre rest : list Task) (self : Bridge),
  _tasks self = pre ++ map task_cancel mid ++ rest ->
  existsb failed_task mid = false ->
  exec (for_each (seq (List.length pre) (List.length mid))
          (fun i => suppress is_CancelledError (await (await_task i)))) self
  = (Return tt,
     set_tasks (pre ++ map settle (map task_cancel mid) ++ rest) self, []).
Proof.
  induction mid as [|t mid IH]; intros pre rest self Ht Hq.
  - cbn. cbn in Ht. rewrite <- Ht, set_tasks_same. reflexivity.
  - cbn [List.length seq for_each map app]. cbn in Hq.
    apply orb_false_elim in Hq. destruct Hq as [Hq1 Hq2].
    rewrite exec_bind.
    rewrite (exec_await_cancelled pre t (map task_cancel mid ++ rest))
      by assumption.
    specialize (IH (pre ++ [settle (task_cancel t)]) rest
                   (set_tasks (pre ++ settle (task_cancel t)
                                   :: map task_cancel mid ++ rest) self)).
    rewrite length_app in IH. cbn [List.length] in IH.
    rewrite Nat.add_1_r in IH. rewrite IH.
    + cbn. rewrite <- app_assoc. reflexivity.
    + cbn. rewrite <- app_assoc. reflexivity.
    + assumption.
Qed.

Lemma exec_await_failed
    (pre : list Task) (e : exn) (post : list Task) (self : Bridge) :
  _tasks self = pre ++ done (failed e) :: post ->
  is_CancelledError e = false ->
  exec (suppress is_CancelledError (await (await_task (List.length pre)))) self
  = (Raised e, self, []).
Proof.
  intros Ht He. cbn. rewrite Ht, nth_error_middle, update_nth_middle.
  cbn. rewrite He, <- Ht, set_tasks_same. reflexivity.
Qed.

(** What [shutdown] does when a task of [_tasks] has failed. *)
Lemma exec_shutdown_failed
    (self : Bridge) (pre post : list Task) (e : exn) :
  _tasks self = pre ++ done (failed e) :: post ->
  existsb failed_task pre = false ->
  is_CancelledError e = false ->
  exec shutdown self
  = (Raised e,
     set_tasks (map settle (map task_cancel pre)
                  ++ done (failed e) :: map task_cancel post) self,
     []).
Proof.
  intros Ht Hpre He. unfold shutdown.
  assert (Hseq : seq 0 (List.length (pre ++ done (failed e) :: post))
                 = seq 0 (List.length pre)
                   ++ [List.length (map settle (map task_cancel pre))]
                   ++ seq (S (List.length pre)) (List.length post)).
  { rewrite length_app, seq_app, !length_map. reflexivity. }
  cbn [modify bind get exec]. rewrite exec_bind.
  cbn [_tasks set_tasks]. rewrite length_map, Ht, Hseq.
  rewrite map_app. cbn [map task_cancel].
  rewrite exec_for_each_app.
  rewrite (exec_await_prefix pre [] (done (failed e) :: map task_cancel post));
    [|reflexivity|assumption].
  cbn [app for_each]. rewrite exec_bind.
  rewrite (exec_await_failed (map settle (map task_cancel pre)) e
             (map task_cancel post)); [|reflexivity|assumption].
  reflexivity.
Qed.

(** X15: [shutdown] does not get past a relay task that has failed.  When
    a task of [_tasks] ended with an exception other than a cancellation,
    awaiting it raises that exception again, which only
    [suppress(CancelledError)] stands in the way of: [shutdown] raises the
    exception of the first such task, has by then cancelled the other
    tasks, and closes neither socket; the tasks stay in [_tasks]. *)
Theorem shutdown_stops_at_failed_task
    (self : Bridge) (pre post : list Task) (e : exn) :
  _tasks self = pre ++ done (failed e) :: post ->
  existsb failed_task pre = false ->
  is_CancelledError e = false ->
  let r := exec shutdown self in
  outcome r = Raised e
  /\ websocket_closed (final r) = websocket_closed self
  /\ openai_ws (final r) = openai_ws self
  /\ openai_state (final r) = openai_state self
  /\ _tasks (final r)
     = map settle (map task_cancel pre)
       ++ done (failed e) :: map task_cancel post.
Proof.
  intros Ht Hpre He r. subst r.
  rewrite (exec_shutdown_failed self pre post e) by assumption.
  repeat split.
Qed.

Lemma shutdown_stops_at_failed_task_witness :
  let self :=
    set_tasks [done finished; done (failed ConnectionClosed); running finished]
              (bridge_at "MZ1" 0) in
  let r := exec shutdown self in
  outcome r = Raised ConnectionClosed
  /\ websocket_closed (final r) = false
  /\ openai_ws (final r) = true
  /\ openai_state (final r) = OPEN
  /\ _tasks (final r)
     = [done finished; done (failed ConnectionClosed); cancelling].
Proof.
  apply (shutdown_stops_at_failed_task
           (set_tasks [done finished; done (failed ConnectionClosed);
                       running finished] (bridge_at "MZ1" 0))
           [done finished] [running finished] ConnectionClosed);
    reflexivity.
Defined.

(** ** The subprotocol header *)

Lemma before_comma_no_comma (s : string) :
  contains ","%char (before_comma s) = false.
Proof.
  induction s as [|c s IH]; [reflexivity|].
  cbn [before_comma]. destruct (Ascii.eqb c ","%char) eqn:E; [reflexivity|].
  cbn [contains]. rewrite E. exact IH.
Qed.

Lemma before_comma_app (a rest : string) :
  contains ","%char a = false ->
  before_comma (a ++ String ","%char rest) = a.
Proof.
  induction a as [|c a IH]; intros H; [reflexivity|].
  cbn in H. apply orb_false_elim in H. destruct H as [Hc Ha].
  cbn. rewrite Hc, IH by assumption. reflexivity.
Qed.

Lemma before_comma_all (a : string) :
  contains ","%char a = false -> before_comma a = a.
Proof.
  induction a as [|c a IH]; intros H; [reflexivity|].
  cbn in H. apply orb_false_elim in H. destruct H as [Hc Ha].
  cbn. rewrite Hc, IH by assumption. reflexivity.
Qed.

Lemma contains_lstrip (c : ascii) (s : string) :
  contains c s = false -> contains c (lstrip s) = false.
Proof.
  induction s as [|x s IH]; intros H; [reflexivity|].
  cbn [lstrip]. destruct (is_space x); [|assumption].
  cbn in H. apply orb_false_elim in H. apply IH, H.
Qed.

Lemma contains_rstrip (c : ascii) (s : string) :
  contains c s = false -> contains c (rstrip s) = false.
Proof.
  induction s as [|x s IH]; intros H; [reflexivity|].
  cbn in H. apply orb_false_elim in H. destruct H as [Hx Hs].
  specialize (IH Hs). cbn [rstrip].
  destruct (rstrip s) as [|y kept]; [destruct (is_space x)|];
    cbn [contains] in *; rewrite ?Hx, ?IH; reflexivity.
Qed.

Lemma lstrip_first (s : string) (c : ascii) :
  first_char (lstrip s) = Some c -> is_space c = false.
Proof.
  induction s as [|x s IH]; [discriminate|].
  cbn [lstrip]. destruct (is_space x) eqn:E; [assumption|].
  cbn. intros H. injection H as <-. assumption.
Qed.

Lemma rstrip_first (s : string) (c : ascii) :
  (forall x, first_char s = Some x -> is_space x = false) ->
  first_char (rstrip s) = Some c -> is_space c = false.
Proof.
  destruct s as [|x s]; [discriminate|]. intros Hfirst.
  cbn [rstrip]. destruct (rstrip s) as [|y kept]; [destruct (is_space x) eqn:E|];
    cbn; intros H; try discriminate; injection H as <-;
    apply Hfirst; reflexivity.
Qed.

Lemma rstrip_last (s : string) (c : ascii) :
  last_char (rstrip s) = Some c -> is_space c = false.
Proof.
  revert c. induction s as [|x s IH]; intros c; [discriminate|].
  cbn [rstrip]. destruct (rstrip s) as [|y kept] eqn:E.
  - destruct (is_space x) eqn:Ex; [discriminate|].
    cbn. intros H. injection H as <-. assumption.
  - cbn [last_char]. cbn [last_char] in IH.
    destruct (match last_char kept with None => Some y | Some f => Some f end)
      as [found|] eqn:El.
    + intros H. injection H as <-. apply IH. reflexivity.
    + destruct (last_char kept); discriminate.
Qed.

Lemma strip_trimmed (s : string) : trimmed (strip s).
Proof.
  split; intros c H.
  - apply (rstrip_first (lstrip s)); [apply lstrip_first | assumption].
  - apply (rstrip_last (lstrip s)). assumption.
Qed.

Lemma lstrip_blank (ws s : string) :
  blank ws = true -> lstrip (ws ++ s) = lstrip s.
Proof.
  induction ws as [|c ws IH]; intros H; [reflexivity|].
  cbn in H. apply andb_prop in H. destruct H as [Hc Hws].
  cbn. rewrite Hc. apply IH, Hws.
Qed.

Lemma rstrip_blank (ws : string) : blank ws = true -> rstrip ws = "".
Proof.
  induction ws as [|c ws IH]; intros H; [reflexivity|].
  cbn in H. apply andb_prop in H. destruct H as [Hc Hws].
  cbn. rewrite IH, Hc by assumption. reflexivity.
Qed.

Lemma rstrip_app_blank (s ws : string) :
  blank ws = true -> rstrip (s ++ ws) = rstrip s.
Proof.
  intros H. induction s as [|c s IH].
  - cbn. apply rstrip_blank, H.
  - cbn. rewrite IH. reflexivity.
Qed.

Lemma lstrip_trimmed (s : string) :
  (forall c, first_char s = Some c -> is_space c = false) -> lstrip s = s.
Proof.
  destruct s as [|c s]; [reflexivity|]. intros H.
  cbn. rewrite (H c eq_refl). reflexivity.
Qed.

Lemma rstrip_trimmed (s : string) :
  (forall c, last_char s = Some c -> is_space c = false) -> rstrip s = s.
Proof.
  induction s as [|c s IH]; [reflexivity|]. intros H.
  cbn [rstrip]. destruct s as [|d s'].
  - cbn. rewrite (H c eq_refl). reflexivity.
  - rewrite IH.
    + reflexivity.
    + intros x Hx. apply H. cbn [last_char] in *. rewrite Hx. reflexivity.
Qed.

Lemma lstrip_token (t ws : string) :
  (forall c, first_char t = Some c -> is_space c = false) ->
  blank ws = true ->
  rstrip (lstrip (t ++ ws)) = rstrip t.
Proof.
  intros Hfirst Hws. destruct t as [|c t].
  - cbn [append].
    assert (H : lstrip ws = "").
    { clear -Hws. induction ws as [|c ws IH]; [reflexivity|].
      cbn in Hws. apply andb_prop in Hws. destruct Hws as [Hc Hws].
      cbn. rewrite Hc. apply IH, Hws. }
    rewrite H. reflexivity.
  - cbn [append lstrip]. rewrite (Hfirst c eq_refl).
    apply (rstrip_app_blank (String c t)), Hws.
Qed.

Lemma strip_token (ws1 t ws2 : string) :
  trimmed t -> blank ws1 = true -> blank ws2 = true ->
  strip (ws1 ++ t ++ ws2) = t.
Proof.
  intros [Hfirst Hlast] H1 H2. unfold strip.
  rewrite lstrip_blank by assumption.
  rewrite lstrip_token by assumption.
  apply rstrip_trimmed, Hlast.
Qed.

Lemma contains_app (c : ascii) (a b : string) :
  contains c (a ++ b) = contains c a || contains c b.
Proof.
  induction a as [|x a IH]; [reflexivity|].
  cbn. rewrite IH, orb_assoc. reflexivity.
Qed.

Lemma blank_no_comma (ws : string) :
  blank ws = true -> contains ","%char ws = false.
Proof.
  induction ws as [|c ws IH]; intros H; [reflexivity|].
  cbn in H. apply andb_prop in H. destruct H as [Hc Hws].
  cbn. rewrite (IH Hws), orb_false_r.
  destruct (Ascii.eqb c ","%char) eqn:E; [|reflexivity].
  apply Ascii.eqb_eq in E. subst c. discriminate Hc.
Qed.

(** X16: the subprotocol [start] accepts the socket with is never a list:
    whatever the [sec-websocket-protocol] header holds, the value passed
    to [accept] contains no comma and neither starts nor ends with white
    space.  No subprotocol is passed exactly when the header is absent or
    empty. *)
Theorem subprotocol_is_one_token (header : option string) :
  (Lifecycle.subprotocol_of header = None
   <-> header = None \/ header = Some "")
  /\ forall subprotocol,
       Lifecycle.subprotocol_of header = Some subprotocol ->
       contains ","%char subprotocol = false /\ trimmed subprotocol.
Proof.
  destruct header as [h|].
  - unfold Lifecycle.subprotocol_of. destruct h as [|c h].
    + split; [split; auto|]. cbn. discriminate.
    + cbn [truthy String.eqb negb]. split.
      * split; [discriminate|]. intros [H|H]; discriminate H.
      * intros subprotocol H. injection H as <-.
        split; [|apply strip_trimmed].
        unfold strip. apply contains_rstrip, contains_lstrip.
        exact (before_comma_no_comma (String c h)).
  - split; [split; auto|]. cbn. discriminate.
Qed.

(** X17: [start] answers with the first subprotocol the caller offers:
    when the header lists tokens separated by commas, the subprotocol
    passed to [accept] is the first token, without the white space around
    it, and an offer of a single token is passed as it is. *)
Theorem subprotocol_is_first_offer (ws1 t ws2 rest : string) :
  contains ","%char t = false ->
  trimmed t ->
  blank ws1 = true ->
  blank ws2 = true ->
  Lifecycle.subprotocol_of
    (Some (ws1 ++ t ++ ws2 ++ String ","%char rest)%string)
  = Some t
  /\ (t <> "" ->
      Lifecycle.subprotocol_of (Some (ws1 ++ t ++ ws2)%string) = Some t).
Proof.
  intros Hcomma Htrim H1 H2.
  assert (Hno : contains ","%char (ws1 ++ t ++ ws2)%string = false).
  { rewrite !contains_app, Hcomma, !blank_no_comma by assumption. reflexivity. }
  split.
  - unfold Lifecycle.subprotocol_of.
    assert (Htruthy :
              truthy (Some (ws1 ++ t ++ ws2 ++ String ","%char rest)%string)
              = true).
    { destruct ws1; [destruct t; [destruct ws2|]|]; reflexivity. }
    rewrite Htruthy.
    replace (ws1 ++ t ++ ws2 ++ String ","%char rest)%string
      with ((ws1 ++ t ++ ws2) ++ String ","%char rest)%string.
    + rewrite before_comma_app by assumption.
      rewrite strip_token by assumption. reflexivity.
    + clear. induction ws1 as [|c ws1 IH]; cbn.
      * induction t as [|c t IH]; cbn; [reflexivity | now rewrite IH].
      * now rewrite IH.
  - intros Ht. unfold Lifecycle.subprotocol_of.
    assert (Htruthy : truthy (Some (ws1 ++ t ++ ws2)%string) = true).
    { destruct ws1; [destruct t; [contradiction|]|]; reflexivity. }
    rewrite Htruthy, before_comma_all, strip_token by assumption.
    reflexivity.
Qed.

Lemma subprotocol_is_first_offer_witness :
  Lifecycle.subprotocol_of (Some " audio.twilio.com , graphql-ws")
  = Some "audio.twilio.com"
  /\ Lifecycle.subprotocol_of (Some " audio.twilio.com ")
     = Some "audio.twilio.com".
Proof.
  destruct (subprotocol_is_first_offer " " "audio.twilio.com" " " " graphql-ws")
    as [H1 H2]; try reflexivity.
  - split; intros c H; injection H as <-; reflexivity.
  - split; [exact H1 | apply H2; discriminate].
Defined.

(** ** The whole call *)

Lemma first_failed_task (l : list Task) :
  existsb failed_task l = true ->
  exists pre e post,
    l = pre ++ done (failed e) :: post
    /\ existsb failed_task pre = false
    /\ is_CancelledError e = false.
Proof.
  induction l as [|t l IH]; [discriminate|].
  cbn [existsb]. destruct (failed_task t) eqn:Ht.
  - intros _. destruct t as [fate| |[|e|]]; try discriminate.
    exists [], e, l. cbn in Ht. apply negb_true_iff in Ht. auto.
  - cbn. intros H. destruct (IH H) as (pre & e & post & -> & Hpre & He).
    exists (t :: pre), e, post. cbn. rewrite Ht. auto.
Qed.

(** The two ways [shutdown] ends. *)
Lemma shutdown_outcome (self : Bridge) :
  (existsb failed_task (_tasks self) = false
   /\ exec shutdown self = (Return tt, shut_down self, []))
  \/ (exists e pre post,
        _tasks self = pre ++ done (failed e) :: post
        /\ is_CancelledError e = false
        /\ exec shutdown self
           = (Raised e,
              set_tasks (map settle (map task_cancel pre)
                           ++ done (failed e) :: map task_cancel post) self,
              [])).
Proof.
  destruct (existsb failed_task (_tasks self)) eqn:H.
  - right. destruct (first_failed_task _ H) as (pre & e & post & Ht & Hpre & He).
    exists e, pre, post. split; [assumption|]. split; [assumption|].
    apply exec_shutdown_failed; assumption.
  - left. split; [reflexivity|]. apply exec_shutdown. assumption.
Qed.

Lemma start_connected (speech : SpeechSettings) (env : Environment)
    (cfg : Settings) :
  connecting env = Return tt ->
  Lifecycle.start speech env (__init__ cfg)
  = (match send_failure env (setup_messages speech) with
     | None => Return tt
     | Some e => Raised e
     end, connected cfg, session_setup speech env).
Proof.
  intros Hc.
  unfold Lifecycle.start, Lifecycle._initialize_session,
    Lifecycle._send_initial_conversation_item, Lifecycle.openai_ws_send_setup,
    Lifecycle.call_bind, Lifecycle.call_try, session_setup, setup_messages.
  cbn. rewrite Hc. cbn.
  repeat (destruct (sending env _) as [[]|?]; cbn; try reflexivity).
Qed.

Lemma sent_all (env : Environment) (ms : list session_out) :
  send_failure env ms = None -> sent env ms = ms.
Proof.
  induction ms as [|m ms IH]; cbn; [reflexivity|].
  destruct (sending env m) as [[]|e]; [|discriminate].
  intros H. rewrite (IH H). reflexivity.
Qed.

Lemma send_failure_none (env : Environment) (ms : list session_out) :
  (forall m, sending env m = Return tt) -> send_failure env ms = None.
Proof.
  intros H. induction ms as [|m ms IH]; cbn; [reflexivity|].
  rewrite (H m). exact IH.
Qed.

Lemma start_refused (speech : SpeechSettings) (env : Environment)
    (cfg : Settings) (e : exn) :
  connecting env = Raised e ->
  Lifecycle.start speech env (__init__ cfg)
  = (Raised e, __init__ cfg,
     [ websocket_accept (Lifecycle.subprotocol_of (subprotocol_header env));
       websockets_connect
         ("wss://api.openai.com/v1/realtime?model=" ++ openai_model speech
          ++ "&temperature=" ++ openai_temperature speech)
         ("Bearer " ++ openai_api_key speech) ]
     ++ if is_Exception e
        then [bridge_effect
                (logged EXCEPTION "Failed to connect to OpenAI Realtime API")]
        else []).
Proof.
  intros Hc. unfold Lifecycle.start, Lifecycle.call_bind, Lifecycle.call_try.
  cbn. rewrite Hc. cbn. destruct (is_Exception e); reflexivity.
Qed.

(** X18: when the connection to the speech service cannot be made,
    [media_stream] logs the failure, starts no relay and sends nothing of
    the session set-up; it closes the caller socket it had accepted, and
    the exception of the failed connection is what it raises. *)
Theorem connection_failure_closes_caller_socket
    (yields : io -> bool) (speech : SpeechSettings) (cfg : Settings)
    (env : Environment) (e : exn) :
  connecting env = Raised e ->
  is_Exception e = true ->
  is_WebSocketDisconnect e = false ->
  Lifecycle.media_stream yields speech cfg env
  = (Raised e, set_websocket_closed true (__init__ cfg),
     [ websocket_accept (Lifecycle.subprotocol_of (subprotocol_header env));
       websockets_connect
         ("wss://api.openai.com/v1/realtime?model=" ++ openai_model speech
          ++ "&temperature=" ++ openai_temperature speech)
         ("Bearer " ++ openai_api_key speech);
       bridge_effect
         (logged EXCEPTION "Failed to connect to OpenAI Realtime API") ]).
Proof.
  intros Hc He Hw.
  unfold Lifecycle.media_stream, Lifecycle.call_finally, Lifecycle.call_try,
    Lifecycle.call_bind.
  rewrite (start_refused speech env cfg e Hc), He, Hw.
  assert (Hcancel : is_CancelledError e = false)
    by (destruct e; try reflexivity; discriminate He).
  rewrite Hcancel. reflexivity.
Qed.

Lemma connection_failure_closes_caller_socket_witness :
  let speech :=
    {| openai_api_key := "sk-test"; openai_model := "gpt-realtime";
       openai_voice := "alloy"; openai_system_prompt := "Be brief.";
       openai_temperature := "0.8" |} in
  let cfg := {| log_event_types := []; show_timing_math := false |} in
  let env :=
    {| subprotocol_header := None; connecting := Raised ConnectionClosed;
       sending := fun _ => Return tt;
       twilio_frames := [start_message "MZ1"]; twilio_end := Return tt;
       openai_events := []; openai_end := Return tt;
       loop := [receive_turn; send_turn]; fate := finished |} in
  Lifecycle.media_stream every_await speech cfg env
  = (Raised ConnectionClosed, set_websocket_closed true (__init__ cfg),
     [ websocket_accept None;
       websockets_connect
         "wss://api.openai.com/v1/realtime?model=gpt-realtime&temperature=0.8"
         "Bearer sk-test";
       bridge_effect
         (logged EXCEPTION "Failed to connect to OpenAI Realtime API") ]).
Proof.
  exact (connection_failure_closes_caller_socket every_await
           {| openai_api_key := "sk-test"; openai_model := "gpt-realtime";
              openai_voice := "alloy"; openai_system_prompt := "Be brief.";
              openai_temperature := "0.8" |}
           {| log_event_types := []; show_timing_math := false |}
           {| subprotocol_header := None; connecting := Raised ConnectionClosed;
              sending := fun _ => Return tt;
              twilio_frames := [start_message "MZ1"]; twilio_end := Return tt;
              openai_events := []; openai_end := Return tt;
              loop := [receive_turn; send_turn]; fate := finished |}
           ConnectionClosed eq_refl eq_refl eq_refl).
Defined.

Lemma step_keeps_completed (yields : io -> bool) (t : turn) (c : Relays) :
  (forall r, receive_task c = Completed r ->
             receive_task (fst (step yields t c)) = Completed r)
  /\ (forall r, send_task c = Completed r ->
                send_task (fst (step yields t c)) = Completed r).
Proof.
  split; intros r Hr; destruct t; cbn.
  - rewrite Hr. exact Hr.
  - destruct (send_task c) as [r'|k]; [exact Hr|].
    destruct (resume yields k (bridge c)) as [[p s] out]. exact Hr.
  - destruct (receive_task c) as [r'|k]; [exact Hr|].
    destruct (resume yields k (bridge c)) as [[p s] out]. exact Hr.
  - rewrite Hr. exact Hr.
Qed.

Lemma schedule_keeps_completed (yields : io -> bool) (ts : list turn) :
  forall c,
  (forall r, receive_task c = Completed r ->
             receive_task (fst (schedule yields ts c)) = Completed r)
  /\ (forall r, send_task c = Completed r ->
                send_task (fst (schedule yields ts c)) = Completed r).
Proof.
  induction ts as [|t ts IH]; intros c; [split; auto|].
  cbn [schedule].
  destruct (step_keeps_completed yields t c) as [H1 H2].
  destruct (step yields t c) as [c1 out1]. cbn [fst] in *.
  destruct (IH c1) as [H3 H4].
  destruct (schedule yields ts c1) as [c2 out2]. cbn [fst] in *.
  split; intros r Hr; auto.
Qed.

(** [gather] runs the tasks as some schedule does. *)
Lemma gather_schedule (yields : io -> bool) (ts : list turn) :
  forall c, exists ts',
    schedule yields ts' c
    = (snd (fst (Lifecycle.gather yields ts c)),
       snd (Lifecycle.gather yields ts c)).
Proof.
  induction ts as [|t ts IH]; intros c.
  - exists []. cbn.
    destruct (Lifecycle.gather_result c) as [[|e|]|]; reflexivity.
  - cbn [Lifecycle.gather].
    destruct (Lifecycle.gather_result c) as [[|e|]|].
    + exists []. reflexivity.
    + exists (t :: ts).
      destruct (schedule yields (t :: ts) c) as [c' out]. reflexivity.
    + exists []. reflexivity.
    + destruct (IH (fst (step yields t c))) as [ts' Hts'].
      exists (t :: ts'). cbn [schedule].
      destruct (step yields t c) as [c1 out1]. cbn [fst] in *.
      rewrite Hts'.
      destruct (Lifecycle.gather yields ts c1) as [[g c2] out2]. reflexivity.
Qed.

(** What [gather] reports, against the tasks as it leaves them. *)
Lemma gather_report (yields : io -> bool) (ts : list turn) :
  forall c,
  match fst (fst (Lifecycle.gather yields ts c)) with
  | all_done =>
      receive_task (snd (fst (Lifecycle.gather yields ts c)))
      = Completed (Return tt)
      /\ send_task (snd (fst (Lifecycle.gather yields ts c)))
         = Completed (Return tt)
  | first_raised e =>
      receive_task (snd (fst (Lifecycle.gather yields ts c)))
      = Completed (Raised e)
      \/ send_task (snd (fst (Lifecycle.gather yields ts c)))
         = Completed (Raised e)
  | wait_cancelled =>
      Lifecycle.gather_result (snd (fst (Lifecycle.gather yields ts c))) = None
  end.
Proof.
  assert (Hnow : forall c g,
             Lifecycle.gather_result c = Some g ->
             match g with
             | all_done =>
                 receive_task c = Completed (Return tt)
                 /\ send_task c = Completed (Return tt)
             | first_raised e =>
                 receive_task c = Completed (Raised e)
                 \/ send_task c = Completed (Raised e)
             | wait_cancelled => False
             end).
  { intros c g. unfold Lifecycle.gather_result.
    destruct (receive_task c) as [[[]|e]|k], (send_task c) as [[[]|e']|k'];
      intros H; try discriminate H; injection H as <-; auto. }
  induction ts as [|t ts IH]; intros c.
  - cbn. destruct (Lifecycle.gather_result c) as [g|] eqn:E.
    + pose proof (Hnow c g E) as H.
      destruct g as [|e|]; cbn; try exact H. contradiction.
    + cbn. exact E.
  - cbn [Lifecycle.gather].
    destruct (Lifecycle.gather_result c) as [g|] eqn:E.
    + pose proof (Hnow c g E) as H.
      destruct g as [|e|].
      * exact H.
      * destruct (schedule_keeps_completed yields (t :: ts) c) as [H1 H2].
        destruct (schedule yields (t :: ts) c) as [c' out].
        cbn [fst snd] in *.
        destruct H as [H|H]; [left; apply H1 | right; apply H2]; exact H.
      * contradiction.
    + specialize (IH (fst (step yields t c))).
      destruct (step yields t c) as [c1 out1]. cbn [fst] in *.
      destruct (Lifecycle.gather yields ts c1) as [[g c2] out2].
      cbn [fst snd] in *. exact IH.
Qed.

(** [media_stream] when a send of the session set-up fails: no relay is
    started, and [shutdown] takes the call down. *)
Lemma media_stream_send_failed (yields : io -> bool)
    (speech : SpeechSettings) (cfg : Settings) (env : Environment)
    (e : exn) :
  connecting env = Return tt ->
  send_failure env (setup_messages speech) = Some e ->
  Lifecycle.media_stream yields speech cfg env
  = (fst (caught (Raised e)), shut_down (connected cfg),
     session_setup speech env ++ snd (caught (Raised e))).
Proof.
  intros Hc He.
  unfold Lifecycle.media_stream, Lifecycle.call_finally, Lifecycle.call_try,
    Lifecycle.call_bind.
  rewrite (start_connected speech env cfg Hc), He.
  unfold caught.
  destruct (is_WebSocketDisconnect e); [|destruct (is_CancelledError e)];
    cbn; rewrite ?app_nil_r; reflexivity.
Qed.

(** [media_stream] once the connection to the speech service is made and
    the session is set up. *)
Lemma media_stream_connected (yields : io -> bool) (speech : SpeechSettings)
    (cfg : Settings) (env : Environment) :
  connecting env = Return tt ->
  send_failure env (setup_messages speech) = None ->
  Lifecycle.media_stream yields speech cfg env
  = let g := fst (fst (gathered_relays yields cfg env)) in
    let out := snd (gathered_relays yields cfg env) in
    let '(r, self, out') := exec shutdown (after_run yields cfg env) in
    (match r with Return _ => fst (handled g) | Raised e => Raised e end,
     self,
     session_setup speech env ++ map bridge_effect out ++ snd (handled g)
       ++ map bridge_effect out').
Proof.
  intros Hc Hsent.
  unfold Lifecycle.media_stream, Lifecycle.call_finally, Lifecycle.call_try,
    Lifecycle.call_bind.
  rewrite (start_connected speech env cfg Hc), Hsent.
  unfold Lifecycle.run, after_run, gathered_relays, Lifecycle.lift.
  cbn [connected openai_ws set_openai_ws negb].
  fold (connected cfg).
  destruct (Lifecycle.gather yields (loop env) _) as [[g c] out].
  cbn [fst snd]. unfold handled, caught.
  destruct (Lifecycle.gathered_outcome g) as [[]|e] eqn:Eg.
  - destruct (exec shutdown _) as [[[u|e'] s2] out2]; cbn;
      rewrite ?app_nil_r, <- ?app_assoc; reflexivity.
  - destruct (is_WebSocketDisconnect e); [|destruct (is_CancelledError e)];
      unfold Lifecycle.call_logger, Lifecycle.emit;
      destruct (exec shutdown _) as [[[u|e'] s2] out2]; cbn;
      rewrite ?app_nil_r, <- ?app_assoc; reflexivity.
Qed.

(** ** Tasks that keep an invariant of their own

    When the obligations of a task do not mention what the other task may
    change, suspending at every awaited operation is the hardest case: a
    task that meets them there meets them under every choice of
    suspension points. *)

Section AnyYields.

Variable Inv : Bridge -> Prop.
Variable ok : effect -> Prop.

Lemma wp_any_yields {A : Type} (p : Prog A) (Q : result A -> Bridge -> Prop) :
  forall s0 s,
  wp every_await Inv any_change ok p (fun r _ b => Q r b) s0 s ->
  forall (yields : io -> bool) s0',
  wp yields Inv any_change ok p (fun r _ b => Q r b) s0' s.
Proof.
  induction p as [a|e|k IH|s' k IH|l m k IH|op k IH]; intros s0 s; cbn.
  - auto.
  - auto.
  - intros H yields s0'. eapply IH, H.
  - intros H yields s0'. eapply IH, H.
  - intros H yields s0'. eapply IH, H.
  - intros [Hok (HI & _ & H)] yields s0'. split; [exact Hok|].
    destruct (yields op).
    + split; [exact HI|]. split; [exact I|].
      intros s2 H2 _. eapply IH, H; [exact H2 | exact I].
    + eapply IH, H; [exact HI | exact I].
Qed.

End AnyYields.

Ltac sockets_goal :=
  unfold at_rest, returns, sockets_in_use, any_change in *;
  cbn in *;
  repeat match goal with
         | |- _ /\ _ => split
         | |- Forall _ [] => constructor
         | |- Forall _ (_ :: _) => constructor
         | |- forall _, _ => intro
         | H : _ /\ _ |- _ => destruct H
         end;
  cbn in *;
  try solve [assumption | exact I | reflexivity | congruence].

Ltac sockets := repeat (progress (run_all; sockets_goal)).

Lemma receive_body_sockets (yields : io -> bool) (data : TwilioMessage)
    (s : Bridge) :
  sockets_in_use s ->
  wp yields sockets_in_use any_change (fun _ => True)
     (receive_from_twilio_body data)
     (at_rest sockets_in_use any_change) s s.
Proof.
  intros Hs.
  apply (wp_any_yields sockets_in_use (fun _ => True)
           (receive_from_twilio_body data)
           (fun _ b => sockets_in_use b /\ True) s s).
  destruct data as [ev [[[[[t| | |]|] [pl|]]|]|] [[[[sid|]]|]|]];
    unfold receive_from_twilio_body; sockets.
Qed.

Lemma handle_audio_delta_returns (response : OpenAIEvent) (s0 s : Bridge) :
  sockets_in_use s ->
  wp every_await sockets_in_use any_change (fun _ => True)
     (_handle_audio_delta response) (returns sockets_in_use) s0 s.
Proof.
  intros Hs. pose proof (reencode_raises_Exception response) as Hexn.
  unfold _handle_audio_delta, _send_mark.
  destruct (reencode response) as [audio_payload|e];
    [|rewrite (Hexn e eq_refl)]; clear Hexn; sockets.
Qed.

Lemma handle_speech_started_returns (s0 s : Bridge) :
  sockets_in_use s ->
  wp every_await sockets_in_use any_change (fun _ => True)
     _handle_speech_started_event (returns sockets_in_use) s0 s.
Proof.
  intros Hs. unfold _handle_speech_started_event.
  destruct (mark_queue s) eqn:Hq; [sockets|].
  destruct (response_start_timestamp_twilio s) eqn:Hr; sockets.
Qed.

Lemma send_body_returns (yields : io -> bool) (response : OpenAIEvent)
    (s : Bridge) :
  sockets_in_use s ->
  wp yields sockets_in_use any_change (fun _ => True)
     (send_to_twilio_body response) (returns sockets_in_use) s s.
Proof.
  intros Hs.
  apply (wp_any_yields sockets_in_use (fun _ => True)
           (send_to_twilio_body response)
           (fun r b => sockets_in_use b /\ r = Return tt) s s).
  unfold send_to_twilio_body. cbn [bind get wp]. apply wp_bind.
  eapply wp_mono with (Q := returns sockets_in_use);
    [|destruct (in_tuple _ _); cbn; (split; [exact Hs | reflexivity])].
  intros r a b [Hb ->]. apply wp_bind.
  eapply wp_mono with (Q := returns sockets_in_use);
    [|destruct (_ && _);
      [apply handle_audio_delta_returns, Hb | split; [exact Hb | reflexivity]]].
  intros r a' b' [Hb' ->]. cbn [bind get wp].
  destruct (_ && _); [|split; [exact Hb' | reflexivity]].
  cbn [bind logger wp]. apply handle_speech_started_returns, Hb'.
Qed.

Lemma send_body_sockets (yields : io -> bool) (response : OpenAIEvent)
    (s : Bridge) :
  sockets_in_use s ->
  wp yields sockets_in_use any_change (fun _ => True)
     (send_to_twilio_body response)
     (at_rest sockets_in_use any_change) s s.
Proof.
  intros Hs. eapply wp_mono; [|apply send_body_returns, Hs].
  intros r a b [Hb _]. split; [exact Hb | exact I].
Qed.

Lemma receive_body_returns (yields : io -> bool) (data : TwilioMessage)
    (s : Bridge) :
  well_formed data ->
  sockets_in_use s ->
  wp yields sockets_in_use any_change (fun _ => True)
     (receive_from_twilio_body data) (returns sockets_in_use) s s.
Proof.
  intros [Hmedia Hstart] Hs.
  apply (wp_any_yields sockets_in_use (fun _ => True)
           (receive_from_twilio_body data)
           (fun r b => sockets_in_use b /\ r = Return tt) s s).
  unfold receive_from_twilio_body.
  destruct (is_str (event data) "media") eqn:E1.
  - apply is_str_eq in E1. destruct (Hmedia E1) as (t & audio & ->).
    rewrite E1. sockets.
  - destruct (is_str (event data) "start") eqn:E2.
    + apply is_str_eq in E2. destruct (Hstart E2) as (sid & ->). sockets.
    + sockets.
Qed.

Section Returning.

Variable yields : io -> bool.
Variable Inv : Bridge -> Prop.

Hypothesis yields_next : yields next_message = true.

Lemma resume_returns (p : Prog unit) : forall s0 s,
  wp yields Inv any_change (fun _ => True) p (returns Inv) s0 s ->
  Inv (snd (fst (resume yields p s)))
  /\ task_returns yields Inv (fst (fst (resume yields p s))).
Proof.
  induction p as [a|e|k IH|s' k IH|l m k IH|op k IH]; intros s0 s; cbn.
  - intros [HI Hr]. split; assumption.
  - intros [HI Hr]. split; assumption.
  - apply IH.
  - apply IH.
  - intros H. specialize (IH _ _ H).
    destruct (resume yields k s) as [[p' s1] out]. exact IH.
  - intros [_ H].
    destruct (perform op s) as [[r s1] out1]. cbn in *.
    destruct (yields op).
    + cbn. destruct H as (HI & _ & H). split; [exact HI|].
      intros s2 H2. apply H; [exact H2 | exact I].
    + specialize (IH _ _ _ H).
      destruct (resume yields (k r) s1) as [[p' s2] out2]. exact IH.
Qed.

Lemma step_returns (t : turn) (c : Relays) :
  relays_return yields Inv c ->
  relays_return yields Inv (fst (step yields t c)).
Proof.
  intros (HI & Hr & Hs). destruct t; cbn.
  - destruct (receive_task c) as [r|k] eqn:Et.
    + cbn. unfold relays_return. rewrite Et. auto.
    + cbn in Hr. specialize (Hr _ HI). apply resume_returns in Hr.
      destruct (resume yields k (bridge c)) as [[p' s1] out]. cbn in *.
      destruct Hr as [H1 H2]. split; [exact H1|]. split; assumption.
  - destruct (send_task c) as [r|k] eqn:Et.
    + cbn. unfold relays_return. rewrite Et. auto.
    + cbn in Hs. specialize (Hs _ HI). apply resume_returns in Hs.
      destruct (resume yields k (bridge c)) as [[p' s1] out]. cbn in *.
      destruct Hs as [H1 H2]. split; [exact H1|]. split; assumption.
Qed.

Lemma schedule_returns (ts : list turn) : forall c,
  relays_return yields Inv c ->
  relays_return yields Inv (fst (schedule yields ts c)).
Proof.
  induction ts as [|t ts IH]; intros c Hc; cbn; [exact Hc|].
  pose proof (step_returns t c Hc) as H1.
  destruct (step yields t c) as [c1 out1]. cbn in *.
  specialize (IH c1 H1).
  destruct (schedule yields ts c1) as [c2 out2]. exact IH.
Qed.

Lemma wp_async_for_returns {X : Type} (body : X -> Prog unit)
    (good : X -> Prop) (ending : result unit) (xs : list X) :
  (forall x s, good x -> Inv s ->
     wp yields Inv any_change (fun _ => True) (body x) (returns Inv) s s) ->
  Forall good xs ->
  forall s0 s, Inv s ->
  wp yields Inv any_change (fun _ => True) (async_for xs ending body)
     (fun r _ b => Inv b /\ r = stream_end ending) s0 s.
Proof.
  intros Hbody. induction 1 as [|x xs Hx Hxs IH]; intros s0 s HI; cbn.
  - split; [constructor|]. rewrite yields_next.
    split; [exact HI|]. split; [exact I|].
    intros s2 H2 _. destruct ending as [[]|e]; cbn; split; auto.
  - split; [constructor|]. rewrite yields_next.
    split; [exact HI|]. split; [exact I|].
    intros s2 H2 _. apply wp_bind.
    eapply wp_mono; [|apply Hbody; auto].
    intros r a b [Hb ->]. apply IH, Hb.
Qed.

(** The two relays return when their loops never fail and their streams
    end as a call ends. *)
Lemma relays_return_intro (good : TwilioMessage -> Prop)
    (self : Bridge) (frames : list TwilioMessage) (frames_end : result unit)
    (events : list OpenAIEvent) (events_end : result unit) :
  (forall data s, good data -> Inv s ->
     wp yields Inv any_change (fun _ => True)
        (receive_from_twilio_body data) (returns Inv) s s) ->
  (forall response s, Inv s ->
     wp yields Inv any_change (fun _ => True)
        (send_to_twilio_body response) (returns Inv) s s) ->
  (forall s, Inv s -> Inv (set_openai_state CLOSED s)) ->
  (forall s, Inv s -> openai_ws s = true) ->
  Forall good frames ->
  hangs_up frames_end ->
  closes events_end ->
  Inv self ->
  relays_return yields Inv
                (relays self frames frames_end events events_end).
Proof.
  intros Hrecv Hsend Hclose Hws Hgood Hf He HI.
  split; [exact HI|]. split; cbn; intros s2 H2.
  - rewrite (Hws s2 H2). cbn. apply wp_try_except.
    eapply wp_mono;
      [|apply (wp_async_for_returns receive_from_twilio_body good); auto].
    intros r a b [Hb ->]. destruct Hf as [->| ->]; cbn; [split; auto|].
    rewrite (Hws b Hb). cbn.
    destruct (openai_state b) eqn:Es; cbn; try (split; auto).
    destruct (yields openai_ws_close).
    + split; [apply Hclose, Hb|]. split; [exact I|].
      intros s3 H3 _. split; auto.
    + split; [apply Hclose, Hb | reflexivity].
  - rewrite (Hws s2 H2). cbn. apply wp_try_except.
    eapply wp_mono;
      [|apply (wp_async_for_returns send_to_twilio_body (fun _ => True));
        auto].
    + intros r a b [Hb ->]. destruct He as [->| ->]; cbn; split; auto.
    + clear. induction events; constructor; auto.
Qed.

(** Tasks that return leave [gather] nothing to raise. *)
Lemma gather_returns (ts : list turn) : forall c,
  relays_return yields Inv c ->
  relays_return yields Inv (snd (fst (Lifecycle.gather yields ts c)))
  /\ forall e, fst (fst (Lifecycle.gather yields ts c)) <> first_raised e.
Proof.
  assert (Hnow : forall c e, relays_return yields Inv c ->
                   Lifecycle.gather_result c <> Some (first_raised e)).
  { intros c e (_ & Hr & Hs). unfold Lifecycle.gather_result.
    destruct (receive_task c) as [[[]|e1]|k1]; cbn in Hr; try discriminate;
      destruct (send_task c) as [[[]|e2]|k2]; cbn in Hs; discriminate. }
  induction ts as [|t ts IH]; intros c Hc.
  - cbn. destruct (Lifecycle.gather_result c) as [[|e|]|] eqn:E; cbn;
      try (split; [exact Hc | discriminate]).
    exfalso. exact (Hnow c e Hc E).
  - cbn [Lifecycle.gather].
    destruct (Lifecycle.gather_result c) as [[|e|]|] eqn:E; cbn;
      try (split; [exact Hc | discriminate]).
    + exfalso. exact (Hnow c e Hc E).
    + pose proof (step_returns t c Hc) as H1.
      destruct (step yields t c) as [c1 out1]. cbn [fst] in *.
      specialize (IH c1 H1).
      destruct (Lifecycle.gather yields ts c1) as [[g c2] out2]. exact IH.
Qed.

End Returning.

Lemma session_writes_app (a b : list call_effect) :
  session_writes (a ++ b) = session_writes a ++ session_writes b.
Proof.
  induction a as [|[p|u h|m|e] a IH]; cbn; rewrite ?IH; reflexivity.
Qed.

Lemma session_writes_bridge (out : list effect) :
  session_writes (map bridge_effect out) = [].
Proof. induction out; cbn; auto. Qed.

Lemma session_writes_map (ms : list session_out) :
  session_writes (map session_write ms) = ms.
Proof. induction ms as [|m ms IH]; cbn; [|rewrite IH]; reflexivity. Qed.

Lemma session_writes_setup (speech : SpeechSettings) (env : Environment) :
  session_writes (session_setup speech env) = sent env (setup_messages speech).
Proof.
  unfold session_setup. rewrite session_writes_app, session_writes_map.
  reflexivity.
Qed.

Lemma caught_logs (r : result unit) :
  exists logs, snd (caught r) = map bridge_effect logs.
Proof.
  unfold caught. destruct r as [[]|e].
  - exists []. reflexivity.
  - destruct (is_WebSocketDisconnect e); [|destruct (is_CancelledError e)];
      eexists; cbn; try reflexivity.
    + instantiate (1 := [_]). reflexivity.
    + instantiate (1 := [_]). reflexivity.
    + instantiate (1 := []). reflexivity.
Qed.

(** Whatever becomes of the session set-up, what the call does after the
    connection is what [start] writes and then the work of the relays, of
    the [except] clauses and of [shutdown]. *)
Lemma effects_after_connect (yields : io -> bool) (speech : SpeechSettings)
    (cfg : Settings) (env : Environment) :
  connecting env = Return tt ->
  exists rest,
    call_effects (Lifecycle.media_stream yields speech cfg env)
    = session_setup speech env ++ map bridge_effect rest.
Proof.
  intros Hc.
  destruct (send_failure env (setup_messages speech)) as [e|] eqn:Hsent.
  - rewrite (media_stream_send_failed yields speech cfg env e Hc Hsent).
    destruct (caught_logs (Raised e)) as [logs ->].
    exists logs. reflexivity.
  - rewrite media_stream_connected by assumption. cbv zeta.
    destruct (caught_logs
                (Lifecycle.gathered_outcome
                   (fst (fst (gathered_relays yields cfg env)))))
      as [logs Hlogs].
    unfold handled. rewrite Hlogs.
    destruct (exec shutdown (after_run yields cfg env)) as [[r s] out'].
    unfold call_effects. cbn [snd].
    exists (snd (gathered_relays yields cfg env) ++ logs ++ out').
    rewrite !map_app. reflexivity.
Qed.

(** X19: once the connection to the speech service is made, the session
    is set up before anything is relayed.  The set-up messages
    ([session.update] with model, voice and instructions of the settings,
    [conversation.item.create], [response.create]) are written in this
    order, once, right after the connection, up to the first of their
    sends that fails; everything the call does after that is the work of
    the relays, of the [except] clauses and of [shutdown].  When no send
    fails, all three messages are written. *)
Theorem session_setup_comes_first
    (yields : io -> bool) (speech : SpeechSettings) (cfg : Settings)
    (env : Environment) :
  connecting env = Return tt ->
  let r := Lifecycle.media_stream yields speech cfg env in
  session_writes (call_effects r) = sent env (setup_messages speech)
  /\ (exists rest,
        call_effects r = session_setup speech env ++ map bridge_effect rest)
  /\ ((forall m, sending env m = Return tt) ->
      session_writes (call_effects r)
      = [ session_update "realtime" (openai_model speech) ["audio"]
            "audio/pcmu" "server_vad" "audio/pcmu"
            (openai_voice speech) (openai_system_prompt speech);
          conversation_item_create "message" "user" "input_text"
            ("Deliver the short introduction described in your system "
             ++ "instructions, then wait for the caller's response.");
          response_create ]).
Proof.
  intros Hc r.
  pose proof (effects_after_connect yields speech cfg env Hc) as H.
  fold r in H.
  assert (Hw : session_writes (call_effects r)
               = sent env (setup_messages speech)).
  { destruct H as [rest ->].
    rewrite session_writes_app, session_writes_bridge, session_writes_setup.
    apply app_nil_r. }
  split; [exact Hw|]. split; [exact H|].
  intros Hall. rewrite Hw. apply sent_all, send_failure_none, Hall.
Qed.

Lemma session_setup_comes_first_witness :
  session_writes
    (call_effects
       (Lifecycle.media_stream every_await example_speech example_settings
                               example_call))
  = [ session_update "realtime" "gpt-realtime" ["audio"]
        "audio/pcmu" "server_vad" "audio/pcmu" "alloy" "Be brief.";
      conversation_item_create "message" "user" "input_text"
        "Deliver the short introduction described in your system instructions, then wait for the caller's response.";
      response_create ]
  /\ session_writes
       (call_effects
          (Lifecycle.media_stream every_await example_speech example_settings
                                  example_dropped_call))
     = [ session_update "realtime" "gpt-realtime" ["audio"]
           "audio/pcmu" "server_vad" "audio/pcmu" "alloy" "Be brief." ].
Proof.
  split.
  - apply (proj2 (proj2
             (session_setup_comes_first every_await example_speech
                example_settings example_call eq_refl))).
    intros m. reflexivity.
  - exact (proj1
             (session_setup_comes_first every_await example_speech
                example_settings example_dropped_call eq_refl)).
Defined.

(** X20: whenever [media_stream] returns, the call has been taken down:
    the caller socket is closed, the connection to the speech service is
    released, and no task is left in [_tasks]. *)
Theorem media_stream_return_closes
    (yields : io -> bool) (speech : SpeechSettings) (cfg : Settings)
    (env : Environment) :
  let r := Lifecycle.media_stream yields speech cfg env in
  call_outcome r = Return tt ->
  websocket_closed (call_final r) = true
  /\ openai_ws (call_final r) = false
  /\ _tasks (call_final r) = [].
Proof.
  intros r. subst r. destruct (connecting env) as [[]|e] eqn:Hc.
  - destruct (send_failure env (setup_messages speech)) as [e|] eqn:Hsent.
    + rewrite (media_stream_send_failed yields speech cfg env e Hc Hsent).
      intros _. repeat split.
    + rewrite media_stream_connected by assumption. cbv zeta.
      destruct (shutdown_outcome (after_run yields cfg env))
        as [[Hno ->]|(e & pre & post & Ht & He & ->)];
        unfold call_outcome, call_final; cbn [fst snd]; [|discriminate].
      intros _. generalize (after_run yields cfg env). intros self.
      split; [shut_down_cases self|].
      split; shut_down_cases self.
  - unfold Lifecycle.media_stream, Lifecycle.call_finally, Lifecycle.call_try,
      Lifecycle.call_bind.
    rewrite (start_refused speech env cfg e Hc).
    destruct (is_WebSocketDisconnect e); [|destruct (is_CancelledError e)];
      cbn; try discriminate; intros _; repeat split.
Qed.

Lemma media_stream_return_closes_witness :
  let r :=
    Lifecycle.media_stream every_await example_speech example_settings
                           example_call in
  call_outcome r = Return tt
  /\ websocket_closed (call_final r) = true
  /\ openai_ws (call_final r) = false
  /\ _tasks (call_final r) = [].
Proof.
  split; [reflexivity|].
  apply (media_stream_return_closes every_await example_speech example_settings
                                    example_call).
  reflexivity.
Defined.

Lemma sockets_in_use_closed (s : Bridge) :
  sockets_in_use s -> sockets_in_use (set_openai_state CLOSED s).
Proof. intros H. exact H. Qed.

(** The relays close neither socket of their own accord. *)
Lemma gathered_sockets (yields : io -> bool) (cfg : Settings)
    (env : Environment) :
  yields next_message = true ->
  sockets_in_use (bridge (snd (fst (gathered_relays yields cfg env)))).
Proof.
  intros Hnext. unfold gathered_relays.
  destruct (gather_schedule yields (loop env)
              (relays (connected cfg) (twilio_frames env) (twilio_end env)
                      (openai_events env) (openai_end env))) as [ts' Hts'].
  assert (Hok : relays_ok yields sockets_in_use any_change (fun _ => True)
                  (relays (connected cfg) (twilio_frames env) (twilio_end env)
                          (openai_events env) (openai_end env))).
  { apply relays_sound with (good := fun _ => True);
      try solve [intros; exact I | assumption].
    - intros data s _ Hs. apply receive_body_sockets, Hs.
    - intros response s Hs. apply send_body_sockets, Hs.
    - intros s Hs. split; [exact Hs | exact I].
    - apply Forall_trivial.
    - split; reflexivity. }
  apply (schedule_sound yields sockets_in_use any_change (fun _ => True))
    with (ts := ts') in Hok; try solve [intros; exact I].
  rewrite Hts' in Hok. apply Hok.
Qed.

Lemma task_status_failed (g : gathered) (running_fate : task_end) (e : exn) :
  is_CancelledError e = false ->
  Lifecycle.task_status g running_fate (Completed (Raised e))
  = done (failed e).
Proof. intros He. cbn. rewrite He. reflexivity. Qed.

(** X21: the two ways [media_stream] raises after the connection to the
    speech service was made.  When a send of the session set-up fails, its
    exception is what [media_stream] raises; no relay has been started,
    and [shutdown] has taken the call down: the caller socket is closed,
    the connection released, and there is no task.  When the session was
    set up, the exception is that of a relay task that failed; it comes
    from [shutdown], which has stopped at that task, and the call is not
    taken down: the caller socket is not closed, the connection to the
    speech service is not released, and the failed task is still in
    [_tasks]. *)
Theorem media_stream_failure_after_connect
    (yields : io -> bool) (speech : SpeechSettings) (cfg : Settings)
    (env : Environment) (e : exn) :
  yields next_message = true ->
  connecting env = Return tt ->
  let r := Lifecycle.media_stream yields speech cfg env in
  call_outcome r = Raised e ->
  match send_failure env (setup_messages speech) with
  | Some e' =>
      e' = e
      /\ call_effects r = session_setup speech env
      /\ websocket_closed (call_final r) = true
      /\ openai_ws (call_final r) = false
      /\ _tasks (call_final r) = []
  | None =>
      websocket_closed (call_final r) = false
      /\ openai_ws (call_final r) = true
      /\ In (done (failed e)) (_tasks (call_final r))
  end.
Proof.
  intros Hnext Hc r. subst r.
  destruct (send_failure env (setup_messages speech)) as [e'|] eqn:Hsent.
  { rewrite (media_stream_send_failed yields speech cfg env e' Hc Hsent).
    unfold call_outcome, call_final, call_effects, caught. cbn [fst snd].
    destruct (is_WebSocketDisconnect e'); [discriminate|].
    destruct (is_CancelledError e'); [discriminate|].
    cbn [fst snd]. intros Hr. injection Hr as <-.
    rewrite app_nil_r. repeat split. }
  rewrite media_stream_connected by assumption. cbv zeta.
  pose proof (gathered_sockets yields cfg env Hnext) as [Hclosed Hws].
  pose proof (gather_report yields (loop env)
                (relays (connected cfg) (twilio_frames env) (twilio_end env)
                        (openai_events env) (openai_end env))) as Hrep.
  fold (gathered_relays yields cfg env) in Hrep.
  destruct (shutdown_outcome (after_run yields cfg env))
    as [[Hno ->]|(e' & pre & post & Ht & He' & ->)];
    unfold call_outcome, call_final; cbn [fst snd].
  - (* [shutdown] returned: the [try] block cannot have raised *)
    intros Hr. exfalso.
    unfold after_run in Hno.
    destruct (gathered_relays yields cfg env) as [[g c] out].
    cbn [fst snd] in *. unfold handled, caught in Hr.
    destruct g as [|e1|]; cbn in Hr; try discriminate Hr.
    + destruct (is_WebSocketDisconnect e1) eqn:Hw; [discriminate Hr|].
      destruct (is_CancelledError e1) eqn:Hcancel; [discriminate Hr|].
      cbn [_tasks set_tasks existsb] in Hno.
      destruct Hrep as [Hrep|Hrep]; rewrite Hrep in Hno;
        rewrite (task_status_failed _ _ _ Hcancel) in Hno;
        cbn in Hno; rewrite Hcancel in Hno; cbn in Hno;
        rewrite ?orb_true_r in Hno; discriminate Hno.
  - intros Hr. injection Hr as <-.
    cbn [websocket_closed openai_ws _tasks set_tasks].
    unfold after_run.
    destruct (gathered_relays yields cfg env) as [[g c] out].
    cbn [fst snd websocket_closed openai_ws set_tasks] in *.
    split; [exact Hclosed|]. split; [exact Hws|].
    apply in_or_app. right. left. reflexivity.
Qed.

(** A start frame without its [start] object makes the inbound relay
    fail; in another call the speech service drops the connection during
    the session set-up. *)
Lemma media_stream_failure_after_connect_witness :
  let broken :=
    Lifecycle.media_stream every_await example_speech example_settings
                           example_broken_call in
  let dropped :=
    Lifecycle.media_stream every_await example_speech example_settings
                           example_dropped_call in
  (call_outcome broken = Raised (KeyError "start")
   /\ websocket_closed (call_final broken) = false
   /\ openai_ws (call_final broken) = true
   /\ In (done (failed (KeyError "start"))) (_tasks (call_final broken)))
  /\ (call_outcome dropped = Raised ConnectionClosed
      /\ session_writes (call_effects dropped)
         = [ session_update "realtime" "gpt-realtime" ["audio"]
               "audio/pcmu" "server_vad" "audio/pcmu" "alloy" "Be brief." ]
      /\ websocket_closed (call_final dropped) = true
      /\ openai_ws (call_final dropped) = false
      /\ _tasks (call_final dropped) = []).
Proof.
  split.
  - split; [reflexivity|].
    exact (media_stream_failure_after_connect every_await example_speech
             example_settings example_broken_call (KeyError "start")
             eq_refl eq_refl eq_refl).
  - split; [reflexivity|]. split; [reflexivity|].
    exact (proj2 (proj2
             (media_stream_failure_after_connect every_await example_speech
                example_settings example_dropped_call ConnectionClosed
                eq_refl eq_refl eq_refl))).
Defined.

(** X22: a call that goes as calls should ends cleanly, however the two
    relays are interleaved at their awaits.  When the connection to the
    speech service is made, the sends of the session set-up succeed, every
    frame of the caller can be read by its handler (a media frame has a
    media object with a timestamp that [int()] accepts and a payload, a
    start frame a start object with a stream identifier), the iteration
    over the caller's frames ends (or raises [WebSocketDisconnect]) and
    the stream of events ends (or the connection is closed), then, the
    writes of the relays to the two sockets returning as they do here,
    no relay fails, [media_stream] returns without an exception, and it
    leaves the caller socket closed, the connection to the speech service
    closed and released, and no task. *)
Theorem well_formed_call_ends_cleanly
    (yields : io -> bool) (speech : SpeechSettings) (cfg : Settings)
    (env : Environment) :
  yields next_message = true ->
  connecting env = Return tt ->
  (forall m, sending env m = Return tt) ->
  Forall well_formed (twilio_frames env) ->
  hangs_up (twilio_end env) ->
  closes (openai_end env) ->
  let r := Lifecycle.media_stream yields speech cfg env in
  let c := snd (fst (gathered_relays yields cfg env)) in
  (forall e, receive_task c <> Completed (Raised e))
  /\ (forall e, send_task c <> Completed (Raised e))
  /\ call_outcome r = Return tt
  /\ websocket_closed (call_final r) = true
  /\ openai_ws (call_final r) = false
  /\ openai_state (call_final r) = CLOSED
  /\ _tasks (call_final r) = [].
Proof.
  intros Hnext Hc Hsend Hframes Hf He r c. subst r c.
  rewrite media_stream_connected
    by (try apply send_failure_none; assumption).
  cbv zeta.
  assert (Hret : relays_return yields sockets_in_use
                   (relays (connected cfg) (twilio_frames env) (twilio_end env)
                           (openai_events env) (openai_end env))).
  { apply relays_return_intro with (good := well_formed); try assumption.
    - intros data s Hd Hs. apply receive_body_returns; assumption.
    - intros response s Hs. apply send_body_returns, Hs.
    - intros s Hs. exact Hs.
    - intros s Hs. apply Hs.
    - split; reflexivity. }
  destruct (gather_returns yields sockets_in_use (loop env) _ Hret)
    as [Hret' Hnot].
  fold (gathered_relays yields cfg env) in Hret', Hnot.
  pose proof (gather_report yields (loop env)
                (relays (connected cfg) (twilio_frames env) (twilio_end env)
                        (openai_events env) (openai_end env))) as Hrep.
  fold (gathered_relays yields cfg env) in Hrep.
  assert (Hno : existsb failed_task (_tasks (after_run yields cfg env)) = false
                /\ openai_ws (after_run yields cfg env) = true
                /\ fst (handled (fst (fst (gathered_relays yields cfg env))))
                   = Return tt
                /\ (forall e, receive_task
                                (snd (fst (gathered_relays yields cfg env)))
                              <> Completed (Raised e))
                /\ (forall e, send_task
                                (snd (fst (gathered_relays yields cfg env)))
                              <> Completed (Raised e))).
  { unfold after_run.
    destruct (gathered_relays yields cfg env) as [[g c] out].
    cbn [fst snd] in *.
    destruct Hret' as ((_ & Hws) & Hr & Hs).
    cbn [_tasks set_tasks openai_ws existsb].
    split; [|split; [exact Hws|split; [|split]]].
    - destruct (receive_task c) as [r1|k1], (send_task c) as [r2|k2];
        cbn in Hr, Hs; subst; destruct g; cbn; try reflexivity;
        try (destruct Hrep; discriminate).
    - destruct g as [|e|]; [reflexivity | exfalso; exact (Hnot e eq_refl)
                           | reflexivity].
    - intros e Hr'. rewrite Hr' in Hr. discriminate Hr.
    - intros e Hs'. rewrite Hs' in Hs. discriminate Hs. }
  destruct Hno as (Hno & Hws & Hhandled & Hrt & Hst).
  split; [exact Hrt|]. split; [exact Hst|].
  rewrite (exec_shutdown _ Hno), Hhandled.
  unfold call_outcome, call_final. cbn [fst snd].
  clear Hrt Hst.
  generalize dependent (after_run yields cfg env). intros self _ Hws.
  split; [reflexivity|].
  split; [shut_down_cases self|].
  split; [shut_down_cases self|].
  split; shut_down_cases self.
Qed.

(** The example call: both relays come to their ends, after the start
    frame, the audio of the caller and the delta of the speech service
    have gone through. *)
Lemma well_formed_call_ends_cleanly_witness :
  let r :=
    Lifecycle.media_stream every_await example_speech example_settings
                           example_call in
  let g := gathered_relays every_await example_settings example_call in
  fst (fst g) = all_done
  /\ receive_task (snd (fst g)) = Completed (Return tt)
  /\ send_task (snd (fst g)) = Completed (Return tt)
  /\ call_outcome r = Return tt
  /\ websocket_closed (call_final r) = true
  /\ openai_ws (call_final r) = false
  /\ openai_state (call_final r) = CLOSED
  /\ _tasks (call_final r) = [].
Proof.
  split; [reflexivity|]. split; [reflexivity|]. split; [reflexivity|].
  apply (well_formed_call_ends_cleanly every_await example_speech
           example_settings example_call); try reflexivity.
  - repeat constructor; cbn; intros; try discriminate; eauto.
  - left. reflexivity.
  - right. reflexivity.
Defined.

(** ** The utterance and its start time *)

Ltac start_goal :=
  unfold at_rest, utterance_has_start, any_change in *;
  cbn in *;
  repeat match goal with
         | |- _ /\ _ => split
         | |- Forall _ [] => constructor
         | |- Forall _ (_ :: _) => constructor
         | |- forall _, _ => intro
         end;
  cbn in *; bool_hyps;
  try solve [ exact I | assumption
            | left; split; reflexivity
            | right; split; [assumption | discriminate]
            | intuition congruence ].

Ltac starts := repeat (progress (run_all; start_goal)).

Lemma receive_body_start (yields : io -> bool) (data : TwilioMessage)
    (s : Bridge) :
  utterance_has_start s ->
  wp yields utterance_has_start any_change (fun _ => True)
     (receive_from_twilio_body data)
     (at_rest utterance_has_start any_change) s s.
Proof.
  intros Hs.
  apply (wp_any_yields utterance_has_start (fun _ => True)
           (receive_from_twilio_body data)
           (fun _ b => utterance_has_start b /\ True) s s).
  destruct data as [ev [[[[[t| | |]|] [pl|]]|]|] [[[[sid|]]|]|]];
    unfold receive_from_twilio_body; starts.
Qed.

Lemma handle_audio_delta_start (response : OpenAIEvent) (s0 s : Bridge) :
  utterance_has_start s ->
  wp every_await utterance_has_start any_change (fun _ => True)
     (_handle_audio_delta response)
     (at_rest utterance_has_start any_change) s0 s.
Proof.
  intros Hs. unfold _handle_audio_delta, _send_mark.
  destruct (reencode response) as [audio_payload|e]; starts.
Qed.

Lemma handle_speech_started_start (s0 s : Bridge) :
  utterance_has_start s ->
  wp every_await utterance_has_start any_change (fun _ => True)
     _handle_speech_started_event
     (at_rest utterance_has_start any_change) s0 s.
Proof.
  intros Hs. unfold _handle_speech_started_event.
  destruct (mark_queue s) eqn:Hq; [starts|].
  destruct (response_start_timestamp_twilio s) eqn:Hr; starts.
Qed.

Lemma send_body_start (yields : io -> bool) (response : OpenAIEvent)
    (s : Bridge) :
  utterance_has_start s ->
  wp yields utterance_has_start any_change (fun _ => True)
     (send_to_twilio_body response)
     (at_rest utterance_has_start any_change) s s.
Proof.
  intros Hs.
  apply (wp_any_yields utterance_has_start (fun _ => True)
           (send_to_twilio_body response)
           (fun _ b => utterance_has_start b /\ True) s s).
  change (fun (_ : result unit) (_ b : Bridge) => utterance_has_start b /\ True)
    with (at_rest utterance_has_start any_change).
  unfold send_to_twilio_body. cbn [bind get wp]. apply wp_bind.
  eapply wp_mono with (Q := at_rest utterance_has_start any_change);
    [|destruct (in_tuple _ _); cbn; (split; [exact Hs | exact I])].
  intros r a b [Hb _].
  assert (Hrest : forall a b, utterance_has_start b ->
            wp every_await utterance_has_start any_change (fun _ => True)
              (bind get
                 (fun self =>
                    if is_str (event_type response)
                              "input_audio_buffer.speech_started"
                       && truthy (last_assistant_item self)
                    then
                      bind (logger INFO
                              "Speech started detected; interrupting response %s")
                           (fun _ => _handle_speech_started_event)
                    else skip))
              (at_rest utterance_has_start any_change) a b).
  { clear. intros a b Hb. cbn [bind get wp].
    destruct (_ && _); [|split; [exact Hb | exact I]].
    cbn [bind logger wp]. apply handle_speech_started_start, Hb. }
  destruct r as [[]|e]; [|split; [exact Hb | exact I]].
  apply wp_bind.
  eapply wp_mono with (Q := at_rest utterance_has_start any_change);
    [|destruct (_ && _);
      [apply handle_audio_delta_start, Hb | split; [exact Hb | exact I]]].
  intros r a' b' [Hb' _].
  destruct r as [[]|e]; [|split; [exact Hb' | exact I]].
  apply Hrest, Hb'.
Qed.

(** X23: an utterance and its start time are current together.  In every
    state the two relays reach, however they are interleaved at their
    awaits and whatever frames and events arrive, either
    [last_assistant_item] and [response_start_timestamp_twilio] are both
    [None], or the first is a non-empty identifier and the second is
    set. *)
Theorem utterance_and_start_time_together
    (yields : io -> bool) (cfg : Settings)
    (frames : list TwilioMessage) (frames_end : result unit)
    (events : list OpenAIEvent) (events_end : result unit)
    (ts : list turn) :
  yields next_message = true ->
  utterance_has_start
    (bridge (fst (schedule yields ts
                    (relays (connected cfg) frames frames_end
                            events events_end)))).
Proof.
  intros Hnext.
  assert (Hok : relays_ok yields utterance_has_start any_change (fun _ => True)
                  (relays (connected cfg) frames frames_end events events_end)).
  { apply relays_sound with (good := fun _ => True);
      try solve [intros; exact I | assumption].
    - intros data s _ Hs. apply receive_body_start, Hs.
    - intros response s Hs. apply send_body_start, Hs.
    - intros s Hs. split; [exact Hs | exact I].
    - apply Forall_trivial.
    - left. split; reflexivity. }
  apply (schedule_sound yields utterance_has_start any_change (fun _ => True))
    with (ts := ts) in Hok; try solve [intros; exact I].
  apply Hok.
Qed.

Lemma utterance_and_start_time_together_witness :
  utterance_has_start
    (bridge (fst (schedule every_await
                    [receive_turn; receive_turn; send_turn; send_turn;
                     send_turn; receive_turn; send_turn]
                    (relays (connected example_settings)
                            [start_message "MZ1"; media_message 20 "AAAA"]
                            (Return tt)
                            [audio_delta "QUJD" (Some "item_A"); speech_started]
                            (Return tt))))).
Proof.
  apply (utterance_and_start_time_together every_await). reflexivity.
Defined.

(** ** The list of logged event types *)

Lemma split_no_comma (s : string) :
  Forall (fun item => contains ","%char item = false) (Config.split s).
Proof.
  induction s as [|c s IH]; [repeat constructor|].
  cbn [Config.split]. destruct (Ascii.eqb c ","%char) eqn:E.
  - constructor; [reflexivity | exact IH].
  - destruct (Config.split s) as [|item items]; [repeat constructor; cbn; now rewrite E|].
    inversion IH as [|? ? Hitem Hitems]; subst.
    constructor; [cbn; rewrite E; exact Hitem | exact Hitems].
Qed.

Lemma split_one (item : string) :
  contains ","%char item = false -> Config.split item = [item].
Proof.
  induction item as [|c item IH]; intros H; [reflexivity|].
  cbn in H. apply orb_false_elim in H. destruct H as [Hc Hitem].
  cbn [Config.split]. rewrite Hc, IH by assumption. reflexivity.
Qed.

Lemma split_cons (item rest : string) :
  contains ","%char item = false ->
  Config.split (item ++ String ","%char rest) = item :: Config.split rest.
Proof.
  induction item as [|c item IH]; intros H; [reflexivity|].
  cbn in H. apply orb_false_elim in H. destruct H as [Hc Hitem].
  cbn [append Config.split]. rewrite Hc, IH by assumption. reflexivity.
Qed.

Lemma split_join (items : list string) :
  items <> [] ->
  Forall (fun item => contains ","%char item = false) items ->
  Config.split (join_commas items) = items.
Proof.
  induction items as [|item items IH]; intros Hne Hall; [contradiction|].
  inversion Hall as [|? ? Hitem Hitems]; subst.
  destruct items as [|item' items'].
  - cbn. apply split_one, Hitem.
  - change (join_commas (item :: item' :: items'))
      with (item ++ String ","%char (join_commas (item' :: items')))%string.
    rewrite split_cons by assumption. rewrite IH; [reflexivity|discriminate|assumption].
Qed.

Lemma strip_event_name (item : string) :
  event_name item -> strip item = item /\ truthy (Some (strip item)) = true.
Proof.
  intros (Hne & _ & Htrim).
  assert (H : strip item = item).
  { pose proof (strip_token "" item "" Htrim eq_refl eq_refl) as H.
    cbn [append] in H.
    replace (item ++ "")%string with item in H; [exact H|].
    clear. induction item as [|c item IH]; cbn; congruence. }
  split; [exact H|]. rewrite H. destruct item; [contradiction | reflexivity].
Qed.

(** X24: every entry [get_settings] reads from a non-empty
    [OPENAI_LOG_EVENT_TYPES] is an event name: it is not empty, holds no
    comma, and neither starts nor ends with white space, whatever the
    variable holds; empty items and items of white space are left out. *)
Theorem log_event_types_are_names (s : string) :
  s <> "" ->
  Forall event_name (Config.log_event_types (Some s)).
Proof.
  intros Hs. unfold Config.log_event_types.
  assert (Ht : truthy (Some s) = true) by (destruct s; [contradiction | reflexivity]).
  rewrite Ht. pose proof (split_no_comma s) as Hsplit.
  induction (Config.split s) as [|item items IH]; [constructor|].
  inversion Hsplit as [|? ? Hitem Hitems]; subst.
  cbn [filter]. destruct (truthy (Some (strip item))) eqn:E.
  - cbn [map]. constructor; [|apply IH, Hitems].
    split; [|split].
    + intros H. rewrite H in E. discriminate E.
    + unfold strip. apply contains_rstrip, contains_lstrip, Hitem.
    + apply strip_trimmed.
  - apply IH, Hitems.
Qed.

Lemma log_event_types_are_names_witness :
  Config.log_event_types (Some " error ,, response.done,  ")
  = ["error"; "response.done"]
  /\ Forall event_name (Config.log_event_types (Some " error ,, response.done,  ")).
Proof.
  split; [reflexivity|].
  apply (log_event_types_are_names " error ,, response.done,  ").
  discriminate.
Defined.

(** X25: reading the list back: when [OPENAI_LOG_EVENT_TYPES] holds event
    names joined by commas, [get_settings] reads exactly these names, in
    their order. *)
Theorem log_event_types_of_joined_names (items : list string) :
  items <> [] ->
  Forall event_name items ->
  Config.log_event_types (Some (join_commas items)) = items.
Proof.
  intros Hne Hall. unfold Config.log_event_types.
  assert (Ht : truthy (Some (join_commas items)) = true).
  { destruct items as [|item items]; [contradiction|].
    inversion Hall as [|? ? (Hitem & _) _]; subst.
    destruct item as [|c item]; [contradiction|].
    destruct items; reflexivity. }
  rewrite Ht, split_join; [|assumption|].
  - clear Hne Ht. induction Hall as [|item items Hitem _ IH]; [reflexivity|].
    destruct (strip_event_name item Hitem) as [H1 H2].
    cbn [filter]. rewrite H2. cbn [map]. rewrite H1, IH. reflexivity.
  - clear -Hall. induction Hall as [|item items (_ & Hitem & _) _ IH];
      constructor; assumption.
Qed.

Lemma log_event_types_of_joined_names_witness :
  Config.log_event_types (Some "error,response.done,session.created")
  = ["error"; "response.done"; "session.created"].
Proof.
  apply (log_event_types_of_joined_names
           ["error"; "response.done"; "session.created"]).
  - discriminate.
  - repeat constructor; try discriminate;
      intros c H; injection H as <-; reflexivity.
Defined.

(** ** The settings and what is relayed *)

Lemma same_relayed_bind {A B : Type} (cfg : Settings)
    (p p' : Prog A) (f f' : A -> Prog B) (self : Bridge) :
  same_relayed cfg (exec p self) (exec p' (with_settings cfg self)) ->
  (forall a self1,
     same_relayed cfg (exec (f a) self1)
                  (exec (f' a) (with_settings cfg self1))) ->
  same_relayed cfg (exec (bind p f) self)
               (exec (bind p' f') (with_settings cfg self)).
Proof.
  intros (Hr & Hs & Hout) Hf. rewrite !exec_bind.
  destruct (exec p self) as [[r self1] out1],
           (exec p' (with_settings cfg self)) as [[r' self1'] out1'].
  cbn [outcome final effects fst snd] in *. subst r' self1'.
  destruct r as [a|e].
  - destruct (Hf a self1) as (Hr2 & Hs2 & Hout2).
    destruct (exec (f a) self1) as [[r2 self2] out2],
             (exec (f' a) (with_settings cfg self1)) as [[r2' self2'] out2'].
    unfold same_relayed. cbn [outcome final effects fst snd] in *.
    split; [assumption|]. split; [assumption|].
    rewrite !filter_app. congruence.
  - split; [reflexivity|]. split; [reflexivity | assumption].
Qed.

Lemma same_relayed_log (cfg : Settings) (b b' : bool) (level : log_level)
    (msg : string) (self : Bridge) :
  same_relayed cfg (exec (if b then logger level msg else skip) self)
    (exec (if b' then logger level msg else skip) (with_settings cfg self)).
Proof. destruct b, b'; repeat split. Qed.

Lemma same_relayed_skip (cfg : Settings) (self : Bridge) :
  same_relayed cfg (exec skip self) (exec skip (with_settings cfg self)).
Proof. repeat split. Qed.

Ltac blind_cases :=
  unfold same_relayed; run;
  repeat (first
            [ case_if
            | match goal with
              | |- context [match mark_queue ?s with _ => _ end] =>
                  destruct (mark_queue s) eqn:?
              | |- context [match response_start_timestamp_twilio ?s with _ => _ end] =>
                  destruct (response_start_timestamp_twilio s) eqn:?
              end ]; run);
  repeat split.

Lemma handle_audio_delta_blind (cfg : Settings) (response : OpenAIEvent)
    (self : Bridge) :
  same_relayed cfg (exec (_handle_audio_delta response) self)
               (exec (_handle_audio_delta response) (with_settings cfg self)).
Proof.
  unfold _handle_audio_delta, _send_mark.
  destruct (reencode response) as [audio_payload|e]; blind_cases.
Qed.

Lemma handle_speech_started_blind (cfg : Settings) (self : Bridge) :
  same_relayed cfg (exec _handle_speech_started_event self)
               (exec _handle_speech_started_event (with_settings cfg self)).
Proof. unfold _handle_speech_started_event. blind_cases. Qed.

Lemma send_body_blind (cfg : Settings) (response : OpenAIEvent)
    (self : Bridge) :
  same_relayed cfg (exec (send_to_twilio_body response) self)
               (exec (send_to_twilio_body response) (with_settings cfg self)).
Proof.
  unfold send_to_twilio_body. rewrite !exec_get_bind.
  apply same_relayed_bind; [apply same_relayed_log|].
  intros [] self1. apply same_relayed_bind.
  { destruct (_ && _); [apply handle_audio_delta_blind | apply same_relayed_skip]. }
  intros [] self2. rewrite !exec_get_bind.
  cbn [last_assistant_item with_settings].
  destruct (_ && _); [|apply same_relayed_skip].
  apply same_relayed_bind; [repeat split|].
  intros [] self3. apply handle_speech_started_blind.
Qed.

Lemma receive_body_blind (cfg : Settings) (data : TwilioMessage)
    (self : Bridge) :
  same_relayed cfg (exec (receive_from_twilio_body data) self)
               (exec (receive_from_twilio_body data) (with_settings cfg self)).
Proof.
  destruct data as [ev [[[[[t| | |]|] [pl|]]|]|] [[[[sid|]]|]|]];
    unfold receive_from_twilio_body; cbn [event media start];
    destruct (is_str ev "media");
    unfold same_relayed; cbn;
    repeat match goal with
           | |- context [if ?c then _ else _] => destruct c eqn:?; cbn
           | |- context [match openai_state self with _ => _ end] =>
               destruct (openai_state self); cbn
           | |- context [match mark_queue self with _ => _ end] =>
               destruct (mark_queue self) eqn:?; cbn
           end;
    repeat split.
Qed.

Lemma async_for_blind {X : Type} (cfg : Settings) (body : X -> Prog unit)
    (ending : result unit) (xs : list X) :
  (forall x self,
     same_relayed cfg (exec (body x) self)
                  (exec (body x) (with_settings cfg self))) ->
  forall self,
  same_relayed cfg (exec (async_for xs ending body) self)
               (exec (async_for xs ending body) (with_settings cfg self)).
Proof.
  intros Hbody. induction xs as [|x xs IH]; intros self.
  - rewrite !exec_async_for_nil. repeat split.
  - cbn [async_for].
    apply same_relayed_bind; [repeat split|]. intros [] self1.
    apply same_relayed_bind; [apply Hbody|]. intros [] self2. apply IH.
Qed.

Lemma try_except_blind (cfg : Settings) (p : Prog unit)
    (h : exn -> option (Prog unit)) (self : Bridge) :
  same_relayed cfg (exec p self) (exec p (with_settings cfg self)) ->
  (forall e q self1, h e = Some q ->
     same_relayed cfg (exec q self1) (exec q (with_settings cfg self1))) ->
  same_relayed cfg (exec (try_except p h) self)
               (exec (try_except p h) (with_settings cfg self)).
Proof.
  intros (Hr & Hs & Hout) Hh. rewrite !exec_try_except.
  destruct (exec p self) as [[r self1] out1],
           (exec p (with_settings cfg self)) as [[r' self1'] out1'].
  cbn [outcome final effects fst snd] in *. subst r' self1'.
  destruct r as [a|e]; [repeat split; assumption|].
  destruct (h e) as [q|] eqn:Hq; [|repeat split; assumption].
  destruct (Hh e q self1 Hq) as (Hr2 & Hs2 & Hout2).
  destruct (exec q self1) as [[r2 self2] out2],
           (exec q (with_settings cfg self1)) as [[r2' self2'] out2'].
  unfold same_relayed. cbn [outcome final effects fst snd] in *.
  split; [assumption|]. split; [assumption|].
  rewrite !filter_app. congruence.
Qed.

(** X28: the settings of the bridge decide what is logged and nothing
    else.  Run to its end from bridges that differ in their settings only
    ([log_event_types], [show_timing_math]), each relay ends in the same
    way, writes the same frames and messages to the sockets in the same
    order, and leaves the bridge in the same state. *)
Theorem settings_only_change_the_log
    (cfg : Settings) (self : Bridge)
    (frames : list TwilioMessage) (frames_end : result unit)
    (events : list OpenAIEvent) (events_end : result unit) :
  same_relayed cfg
    (exec (_receive_from_twilio frames frames_end) self)
    (exec (_receive_from_twilio frames frames_end) (with_settings cfg self))
  /\ same_relayed cfg
       (exec (_send_to_twilio events events_end) self)
       (exec (_send_to_twilio events events_end) (with_settings cfg self)).
Proof.
  split.
  - unfold _receive_from_twilio. rewrite !exec_get_bind.
    cbn [openai_ws with_settings].
    apply same_relayed_bind; [destruct (openai_ws self); repeat split|].
    intros [] self1. apply try_except_blind.
    + apply async_for_blind. intros data s. apply receive_body_blind.
    + intros e q s Hq.
      destruct (is_WebSocketDisconnect e); [|destruct (is_Exception e)];
        inversion Hq; subst q; clear Hq.
      * unfold same_relayed. cbn.
        destruct (openai_ws s && _); repeat split.
      * repeat split.
  - unfold _send_to_twilio. rewrite !exec_get_bind.
    cbn [openai_ws with_settings].
    apply same_relayed_bind; [destruct (openai_ws self); repeat split|].
    intros [] self1. apply try_except_blind.
    + apply async_for_blind. intros response s. apply send_body_blind.
    + intros e q s Hq.
      destruct (is_ConnectionClosed e); [|destruct (is_Exception e)];
        inversion Hq; subst q; repeat split.
Qed.
